(** * Discrete surfaces with elastic metrics: a shallow embedding

    Embedding of [geomstats/geometry/discrete_surfaces.py] (classes
    [DiscreteSurfaces] and [ElasticMetric]).

    Conventions of the model.
    - Array entries are real numbers: the arithmetic of the source is read
      over [R] (exact arithmetic), rounding is not modelled.
    - A surface point of shape [[n_vertices, 3]] is a [list vec3]; a
      per-face array of shape [[n_faces, ...]] is a list indexed by face.
    - A tangent vector has the shape [[n_vertices, 3]] or carries one
      leading batch axis (type [batched]); the base point of the inner
      product has the shape [[n_vertices, 3]], as its docstring says.
    - A call that raises in the source ([IndexError] of an out-of-range
      index, a transpose whose axes do not match the array, the inverse of a
      singular matrix), a division by an exact zero (which yields a
      non-finite entry in the source), and an operation on arrays whose
      shapes differ, are all [None]. The broadcasting of an axis of length 1
      against a longer axis is outside the model: such operands count as
      arrays whose shapes differ. *)

From Stdlib Require Import Reals Lra Lia.
From stdpp Require Import base option list.

Open Scope R_scope.

(** ** Vectors of R^3 and small matrices *)

Definition vec3 : Type := R * R * R.

Definition vzero : vec3 := (0, 0, 0).

Definition vadd (u v : vec3) : vec3 :=
  let '(u0, u1, u2) := u in
  let '(v0, v1, v2) := v in
  (u0 + v0, u1 + v1, u2 + v2).

Definition vsub (u v : vec3) : vec3 :=
  let '(u0, u1, u2) := u in
  let '(v0, v1, v2) := v in
  (u0 - v0, u1 - v1, u2 - v2).

Definition vscale (c : R) (u : vec3) : vec3 :=
  let '(u0, u1, u2) := u in (c * u0, c * u1, c * u2).

(** [gs.einsum("...bi,...bi->...b", u, v)] at one index [b]. *)
Definition dot (u v : vec3) : R :=
  let '(u0, u1, u2) := u in
  let '(v0, v1, v2) := v in
  u0 * v0 + u1 * v1 + u2 * v2.

(** [gs.cross]. *)
Definition cross (u v : vec3) : vec3 :=
  let '(u0, u1, u2) := u in
  let '(v0, v1, v2) := v in
  (u1 * v2 - u2 * v1, u2 * v0 - u0 * v2, u0 * v1 - u1 * v0).

(** [gs.linalg.norm(_, axis=-1)] at one index. *)
Definition norm (u : vec3) : R := sqrt (dot u u).

(** [gs.sum] of a one-dimensional array. *)
Definition Rsum (l : list R) : R := foldr Rplus 0 l.

(** [x.clip(min=m)]. *)
Definition clip_min (m x : R) : R := Rmax x m.

(** The floor [1e-6] of the Heron radicand. *)
Definition area_floor : R := / 1000000.

(** ** Mesh topology *)

Definition face : Type := nat * nat * nat.

Definition corner0 (f : face) : nat := f.1.1.
Definition corner1 (f : face) : nat := f.1.2.
Definition corner2 (f : face) : nat := f.2.

(** [self.faces[:, i]] for [i] in [0, 1, 2]. *)
Definition column (i : nat) (faces : list face) : list nat :=
  match i with
  | O => map corner0 faces
  | S O => map corner1 faces
  | _ => map corner2 faces
  end.

(** [gs.flatten(self.faces)]: row-major, one face after the other. *)
Definition flatten_faces (faces : list face) : list nat :=
  flat_map (fun f => [corner0 f; corner1 f; corner2 f]) faces.

(** [gs.amax(self.faces)]. *)
Definition amax (faces : list face) : nat :=
  foldr Nat.max O (flatten_faces faces).

Record DiscreteSurfaces : Type := mkDiscreteSurfaces {
  faces : list face
}.

Definition n_faces (space : DiscreteSurfaces) : nat := length (faces space).

Definition n_vertices (space : DiscreteSurfaces) : nat :=
  S (amax (faces space)).

(** [DiscreteSurfaces.belongs] on a point of shape [[k, 3]]: the shape test
    [self.shape == point.shape[-2:]]. *)
Definition belongs (space : DiscreteSurfaces) (point : list vec3) : bool :=
  bool_decide (length point = n_vertices space).

(** ** Array primitives of the backend *)

(** Modelled from the spec: [gs.take(point, indices, axis=-2)], the "vertex
    gather" of the spec: the rows of [point] at the given indices; an index
    outside the array raises. *)
Definition take_rows (point : list vec3) (indices : list nat)
  : option (list vec3) :=
  mapM (fun i => point !! i) indices.

(** Modelled from the spec: [gs.scatter_add(input, dim, index, src)] along the
    last axis, the "scatter-accumulation" of the spec: the contributions of
    [src] are added one after the other into [input] at the positions given by
    [index]; duplicate target indices sum; an index outside [input] raises. *)
Fixpoint scatter_add (input : list R) (index : list nat) (src : list R)
  : option (list R) :=
  match index, src with
  | i :: index', v :: src' =>
      x ← input !! i;
      scatter_add (<[i := x + v]> input) index' src'
  | _, _ => Some input
  end.

(** ** Geometric quantities of [DiscreteSurfaces] *)

(** [DiscreteSurfaces._vertices]. *)
Definition _vertices (space : DiscreteSurfaces) (point : list vec3)
  : option (list vec3 * list vec3 * list vec3) :=
  vertex_0 ← take_rows point (column 0 (faces space));
  vertex_1 ← take_rows point (column 1 (faces space));
  vertex_2 ← take_rows point (column 2 (faces space));
  Some (vertex_0, vertex_1, vertex_2).

(** Elementwise combination of three per-face arrays. *)
Fixpoint map3 {A B C D : Type} (f : A → B → C → D)
    (l0 : list A) (l1 : list B) (l2 : list C) : list D :=
  match l0, l1, l2 with
  | x0 :: l0', x1 :: l1', x2 :: l2' => f x0 x1 x2 :: map3 f l0' l1' l2'
  | _, _, _ => []
  end.

(** The radicand of Heron's formula, from the three corners of one face. *)
Definition heron_radicand (v0 v1 v2 : vec3) : R :=
  let len_edge_12 := norm (vsub v1 v2) in
  let len_edge_02 := norm (vsub v0 v2) in
  let len_edge_01 := norm (vsub v0 v1) in
  let half_perimeter := 0.5 * (len_edge_12 + len_edge_02 + len_edge_01) in
  half_perimeter
  * (half_perimeter - len_edge_12)
  * (half_perimeter - len_edge_02)
  * (half_perimeter - len_edge_01).

(** The body of [_triangle_areas] at one face. *)
Definition triangle_area (v0 v1 v2 : vec3) : R :=
  sqrt (clip_min area_floor (heron_radicand v0 v1 v2)).

(** [DiscreteSurfaces._triangle_areas]. *)
Definition _triangle_areas (space : DiscreteSurfaces) (point : list vec3)
  : option (list R) :=
  '(vertex_0, vertex_1, vertex_2) ← _vertices space point;
  Some (map3 triangle_area vertex_0 vertex_1 vertex_2).

(** [DiscreteSurfaces.vertex_areas] on a point without batch axes:
    [id_vertices] is the flattened face array (face after face), [val] is the
    area array broadcast to shape [(3, n_faces)] and reshaped to one axis, that
    is three copies of [area] one after the other. *)
Definition vertex_areas (space : DiscreteSurfaces) (point : list vec3)
  : option (list R) :=
  let n_vertices := length point in
  area ← _triangle_areas space point;
  let id_vertices := flatten_faces (faces space) in
  let incident_areas := replicate n_vertices 0 in
  let val := area ++ area ++ area in
  incident_areas ← scatter_add incident_areas id_vertices val;
  Some (map (fun x => 2 * x / 3) incident_areas).

(** [DiscreteSurfaces.normals]. *)
Definition normal_at (v0 v1 v2 : vec3) : vec3 :=
  vscale 0.5 (cross (vsub v1 v0) (vsub v2 v0)).

Definition normals (space : DiscreteSurfaces) (point : list vec3)
  : option (list vec3) :=
  '(vertex_0, vertex_1, vertex_2) ← _vertices space point;
  Some (map3 normal_at vertex_0 vertex_1 vertex_2).

(** A one-form at one face: the [2 x 3] matrix of its two rows. *)
Definition mat23 : Type := vec3 * vec3.

(** A [2 x 2] matrix, row after row. *)
Definition mat22 : Type := (R * R) * (R * R).

Definition one_form_at (v0 v1 v2 : vec3) : mat23 :=
  (vsub v1 v0, vsub v2 v0).

(** [DiscreteSurfaces.surface_one_forms]. *)
Definition surface_one_forms (space : DiscreteSurfaces) (point : list vec3)
  : option (list mat23) :=
  '(vertex_0, vertex_1, vertex_2) ← _vertices space point;
  Some (map3 one_form_at vertex_0 vertex_1 vertex_2).

(** [gs.matmul(one_form, transpose(one_form))] at one face. *)
Definition gram (w : mat23) : mat22 :=
  let '(r0, r1) := w in
  ((dot r0 r0, dot r0 r1), (dot r1 r0, dot r1 r1)).

(** [DiscreteSurfaces._surface_metric_matrices_from_one_forms]. *)
Definition _surface_metric_matrices_from_one_forms (one_forms : list mat23)
  : list mat22 :=
  map gram one_forms.

(** [DiscreteSurfaces.surface_metric_matrices]. *)
Definition surface_metric_matrices (space : DiscreteSurfaces)
    (point : list vec3) : option (list mat22) :=
  one_forms ← surface_one_forms space point;
  Some (_surface_metric_matrices_from_one_forms one_forms).

(** [gs.linalg.det] of a [2 x 2] matrix. *)
Definition det22 (m : mat22) : R :=
  let '((a, b), (c, d)) := m in a * d - b * c.

(** [DiscreteSurfaces.face_areas]. *)
Definition face_areas (space : DiscreteSurfaces) (point : list vec3)
  : option (list R) :=
  surface_metrics ← surface_metric_matrices space point;
  Some (map (fun g => sqrt (det22 g)) surface_metrics).

(** ** The mesh Laplacian *)

#[global] Instance R_eq_dec : EqDecision R := Req_dec_T.

(** Division by a computed quantity: a division by zero gives a non-finite
    entry ([Inf] or [NaN]) in the source, which is [None] here. *)
Definition fdiv (x y : R) : option R :=
  if decide (y = 0) then None else Some (x / y).

(** The local [area] of [laplacian] at one face (lines 373-380). *)
Definition laplacian_area (v0 v1 v2 : vec3) : R :=
  sqrt (clip_min area_floor (heron_radicand v0 v1 v2)).

(** The three cotangent weights [cot_12, cot_02, cot_01] of one face, after
    [cot /= 2.0]. *)
Definition cot_at (v0 v1 v2 : vec3) : option (list R) :=
  let len_edge_12 := norm (vsub v1 v2) in
  let len_edge_02 := norm (vsub v0 v2) in
  let len_edge_01 := norm (vsub v0 v1) in
  let area := laplacian_area v0 v1 v2 in
  let sq_len_edge_12 := len_edge_12 * len_edge_12 in
  let sq_len_edge_02 := len_edge_02 * len_edge_02 in
  let sq_len_edge_01 := len_edge_01 * len_edge_01 in
  cot_12 ← fdiv (sq_len_edge_02 + sq_len_edge_01 - sq_len_edge_12) area;
  cot_02 ← fdiv (sq_len_edge_12 + sq_len_edge_01 - sq_len_edge_02) area;
  cot_01 ← fdiv (sq_len_edge_12 + sq_len_edge_02 - sq_len_edge_01) area;
  Some [cot_12 / 2; cot_02 / 2; cot_01 / 2].

(** What the closure returned by [laplacian] captures: [n_vertices], the
    flattened [cot] (of shape [[n_faces, 3]], face after face) and the two rows
    of [id_vertices] (of shape [[2, 3 * n_faces]]). *)
Record laplacian_op : Type := mkLaplacianOp {
  lap_n_vertices : nat;
  lap_cot : list R;
  lap_id_vertices_0 : list nat;
  lap_id_vertices_1 : list nat
}.

(** [self.faces[:, [1, 2, 0]]] and [self.faces[:, [2, 0, 1]]], flattened. *)
Definition id_vertices_120 (faces : list face) : list nat :=
  flat_map (fun f => [corner1 f; corner2 f; corner0 f]) faces.

Definition id_vertices_201 (faces : list face) : list nat :=
  flat_map (fun f => [corner2 f; corner0 f; corner1 f]) faces.

(** [DiscreteSurfaces.laplacian]. *)
Definition laplacian (space : DiscreteSurfaces) (point : list vec3)
  : option laplacian_op :=
  let n_vertices := length point in
  '(vertex_0, vertex_1, vertex_2) ← _vertices space point;
  cot ← mapM (fun c : option (list R) => c)
          (map3 cot_at vertex_0 vertex_1 vertex_2);
  Some (mkLaplacianOp n_vertices (concat cot)
          (id_vertices_120 (faces space)) (id_vertices_201 (faces space))).

Definition coord (i_dim : nat) (u : vec3) : R :=
  match i_dim with
  | O => u.1.1
  | S O => u.1.2
  | _ => u.2
  end.

(** The closure [_laplacian] on one field of shape [[n_vertices, 3]]:
    the differences along the weighted edges, their products with the weights
    and the scatter-add, coordinate after coordinate, into a zero array. *)
Definition _laplacian_field (op : laplacian_op) (tangent_vec : list vec3)
  : option (list vec3) :=
  from ← take_rows tangent_vec (lap_id_vertices_0 op);
  to ← take_rows tangent_vec (lap_id_vertices_1 op);
  let tangent_vec_diff := zip_with vsub from to in
  let values := zip_with vscale (lap_cot op) tangent_vec_diff in
  let zeros := replicate (lap_n_vertices op) 0 in
  out_0 ← scatter_add zeros (lap_id_vertices_1 op) (map (coord 0) values);
  out_1 ← scatter_add zeros (lap_id_vertices_1 op) (map (coord 1) values);
  out_2 ← scatter_add zeros (lap_id_vertices_1 op) (map (coord 2) values);
  Some (map3 (fun x y z => (x, y, z)) out_0 out_1 out_2).

(** An array with or without one leading batch axis. *)
Inductive batched (A : Type) : Type :=
  | Single (x : A)
  | Batch (xs : list A).
Arguments Single {A} x.
Arguments Batch {A} xs.

(** The same computation on every element of the batch. *)
Definition bmapM {A B : Type} (f : A → option B) (x : batched A)
  : option (batched B) :=
  match x with
  | Single a => Single <$> f a
  | Batch l => Batch <$> mapM f l
  end.

(** [_laplacian]: a field of two axes is expanded, treated and squeezed; a
    batch of fields is treated field after field. *)
Definition _laplacian (op : laplacian_op) (tangent_vec : batched (list vec3))
  : option (batched (list vec3)) :=
  bmapM (_laplacian_field op) tangent_vec.

(** ** Small matrices of the elastic metric *)

(** A [3 x 2] matrix, row after row. *)
Definition mat32 : Type := (R * R) * (R * R) * (R * R).

(** A [3 x 3] matrix, row after row. *)
Definition mat33 : Type := vec3 * vec3 * vec3.

Definition transpose23 (w : mat23) : mat32 :=
  let '((a0, a1, a2), (b0, b1, b2)) := w in
  ((a0, b0), (a1, b1), (a2, b2)).

Definition transpose32 (w : mat32) : mat23 :=
  let '((a0, b0), (a1, b1), (a2, b2)) := w in
  ((a0, a1, a2), (b0, b1, b2)).

Definition sub32 (x y : mat32) : mat32 :=
  let '((x00, x01), (x10, x11), (x20, x21)) := x in
  let '((y00, y01), (y10, y11), (y20, y21)) := y in
  ((x00 - y00, x01 - y01), (x10 - y10, x11 - y11), (x20 - y20, x21 - y21)).

Definition sub22 (x y : mat22) : mat22 :=
  let '((x00, x01), (x10, x11)) := x in
  let '((y00, y01), (y10, y11)) := y in
  ((x00 - y00, x01 - y01), (x10 - y10, x11 - y11)).

Definition matmul_22_22 (x y : mat22) : mat22 :=
  let '((x00, x01), (x10, x11)) := x in
  let '((y00, y01), (y10, y11)) := y in
  ((x00 * y00 + x01 * y10, x00 * y01 + x01 * y11),
   (x10 * y00 + x11 * y10, x10 * y01 + x11 * y11)).

Definition matmul_32_22 (x : mat32) (y : mat22) : mat32 :=
  let '((x00, x01), (x10, x11), (x20, x21)) := x in
  let '((y00, y01), (y10, y11)) := y in
  ((x00 * y00 + x01 * y10, x00 * y01 + x01 * y11),
   (x10 * y00 + x11 * y10, x10 * y01 + x11 * y11),
   (x20 * y00 + x21 * y10, x20 * y01 + x21 * y11)).

Definition matmul_23_32 (x : mat23) (y : mat32) : mat22 :=
  let '((x00, x01, x02), (x10, x11, x12)) := x in
  let '((y00, y01), (y10, y11), (y20, y21)) := y in
  ((x00 * y00 + x01 * y10 + x02 * y20, x00 * y01 + x01 * y11 + x02 * y21),
   (x10 * y00 + x11 * y10 + x12 * y20, x10 * y01 + x11 * y11 + x12 * y21)).

Definition matmul_22_23 (x : mat22) (y : mat23) : mat23 :=
  let '((x00, x01), (x10, x11)) := x in
  let '((y00, y01, y02), (y10, y11, y12)) := y in
  ((x00 * y00 + x01 * y10, x00 * y01 + x01 * y11, x00 * y02 + x01 * y12),
   (x10 * y00 + x11 * y10, x10 * y01 + x11 * y11, x10 * y02 + x11 * y12)).

Definition matmul_32_23 (x : mat32) (y : mat23) : mat33 :=
  let '((x00, x01), (x10, x11), (x20, x21)) := x in
  let '((y00, y01, y02), (y10, y11, y12)) := y in
  ((x00 * y00 + x01 * y10, x00 * y01 + x01 * y11, x00 * y02 + x01 * y12),
   (x10 * y00 + x11 * y10, x10 * y01 + x11 * y11, x10 * y02 + x11 * y12),
   (x20 * y00 + x21 * y10, x20 * y01 + x21 * y11, x20 * y02 + x21 * y12)).

(** [gs.einsum("...bii->...b", _)] at one index [b]. *)
Definition trace22 (x : mat22) : R :=
  let '((x00, _), (_, x11)) := x in x00 + x11.

Definition trace33 (x : mat33) : R :=
  let '((x00, _, _), (_, x11, _), (_, _, x22)) := x in x00 + x11 + x22.

(** [gs.linalg.inv] of one [2 x 2] matrix; a singular matrix raises. *)
Definition inv22 (m : mat22) : option mat22 :=
  let '((a, b), (c, d)) := m in
  if decide (det22 m = 0) then None
  else Some ((d / det22 m, - b / det22 m), (- c / det22 m, a / det22 m)).

(** ** Arrays with an optional batch axis *)

Definition bmap {A B : Type} (f : A → B) (x : batched A) : batched B :=
  match x with
  | Single a => Single (f a)
  | Batch l => Batch (map f l)
  end.

(** Elementwise combination of two arrays of the same length. *)
Definition zip_same {A B C : Type} (f : A → B → option C)
    (l1 : list A) (l2 : list B) : option (list C) :=
  if decide (length l1 = length l2)
  then mapM (fun p => f p.1 p.2) (zip l1 l2)
  else None.

(** Broadcasting of a binary operation over the batch axes of its operands:
    an operand without batch axis is combined with every element of the
    other one; two batches are combined element by element. *)
Definition bzip {A B C : Type} (f : A → B → option C)
    (x : batched A) (y : batched B) : option (batched C) :=
  match x, y with
  | Single a, Single b => Single <$> f a b
  | Single a, Batch l2 => Batch <$> mapM (f a) l2
  | Batch l1, Single b => Batch <$> mapM (fun a => f a b) l1
  | Batch l1, Batch l2 => Batch <$> zip_same f l1 l2
  end.

(** [x + y] on results with an optional batch axis. *)
Definition radd (x y : batched R) : option (batched R) :=
  bzip (fun u v => Some (u + v)) x y.

(** [w * x] for a scalar [w]. *)
Definition rscale (w : R) (x : batched R) : batched R := bmap (Rmult w) x.

(** [gs.transpose(x, (0, 1, 3, 2))] swaps the last two axes of an array of
    four axes, here a batch of per-face matrices; it raises on an array with
    another number of axes. The matrices are transposed by [tr]. *)
Definition transpose_0132 {A B : Type} (tr : A → B) (x : batched (list A))
  : option (batched (list B)) :=
  match x with
  | Single _ => None
  | Batch l => Some (Batch (map (map tr) l))
  end.

(** [base_point + h] for two arrays of shape [[n_vertices, 3]]. *)
Definition padd (base_point h : list vec3) : option (list vec3) :=
  if decide (length base_point = length h)
  then Some (zip_with vadd base_point h)
  else None.

(** ** The elastic metric *)

Record ElasticMetric : Type := mkElasticMetric {
  space : DiscreteSurfaces;
  a0 : R;
  a1 : R;
  b1 : R;
  c1 : R;
  d1 : R;
  a2 : R
}.

#[global] Instance Rlt_decision (x y : R) : Decision (x < y) := Rlt_dec x y.

(** [gs.sum(x)] without axis, on an array of per-face or per-vertex values
    with an optional batch axis: the sum of all entries. *)
Definition sum_all (x : batched (list R)) : R :=
  match x with
  | Single l => Rsum l
  | Batch ls => Rsum (concat ls)
  end.

(** [gs.sum(x, axis=-1)]. *)
Definition sum_last (x : batched (list R)) : batched R := bmap Rsum x.

(** The six terms, as the expressions of [inner_product] compute them. *)

(** Lines 538-540: [gs.sum(v_areas * einsum(h, k), axis=-1)]. *)
Definition term_a0 (v_areas : list R) (h k : batched (list vec3))
  : option (batched R) :=
  hk ← bzip (fun x y => Some (zip_with dot x y)) h k;
  Some (sum_last (bmap (fun e => zip_with Rmult v_areas e) hk)).

(** Lines 542-551: [gs.sum(einsum(lap(h), lap(k)) / v_areas, axis=-1)]. *)
Definition term_a2 (sp : DiscreteSurfaces) (v_areas : list R)
    (h k : batched (list vec3)) (base_point : list vec3)
  : option (batched R) :=
  laplacian_at_base_point ← laplacian sp base_point;
  lap_h ← _laplacian laplacian_at_base_point h;
  lap_k ← _laplacian laplacian_at_base_point k;
  e ← bzip (fun x y => Some (zip_with dot x y)) lap_h lap_k;
  q ← bmapM (fun e => mapM (fun p => fdiv p.1 p.2) (zip e v_areas)) e;
  Some (sum_last q).

(** Lines 560-564: [gs.sum(einsum(dn1, dn2) * areas, axis=-1)]. *)
Definition term_c1 (sp : DiscreteSurfaces) (areas : list R)
    (normals_at_base_point : list vec3) (point_a point_b : batched (list vec3))
  : option (batched R) :=
  normals_a ← bmapM (normals sp) point_a;
  let dn1 := bmap (fun n => zip_with vsub n normals_at_base_point) normals_a in
  normals_b ← bmapM (normals sp) point_b;
  let dn2 := bmap (fun n => zip_with vsub n normals_at_base_point) normals_b in
  e ← bzip (fun x y => Some (zip_with dot x y)) dn1 dn2;
  Some (sum_last (bmap (fun e => zip_with Rmult e areas) e)).

(** Lines 574-583 and 585-593: [xi1_0] from [one_forms_a] (and [xi2_0] from
    [one_forms_b]). *)
Definition xi_0 (one_forms_base_point : list mat23) (ginv : list mat22)
    (one_forms_x : batched (list mat23)) : option (batched (list mat32)) :=
  let one_forms_base_point_t := map transpose23 one_forms_base_point in
  one_forms_x_t ← transpose_0132 transpose23 one_forms_x;
  let xi :=
    bmap (fun x_t => zip_with sub32 x_t one_forms_base_point_t) one_forms_x_t in
  xi_t ← transpose_0132 transpose32 xi;
  let left := zip_with matmul_32_22 one_forms_base_point_t ginv in
  let right_1 :=
    bmap (fun x => zip_with matmul_23_32 x one_forms_base_point_t) xi_t in
  let right_2 :=
    bmap (fun x => zip_with matmul_23_32 one_forms_base_point x) xi in
  right ← bzip (fun x y => Some (zip_with sub22 x y)) right_1 right_2;
  Some (bmap (fun r => zip_with matmul_32_22 left r) right).

(** Lines 570-604: [gs.sum(einsum("...bii->...b", matmul(xi1_0, matmul(ginv,
    transpose(xi2_0)))) * areas)], a sum without [axis]. *)
Definition term_d1 (areas : list R) (one_forms_base_point : list mat23)
    (ginv : list mat22) (one_forms_a one_forms_b : batched (list mat23))
  : option (batched R) :=
  xi1_0 ← xi_0 one_forms_base_point ginv one_forms_a;
  xi2_0 ← xi_0 one_forms_base_point ginv one_forms_b;
  xi2_0_t ← transpose_0132 transpose32 xi2_0;
  let inner := bmap (fun x => zip_with matmul_22_23 ginv x) xi2_0_t in
  prod ← bzip (fun x y => Some (zip_with matmul_32_23 x y)) xi1_0 inner;
  let traces := bmap (map trace33) prod in
  Some (Single (sum_all (bmap (fun t => zip_with Rmult t areas) traces))).

(** Lines 606-617: [dg1] from [one_forms_a] (and [dg2] from [one_forms_b]). *)
Definition delta_metric (surface_metrics : list mat22)
    (one_forms_x : batched (list mat23)) : option (batched (list mat22)) :=
  one_forms_x_t ← transpose_0132 transpose23 one_forms_x;
  prod ← bzip (fun x y => Some (zip_with matmul_23_32 x y))
           one_forms_x one_forms_x_t;
  Some (bmap (fun m => zip_with sub22 m surface_metrics) prod).

(** Lines 620-623: [gs.sum(einsum("...bii->...b", matmul(ginvdg1, ginvdg2))
    * areas, axis=-1)]. *)
Definition term_a1 (areas : list R) (ginvdg1 ginvdg2 : batched (list mat22))
  : option (batched R) :=
  prod ← bzip (fun x y => Some (zip_with matmul_22_22 x y)) ginvdg1 ginvdg2;
  let traces := bmap (map trace22) prod in
  Some (sum_last (bmap (fun t => zip_with Rmult t areas) traces)).

(** Lines 624-629: [gs.sum(einsum("...bii->...b", ginvdg1)
    * einsum("...bii->...b", ginvdg2) * areas, axis=-1)]. *)
Definition term_b1 (areas : list R) (ginvdg1 ginvdg2 : batched (list mat22))
  : option (batched R) :=
  let traces_1 := bmap (map trace22) ginvdg1 in
  let traces_2 := bmap (map trace22) ginvdg2 in
  prod ← bzip (fun x y => Some (zip_with Rmult x y)) traces_1 traces_2;
  Some (sum_last (bmap (fun t => zip_with Rmult t areas) prod)).

(** [inner_prod += w * term]. *)
Definition accumulate (inner_prod : batched R) (w : R)
    (term : option (batched R)) : option (batched R) :=
  t ← term; radd inner_prod (rscale w t).

(** Lines 535-551 of [inner_product]: the terms of [a0] and [a2]. *)
Definition mass_and_bending_block (m : ElasticMetric)
    (h k : batched (list vec3)) (base_point : list vec3)
    (inner_prod : batched R) : option (batched R) :=
  if decide (0 < a0 m ∨ 0 < a2 m) then
    v_areas ← vertex_areas (space m) base_point;
    inner_prod ←
      (if decide (0 < a0 m)
       then accumulate inner_prod (a0 m) (term_a0 v_areas h k)
       else Some inner_prod);
    (if decide (0 < a2 m)
     then accumulate inner_prod (a2 m)
            (term_a2 (space m) v_areas h k base_point)
     else Some inner_prod)
  else Some inner_prod.

(** Lines 605-629 of [inner_product]: the terms of [a1] and [b1]. *)
Definition metric_change_block (m : ElasticMetric)
    (areas : list R) (surface_metrics ginv : list mat22)
    (one_forms_a one_forms_b : batched (list mat23))
    (inner_prod : batched R) : option (batched R) :=
  if decide (0 < b1 m ∨ 0 < a1 m) then
    dg1 ← delta_metric surface_metrics one_forms_a;
    dg2 ← delta_metric surface_metrics one_forms_b;
    let ginvdg1 := bmap (fun d => zip_with matmul_22_22 ginv d) dg1 in
    let ginvdg2 := bmap (fun d => zip_with matmul_22_22 ginv d) dg2 in
    inner_prod ← accumulate inner_prod (a1 m) (term_a1 areas ginvdg1 ginvdg2);
    accumulate inner_prod (b1 m) (term_b1 areas ginvdg1 ginvdg2)
  else Some inner_prod.

(** Lines 552-629 of [inner_product]: the terms of [c1], [d1], [a1] and
    [b1]. *)
Definition first_order_block (m : ElasticMetric)
    (point_a point_b : batched (list vec3)) (base_point : list vec3)
    (inner_prod : batched R) : option (batched R) :=
  if decide (0 < a1 m ∨ 0 < b1 m ∨ 0 < c1 m ∨ 0 < b1 m) then
    one_forms_base_point ← surface_one_forms (space m) base_point;
    let surface_metrics :=
      _surface_metric_matrices_from_one_forms one_forms_base_point in
    let areas := map (fun g => sqrt (det22 g)) surface_metrics in
    normals_at_base_point ← normals (space m) base_point;
    inner_prod ←
      (if decide (0 < c1 m)
       then accumulate inner_prod (c1 m)
              (term_c1 (space m) areas normals_at_base_point point_a point_b)
       else Some inner_prod);
    (if decide (0 < d1 m ∨ 0 < b1 m ∨ 0 < a1 m) then
       ginv ← mapM inv22 surface_metrics;
       one_forms_a ← bmapM (surface_one_forms (space m)) point_a;
       one_forms_b ← bmapM (surface_one_forms (space m)) point_b;
       inner_prod ←
         (if decide (0 < d1 m)
          then accumulate inner_prod (d1 m)
                 (term_d1 areas one_forms_base_point ginv
                    one_forms_a one_forms_b)
          else Some inner_prod);
       metric_change_block m areas surface_metrics ginv
         one_forms_a one_forms_b inner_prod
     else Some inner_prod)
  else Some inner_prod.

(** [ElasticMetric.inner_product], for tangent vectors with or without one
    batch axis and a base point of shape [[n_vertices, 3]]. *)
Definition inner_product (m : ElasticMetric)
    (tangent_vec_a tangent_vec_b : batched (list vec3))
    (base_point : list vec3) : option (batched R) :=
  let h := tangent_vec_a in
  let k := tangent_vec_b in
  point_a ← bmapM (padd base_point) h;
  point_b ← bmapM (padd base_point) k;
  let inner_prod := Single 0 in
  inner_prod ← mass_and_bending_block m h k base_point inner_prod;
  first_order_block m point_a point_b base_point inner_prod.

(** ** Auxiliary notions for the statements *)

(** The row of [point] at index [i] (the zero vector outside the array). *)
Definition row (point : list vec3) (i : nat) : vec3 := nth i point vzero.

(** A per-face quantity [g] evaluated at the three corners of the face [f]. *)
Definition per_face {A : Type} (g : vec3 → vec3 → vec3 → A)
    (point : list vec3) (f : face) : A :=
  g (row point (corner0 f)) (row point (corner1 f)) (row point (corner2 f)).

(** The body of [face_areas] at one face. *)
Definition face_area_at (v0 v1 v2 : vec3) : R :=
  sqrt (det22 (gram (one_form_at v0 v1 v2))).

(** Every vertex index of the triangulation is below [n]. *)
Definition faces_in_range (fs : list face) (n : nat) : Prop :=
  Forall (fun f => (corner0 f < n ∧ corner1 f < n ∧ corner2 f < n)%nat) fs.

(** The three cotangent weights of one face, with the divisions written as
    total divisions of [R]. *)
Definition cot_values (v0 v1 v2 : vec3) : list R :=
  let sq_len_edge_12 := norm (vsub v1 v2) * norm (vsub v1 v2) in
  let sq_len_edge_02 := norm (vsub v0 v2) * norm (vsub v0 v2) in
  let sq_len_edge_01 := norm (vsub v0 v1) * norm (vsub v0 v1) in
  let area := laplacian_area v0 v1 v2 in
  [(sq_len_edge_02 + sq_len_edge_01 - sq_len_edge_12) / area / 2;
   (sq_len_edge_12 + sq_len_edge_01 - sq_len_edge_02) / area / 2;
   (sq_len_edge_12 + sq_len_edge_02 - sq_len_edge_01) / area / 2].

(** Shape of a tangent vector (with or without batch axis) at a base point. *)
Definition same_shape (base_point : list vec3) (h : batched (list vec3))
  : Prop :=
  match h with
  | Single x => length x = length base_point
  | Batch xs => Forall (fun x => length x = length base_point) xs
  end.

#[global] Instance same_shape_dec (q : list vec3) (h : batched (list vec3)) :
  Decision (same_shape q h).
Proof. destruct h; simpl; apply _. Defined.

(** [c * h] for a scalar [c] and a tangent vector [h]. *)
Definition tscale (c : R) (h : batched (list vec3)) : batched (list vec3) :=
  bmap (map (vscale c)) h.

(** A symmetric [2 x 2] matrix. *)
Definition symmetric22 (g : mat22) : Prop := g.1.2 = g.2.1.

(** [point + t] for a vector [t] of shape [[3]]: the rigid translation of a
    surface. *)
Definition translate (t : vec3) (point : list vec3) : list vec3 :=
  map (fun v => vadd v t) point.

(** The total of the entries of [src] whose index in [index] is [v]: what a
    scatter-add of [src] along [index] adds at position [v]. *)
Definition contributions (index : list nat) (src : list R) (v : nat) : R :=
  Rsum (map snd (filter (fun p : nat * R => p.1 = v) (zip index src))).

(** A tangent vector without batch axis. *)
Definition unbatched {A : Type} (x : batched A) : Prop :=
  match x with
  | Single _ => True
  | Batch _ => False
  end.

(** [xi1_0] for one element of the batch (lines 574-583). *)
Definition xi_0_one (one_forms_base_point : list mat23) (ginv : list mat22)
    (one_forms_x : list mat23) : list mat32 :=
  let one_forms_base_point_t := map transpose23 one_forms_base_point in
  let xi := zip_with sub32 (map transpose23 one_forms_x)
              one_forms_base_point_t in
  zip_with matmul_32_22
    (zip_with matmul_32_22 one_forms_base_point_t ginv)
    (zip_with sub22
       (zip_with matmul_23_32 (map transpose32 xi) one_forms_base_point_t)
       (zip_with matmul_23_32 one_forms_base_point xi)).

(** The area-weighted traces of lines 596-603 for one element of the batch,
    summed over the faces. *)
Definition d1_one (areas : list R) (one_forms_base_point : list mat23)
    (ginv : list mat22) (one_forms_a one_forms_b : list mat23) : R :=
  Rsum
    (zip_with Rmult
       (map trace33
          (zip_with matmul_32_23
             (xi_0_one one_forms_base_point ginv one_forms_a)
             (zip_with matmul_22_23 ginv
                (map transpose32
                   (xi_0_one one_forms_base_point ginv one_forms_b)))))
       areas).

(** [c * w] for a [2 x 3] and for a [2 x 2] matrix. *)
Definition scale23 (c : R) (w : mat23) : mat23 :=
  (vscale c w.1, vscale c w.2).
Definition scale22 (c : R) (g : mat22) : mat22 :=
  ((c * g.1.1, c * g.1.2), (c * g.2.1, c * g.2.2)).

(** A result without batch axis, or with a batch axis of length [n]. *)
Definition scalar_or_batch {A : Type} (n : nat) (x : batched A) : Prop :=
  match x with
  | Single _ => True
  | Batch l => length l = n
  end.

(** The three cotangent weights of one face with the divisions by a given
    area [a] (lines 385-390, after [cot /= 2.0]). *)
Definition cot_over_area (a : R) (v0 v1 v2 : vec3) : list R :=
  let sq_len_edge_12 := norm (vsub v1 v2) * norm (vsub v1 v2) in
  let sq_len_edge_02 := norm (vsub v0 v2) * norm (vsub v0 v2) in
  let sq_len_edge_01 := norm (vsub v0 v1) * norm (vsub v0 v1) in
  [(sq_len_edge_02 + sq_len_edge_01 - sq_len_edge_12) / a / 2;
   (sq_len_edge_12 + sq_len_edge_01 - sq_len_edge_02) / a / 2;
   (sq_len_edge_12 + sq_len_edge_02 - sq_len_edge_01) / a / 2].

(** Modelled from the spec (section 4.2, vertex area): the triangle area of
    every face is added, once per corner, into the accumulator of the vertex
    of that corner, and the vertex area is 2/3 of the accumulator. *)
Definition at_corner (c v : nat) (a : R) : R :=
  if Nat.eqb c v then a else 0.

Definition incident_vertex_area (fs : list face) (point : list vec3)
    (v : nat) : R :=
  2 / 3
  * Rsum (map (fun f =>
                 let a := sqrt (per_face heron_radicand point f) in
                 at_corner (corner0 f) v a + at_corner (corner1 f) v a
                 + at_corner (corner2 f) v a) fs).

Definition incident_vertex_areas (space : DiscreteSurfaces)
    (point : list vec3) : list R :=
  map (incident_vertex_area (faces space) point) (seq 0 (length point)).

(** ** Example surfaces *)

(** A mesh of one face. *)
Definition one_triangle : DiscreteSurfaces :=
  mkDiscreteSurfaces [(0, 1, 2)%nat].

(** The right triangle with legs of length 1 (area 1/2). *)
Definition right_triangle : list vec3 :=
  [(0, 0, 0); (1, 0, 0); (0, 1, 0)].

(** A face whose three corners coincide (area 0). *)
Definition collapsed_triangle : list vec3 :=
  [(0, 0, 0); (0, 0, 0); (0, 0, 0)].

(** Two displacement fields of the right triangle, with the displaced
    surfaces, and the metric matrix of the right triangle. *)
Definition shear_field : list vec3 := [(0, 0, 0); (0, 1, 0); (0, 0, 0)].
Definition stretch_field : list vec3 := [(0, 0, 0); (1, 0, 0); (0, 0, 0)].
Definition sheared_triangle : list vec3 := [(0, 0, 0); (1, 1, 0); (0, 1, 0)].
Definition stretched_triangle : list vec3 := [(0, 0, 0); (2, 0, 0); (0, 1, 0)].
Definition identity22 : mat22 := ((1, 0), (0, 1)).

(** Two right triangles that share the vertex 2, with the areas 6 and 24,
    and the field that is [(1, 0, 0)] at the vertex 1 and zero elsewhere. *)
Definition two_triangles : DiscreteSurfaces :=
  mkDiscreteSurfaces [(0, 1, 2)%nat; (2, 3, 4)%nat].
Definition unequal_triangles : list vec3 :=
  [(0, 0, 0); (3, 0, 0); (0, 4, 0); (6, 4, 0); (0, 12, 0)].
Definition vertex_1_field : list vec3 :=
  [(0, 0, 0); (1, 0, 0); (0, 0, 0); (0, 0, 0); (0, 0, 0)].

(** A mesh whose vertex 2 belongs to no face, with a point of it. *)
Definition triangle_with_unused_vertex : DiscreteSurfaces :=
  mkDiscreteSurfaces [(0, 1, 3)%nat].
Definition four_points : list vec3 :=
  [(0, 0, 0); (1, 0, 0); (5, 5, 5); (0, 1, 0)].

(* ================================================================= *)
(** * Properties *)

(** ** Gathering the corners of the faces *)

Lemma take_rows_Some (q : list vec3) (idx : list nat) :
  Forall (fun i => (i < length q)%nat) idx →
  take_rows q idx = Some (map (row q) idx).
Proof.
  unfold take_rows. induction 1 as [|i idx Hi _ IH]; [done|].
  simpl. destruct (lookup_lt_is_Some_2 q i Hi) as [x Hx].
  rewrite Hx. simpl. rewrite IH. simpl. f_equal. f_equal.
  unfold row. symmetry. apply nth_lookup_Some with (d := vzero) in Hx. done.
Qed.

Lemma take_rows_inv (q : list vec3) (idx : list nat) (l : list vec3) :
  take_rows q idx = Some l →
  Forall (fun i => (i < length q)%nat) idx ∧ l = map (row q) idx.
Proof.
  unfold take_rows. revert l. induction idx as [|i idx IH]; intros l H.
  - injection H as <-. split; [apply Forall_nil_2|done].
  - simpl in H. destruct (q !! i) as [x|] eqn:Hx; [|done]. simpl in H.
    destruct (mapM _ idx) as [k|] eqn:Hk; [|done]. injection H as <-.
    destruct (IH k eq_refl) as [HF ->]. split.
    + constructor; [by eapply lookup_lt_Some|done].
    + simpl. f_equal. unfold row. symmetry. by apply nth_lookup_Some.
Qed.

Lemma amax_ge (fs : list face) (f : face) :
  f ∈ fs →
  (corner0 f <= amax fs ∧ corner1 f <= amax fs ∧ corner2 f <= amax fs)%nat.
Proof.
  unfold amax. induction 1 as [f fs|f g fs _ IH]; simpl; lia.
Qed.

Lemma belongs_in_range (sp : DiscreteSurfaces) (q : list vec3) :
  belongs sp q = true → faces_in_range (faces sp) (length q).
Proof.
  unfold belongs, n_vertices, faces_in_range. intros H%bool_decide_eq_true.
  rewrite H. apply Forall_forall. intros f Hf.
  pose proof (amax_ge _ _ Hf). lia.
Qed.

Lemma vertices_Some (sp : DiscreteSurfaces) (q : list vec3) :
  faces_in_range (faces sp) (length q) →
  _vertices sp q =
    Some (map (fun f => row q (corner0 f)) (faces sp),
          map (fun f => row q (corner1 f)) (faces sp),
          map (fun f => row q (corner2 f)) (faces sp)).
Proof.
  intros H. unfold _vertices, column.
  rewrite !take_rows_Some; simpl.
  - by rewrite !map_map.
  - apply Forall_map. eapply Forall_impl; [exact H|]. simpl. tauto.
  - apply Forall_map. eapply Forall_impl; [exact H|]. simpl. tauto.
  - apply Forall_map. eapply Forall_impl; [exact H|]. simpl. tauto.
Qed.

Lemma vertices_inv (sp : DiscreteSurfaces) (q : list vec3) r :
  _vertices sp q = Some r → faces_in_range (faces sp) (length q).
Proof.
  unfold _vertices, column. intros H.
  destruct (take_rows q (map corner0 _)) as [l0|] eqn:H0; [|done].
  destruct (take_rows q (map corner1 _)) as [l1|] eqn:H1; [|done].
  destruct (take_rows q (map corner2 _)) as [l2|] eqn:H2; [|done].
  apply take_rows_inv in H0 as [H0 _], H1 as [H1 _], H2 as [H2 _].
  rewrite Forall_map in H0, H1, H2.
  unfold faces_in_range. rewrite Forall_forall in *.
  intros f Hf. specialize (H0 f Hf). specialize (H1 f Hf). specialize (H2 f Hf).
  simpl in *. done.
Qed.

Lemma map3_map {A B C D E : Type} (f : B → C → D → E)
    (g0 : A → B) (g1 : A → C) (g2 : A → D) (l : list A) :
  map3 f (map g0 l) (map g1 l) (map g2 l) =
  map (fun x => f (g0 x) (g1 x) (g2 x)) l.
Proof. induction l as [|x l IH]; simpl; [done|by rewrite IH]. Qed.

(** ** Closed forms of the per-face quantities *)

Section ClosedForms.
Variable sp : DiscreteSurfaces.
Variable q : list vec3.
Hypothesis Hrange : faces_in_range (faces sp) (length q).

Lemma triangle_areas_Some :
  _triangle_areas sp q = Some (map (per_face triangle_area q) (faces sp)).
Proof.
  unfold _triangle_areas. rewrite vertices_Some by done. simpl.
  by rewrite map3_map.
Qed.

Lemma normals_Some :
  normals sp q = Some (map (per_face normal_at q) (faces sp)).
Proof.
  unfold normals. rewrite vertices_Some by done. simpl.
  by rewrite map3_map.
Qed.

Lemma surface_one_forms_Some :
  surface_one_forms sp q = Some (map (per_face one_form_at q) (faces sp)).
Proof.
  unfold surface_one_forms. rewrite vertices_Some by done. simpl.
  by rewrite map3_map.
Qed.

Lemma face_areas_Some :
  face_areas sp q = Some (map (per_face face_area_at q) (faces sp)).
Proof.
  unfold face_areas, surface_metric_matrices.
  rewrite surface_one_forms_Some. simpl.
  unfold _surface_metric_matrices_from_one_forms.
  by rewrite !map_map.
Qed.
End ClosedForms.

(** ** Heron's formula and the Gram determinant *)

Lemma half_inv : 0.5 = / 2.
Proof. lra. Qed.

Lemma dot_self_nonneg (u : vec3) : 0 <= dot u u.
Proof. destruct u as [[x y] z]; simpl. nra. Qed.

Lemma norm_sq (u : vec3) : norm u * norm u = dot u u.
Proof. unfold norm. apply sqrt_sqrt, dot_self_nonneg. Qed.

(** Lagrange's identity: the Gram determinant of the two edge vectors is the
    squared length of their cross product. *)
Lemma det_gram_cross (v0 v1 v2 : vec3) :
  det22 (gram (one_form_at v0 v1 v2)) =
  dot (cross (vsub v1 v0) (vsub v2 v0)) (cross (vsub v1 v0) (vsub v2 v0)).
Proof.
  destruct v0 as [[x0 y0] z0], v1 as [[x1 y1] z1], v2 as [[x2 y2] z2].
  simpl. ring.
Qed.

Lemma det_gram_nonneg (v0 v1 v2 : vec3) :
  0 <= det22 (gram (one_form_at v0 v1 v2)).
Proof. rewrite det_gram_cross. apply dot_self_nonneg. Qed.

(** The radicand of Heron's formula is a quarter of the Gram determinant. *)
Lemma heron_gram (v0 v1 v2 : vec3) :
  heron_radicand v0 v1 v2 = det22 (gram (one_form_at v0 v1 v2)) / 4.
Proof.
  unfold heron_radicand.
  pose proof (norm_sq (vsub v1 v2)) as Ha.
  pose proof (norm_sq (vsub v0 v2)) as Hb.
  pose proof (norm_sq (vsub v0 v1)) as Hc.
  set (a := norm (vsub v1 v2)) in *.
  set (b := norm (vsub v0 v2)) in *.
  set (c := norm (vsub v0 v1)) in *.
  cbv zeta. rewrite half_inv.
  transitivity
    ((2 * (a * a) * (b * b) + 2 * (a * a) * (c * c) + 2 * (b * b) * (c * c)
      - (a * a) * (a * a) - (b * b) * (b * b) - (c * c) * (c * c)) / 16);
    [field|].
  rewrite Ha, Hb, Hc.
  destruct v0 as [[x0 y0] z0], v1 as [[x1 y1] z1], v2 as [[x2 y2] z2].
  simpl. field.
Qed.

Lemma sqrt_quarter (d : R) : 0 <= d → sqrt (d / 4) = sqrt d / 2.
Proof.
  intros Hd. replace (d / 4) with (d * (/ 2 * / 2)) by field.
  rewrite sqrt_mult_alt by done.
  rewrite sqrt_square by lra. field.
Qed.

Lemma sqrt_area_floor : sqrt area_floor = / 1000.
Proof.
  unfold area_floor. replace (/ 1000000) with (/ 1000 * / 1000) by lra.
  apply sqrt_square. lra.
Qed.

Lemma sqrt_Rmax (x y : R) : sqrt (Rmax x y) = Rmax (sqrt x) (sqrt y).
Proof.
  destruct (Rle_dec x y) as [H|H].
  - rewrite Rmax_right by done. rewrite Rmax_right; [done|].
    by apply sqrt_le_1_alt.
  - rewrite Rmax_left by lra. rewrite Rmax_left; [done|].
    apply sqrt_le_1_alt. lra.
Qed.

(** The value of [_triangle_areas] at a face is half the value of
    [face_areas] there, unless the floor of the radicand takes over. *)
Lemma triangle_area_face_area (v0 v1 v2 : vec3) :
  triangle_area v0 v1 v2 = Rmax (face_area_at v0 v1 v2 / 2) (/ 1000).
Proof.
  unfold triangle_area, clip_min, face_area_at.
  rewrite sqrt_Rmax, sqrt_area_floor, heron_gram.
  rewrite sqrt_quarter by apply det_gram_nonneg. done.
Qed.

(** The length of the vector that [normals] returns at a face is half the
    value of [face_areas] there. *)
Lemma norm_normal_at (v0 v1 v2 : vec3) :
  norm (normal_at v0 v1 v2) = face_area_at v0 v1 v2 / 2.
Proof.
  unfold face_area_at. rewrite <- sqrt_quarter by apply det_gram_nonneg.
  unfold norm. f_equal. rewrite det_gram_cross. unfold normal_at.
  rewrite half_inv.
  destruct (cross (vsub v1 v0) (vsub v2 v0)) as [[x y] z]. simpl. field.
Qed.

(** ** The two area formulas and the normals (C3, C7) *)

Lemma one_triangle_in_range (q : list vec3) :
  length q = 3%nat → faces_in_range (faces one_triangle) (length q).
Proof. intros ->. repeat constructor. Qed.

Lemma face_area_right_triangle :
  face_area_at (0, 0, 0) (1, 0, 0) (0, 1, 0) = 1.
Proof.
  unfold face_area_at.
  replace (det22 _) with 1 by (simpl; ring). apply sqrt_1.
Qed.

Lemma triangle_area_right_triangle :
  triangle_area (0, 0, 0) (1, 0, 0) (0, 1, 0) = / 2.
Proof.
  rewrite triangle_area_face_area, face_area_right_triangle.
  rewrite Rmax_left; lra.
Qed.

Lemma face_areas_right_triangle :
  face_areas one_triangle right_triangle = Some [1].
Proof.
  rewrite face_areas_Some by (by apply one_triangle_in_range).
  simpl. unfold per_face, row. simpl.
  by rewrite face_area_right_triangle.
Qed.

Lemma triangle_areas_right_triangle :
  _triangle_areas one_triangle right_triangle = Some [/ 2].
Proof.
  rewrite triangle_areas_Some by (by apply one_triangle_in_range).
  simpl. unfold per_face, row. simpl.
  by rewrite triangle_area_right_triangle.
Qed.

(** C3, as stated, fails: on the right triangle with legs 1, [face_areas]
    returns 1 (the area of the parallelogram spanned by the two edge vectors)
    and [_triangle_areas] returns 1/2. *)
Lemma face_areas_neq_triangle_areas :
  face_areas one_triangle right_triangle = Some [1]
  ∧ _triangle_areas one_triangle right_triangle = Some [/ 2]
  ∧ face_areas one_triangle right_triangle
    ≠ _triangle_areas one_triangle right_triangle.
Proof.
  rewrite face_areas_right_triangle, triangle_areas_right_triangle.
  repeat split. intros H. injection H as H. lra.
Qed.

(** C3, amended: for every point of the manifold and every face, the value of
    [_triangle_areas] is the larger of half the value of [face_areas] and
    [1e-3] (the square root of the floor of the radicand); so
    [sqrt(det(metric_matrix))] is twice the Heron area at every face whose
    Heron area is above the floor. *)
Theorem face_areas_twice_triangle_areas (sp : DiscreteSurfaces)
    (q : list vec3) :
  belongs sp q = true →
  ∃ fa ta : list R,
    face_areas sp q = Some fa
    ∧ _triangle_areas sp q = Some ta
    ∧ Forall2 (fun a t => t = Rmax (a / 2) (/ 1000)
                        ∧ (/ 1000 <= a / 2 → a = 2 * t)) fa ta.
Proof.
  intros Hq%belongs_in_range.
  eexists _, _. split; [by apply face_areas_Some|].
  split; [by apply triangle_areas_Some|].
  apply Forall2_fmap, Forall_Forall2_diag, Forall_forall.
  intros f _. unfold per_face. rewrite triangle_area_face_area.
  split; [done|]. intros H. rewrite Rmax_left by done. lra.
Qed.

Lemma face_areas_twice_triangle_areas_witness :
  belongs one_triangle right_triangle = true
  ∧ ∃ fa ta : list R,
      face_areas one_triangle right_triangle = Some fa
      ∧ _triangle_areas one_triangle right_triangle = Some ta
      ∧ Forall2 (fun a t => t = Rmax (a / 2) (/ 1000)
                          ∧ (/ 1000 <= a / 2 → a = 2 * t)) fa ta.
Proof.
  split; [reflexivity|].
  apply (face_areas_twice_triangle_areas one_triangle right_triangle).
  reflexivity.
Defined.

Lemma normals_right_triangle :
  normals one_triangle right_triangle = Some [(0, 0, / 2)].
Proof.
  rewrite normals_Some by (by apply one_triangle_in_range).
  simpl. unfold per_face, row, normal_at. simpl. rewrite half_inv.
  do 3 f_equal; [f_equal|]; field.
Qed.

(** C7, as stated, fails: on the right triangle with legs 1 the vector that
    [normals] returns has length 1/2, which is the area of the face as
    [_triangle_areas] computes it (and half the value of [face_areas]), not
    twice an area of the face. *)
Lemma normal_length_not_twice_area :
  normals one_triangle right_triangle = Some [(0, 0, / 2)]
  ∧ norm (0, 0, / 2) = / 2
  ∧ _triangle_areas one_triangle right_triangle = Some [/ 2]
  ∧ face_areas one_triangle right_triangle = Some [1]
  ∧ norm (0, 0, / 2) ≠ 2 * / 2
  ∧ norm (0, 0, / 2) ≠ 2 * 1.
Proof.
  assert (Hn : norm (0, 0, / 2) = / 2).
  { unfold norm. replace (dot _ _) with (/ 2 * / 2) by (simpl; ring).
    apply sqrt_square. lra. }
  rewrite normals_right_triangle, triangle_areas_right_triangle,
    face_areas_right_triangle, Hn.
  repeat split; lra.
Qed.

(** C7, amended: for every point of the manifold and every face, [normals]
    returns half the cross product of the edge vectors [vertex_1 - vertex_0]
    and [vertex_2 - vertex_0]; the length of this vector is half the value of
    [face_areas] at the face, and the value of [_triangle_areas] at the face
    is the larger of this length and [1e-3]: the length of the normal is the
    area of the face, not twice the area. *)
Theorem normals_half_cross (sp : DiscreteSurfaces) (q : list vec3) :
  belongs sp q = true →
  ∃ (ns : list vec3) (fa ta : list R),
    normals sp q = Some ns
    ∧ face_areas sp q = Some fa
    ∧ _triangle_areas sp q = Some ta
    ∧ ns = map (per_face (fun vertex_0 vertex_1 vertex_2 =>
                   vscale 0.5 (cross (vsub vertex_1 vertex_0)
                                     (vsub vertex_2 vertex_0))) q) (faces sp)
    ∧ Forall2 (fun n a => norm n = a / 2) ns fa
    ∧ Forall2 (fun n t => t = Rmax (norm n) (/ 1000)) ns ta.
Proof.
  intros Hq%belongs_in_range.
  eexists _, _, _. split; [by apply normals_Some|].
  split; [by apply face_areas_Some|].
  split; [by apply triangle_areas_Some|].
  split; [done|].
  split; apply Forall2_fmap, Forall_Forall2_diag, Forall_forall;
    intros f _; unfold per_face.
  - apply norm_normal_at.
  - by rewrite triangle_area_face_area, norm_normal_at.
Qed.

Lemma normals_half_cross_witness :
  belongs one_triangle right_triangle = true
  ∧ ∃ (ns : list vec3) (fa ta : list R),
      normals one_triangle right_triangle = Some ns
      ∧ face_areas one_triangle right_triangle = Some fa
      ∧ _triangle_areas one_triangle right_triangle = Some ta
      ∧ ns = map (per_face (fun vertex_0 vertex_1 vertex_2 =>
                     vscale 0.5 (cross (vsub vertex_1 vertex_0)
                                       (vsub vertex_2 vertex_0)))
                   right_triangle) (faces one_triangle)
      ∧ Forall2 (fun n a => norm n = a / 2) ns fa
      ∧ Forall2 (fun n t => t = Rmax (norm n) (/ 1000)) ns ta.
Proof.
  split; [reflexivity|].
  apply (normals_half_cross one_triangle right_triangle).
  reflexivity.
Defined.

(** ** Scatter-accumulation *)

Lemma Rsum_app (l1 l2 : list R) : Rsum (l1 ++ l2) = Rsum l1 + Rsum l2.
Proof.
  induction l1 as [|x l1 IH]; simpl; [lra|]. rewrite IH. lra.
Qed.

Lemma Rsum_replicate_0 (n : nat) : Rsum (replicate n 0) = 0.
Proof. induction n as [|n IH]; simpl; [done|]. rewrite IH. lra. Qed.

Lemma Rsum_insert (l : list R) (i : nat) (x y : R) :
  l !! i = Some x → Rsum (<[i := y]> l) = Rsum l - x + y.
Proof.
  revert i. induction l as [|z l IH]; intros [|i] H; simpl in *; try done.
  - injection H as ->. lra.
  - rewrite (IH i H). lra.
Qed.

Lemma Rsum_scale (c : R) (l : list R) :
  Rsum (map (fun x => 2 * x / c) l) = 2 * Rsum l / c.
Proof.
  induction l as [|x l IH]; simpl; [lra|]. rewrite IH. lra.
Qed.

(** When every index is inside the input, [scatter_add] returns an array of
    the same length, and the total of the array grows by the total of the
    contributions. *)
Lemma scatter_add_total (index : list nat) (src input : list R) :
  Forall (fun i => (i < length input)%nat) index →
  length index = length src →
  ∃ out : list R,
    scatter_add input index src = Some out
    ∧ length out = length input
    ∧ Rsum out = Rsum input + Rsum src.
Proof.
  revert src input. induction index as [|i index IH]; intros src input Hi Hlen.
  - destruct src; [|done]. exists input. simpl. repeat split; lra.
  - destruct src as [|v src]; [done|]. simpl.
    apply Forall_cons in Hi as [Hi Hrest].
    destruct (lookup_lt_is_Some_2 input i Hi) as [x Hx]. rewrite Hx. simpl.
    destruct (IH src (<[i := x + v]> input)) as (out & Hout & Hl & Hs).
    + by rewrite length_insert.
    + simpl in Hlen. lia.
    + exists out. split; [done|]. rewrite length_insert in Hl.
      split; [done|]. rewrite Hs, (Rsum_insert _ _ x) by done. lra.
Qed.

Lemma flatten_faces_length (fs : list face) :
  length (flatten_faces fs) = (3 * length fs)%nat.
Proof. induction fs as [|f fs IH]; simpl; [done|]. rewrite IH. lia. Qed.

Lemma flatten_faces_in_range (fs : list face) (n : nat) :
  faces_in_range fs n → Forall (fun i => (i < n)%nat) (flatten_faces fs).
Proof.
  induction 1 as [|f fs (H0 & H1 & H2) _ IH]; simpl; [constructor|].
  by repeat constructor.
Qed.

(** ** Conservation of the vertex areas (C4) *)

Lemma vertex_areas_total (sp : DiscreteSurfaces) (q : list vec3) :
  faces_in_range (faces sp) (length q) →
  ∃ va : list R,
    vertex_areas sp q = Some va
    ∧ length va = length q
    ∧ Rsum va = 2 * Rsum (map (per_face triangle_area q) (faces sp)).
Proof.
  intros Hq. unfold vertex_areas. rewrite triangle_areas_Some by done. simpl.
  set (area := map (per_face triangle_area q) (faces sp)).
  destruct (scatter_add_total (flatten_faces (faces sp))
              (area ++ area ++ area) (replicate (length q) 0))
    as (out & Hout & Hl & Hs).
  - rewrite length_replicate. by apply flatten_faces_in_range.
  - rewrite flatten_faces_length, !length_app. unfold area.
    rewrite length_map. lia.
  - rewrite Hout. simpl. eexists. split; [done|].
    rewrite length_map, Hl, length_replicate. split; [done|].
    rewrite Rsum_scale, Hs, Rsum_replicate_0, !Rsum_app. lra.
Qed.

Lemma vertex_areas_right_triangle :
  vertex_areas one_triangle right_triangle = Some [/ 3; / 3; / 3].
Proof.
  unfold vertex_areas. rewrite triangle_areas_right_triangle. simpl.
  do 2 f_equal; [|f_equal; [|f_equal]]; lra.
Qed.

(** C4, as stated, fails: on the right triangle with legs 1 the vertex areas
    are 1/3 each and sum to 1, while [face_areas] returns 1, so twice the sum
    of the face areas is 2. *)
Lemma vertex_areas_total_not_twice_face_areas :
  vertex_areas one_triangle right_triangle = Some [/ 3; / 3; / 3]
  ∧ face_areas one_triangle right_triangle = Some [1]
  ∧ Rsum [/ 3; / 3; / 3] ≠ 2 * Rsum [1].
Proof.
  split; [apply vertex_areas_right_triangle|].
  split; [apply face_areas_right_triangle|].
  simpl. lra.
Qed.

(** C4, amended: for every point of the manifold, the sum over all vertices
    of [vertex_areas] is twice the sum over all faces of the Heron areas of
    [_triangle_areas] (the areas that [vertex_areas] accumulates); measured
    with [face_areas], whose values are twice the Heron areas, the sum of the
    vertex areas is equal to (one time) the sum of the face areas when no
    Heron area is below the floor [1e-3]. *)
Theorem vertex_areas_conservation (sp : DiscreteSurfaces) (q : list vec3) :
  belongs sp q = true →
  ∃ va ta fa : list R,
    vertex_areas sp q = Some va
    ∧ _triangle_areas sp q = Some ta
    ∧ face_areas sp q = Some fa
    ∧ Rsum va = 2 * Rsum ta
    ∧ (Forall (fun a => / 1000 <= a / 2) fa → Rsum va = Rsum fa).
Proof.
  intros Hq%belongs_in_range.
  destruct (vertex_areas_total sp q Hq) as (va & Hva & _ & Hs).
  exists va. eexists _, _. split; [done|].
  split; [by apply triangle_areas_Some|].
  split; [by apply face_areas_Some|].
  split; [done|]. rewrite Hs. clear.
  induction (faces sp) as [|f fs IH]; simpl; [intros; lra|].
  intros [Hf Hfs]%Forall_cons. specialize (IH Hfs).
  unfold per_face in *. rewrite triangle_area_face_area.
  rewrite Rmax_left by done. lra.
Qed.

Lemma vertex_areas_conservation_witness :
  belongs one_triangle right_triangle = true
  ∧ ∃ va ta fa : list R,
      vertex_areas one_triangle right_triangle = Some va
      ∧ _triangle_areas one_triangle right_triangle = Some ta
      ∧ face_areas one_triangle right_triangle = Some fa
      ∧ Rsum va = 2 * Rsum ta
      ∧ (Forall (fun a => / 1000 <= a / 2) fa → Rsum va = Rsum fa).
Proof.
  split; [reflexivity|].
  apply (vertex_areas_conservation one_triangle right_triangle).
  reflexivity.
Defined.

(** ** The cotangent weights of the Laplacian (C2) *)

(** The area that the weights are divided by carries the floor of
    [_triangle_areas]: it is never below [1e-3]. *)
Lemma laplacian_area_floor (v0 v1 v2 : vec3) :
  / 1000 <= laplacian_area v0 v1 v2.
Proof.
  unfold laplacian_area, clip_min. rewrite sqrt_Rmax, sqrt_area_floor.
  apply Rmax_r.
Qed.

Lemma fdiv_Some (x y : R) : y ≠ 0 → fdiv x y = Some (x / y).
Proof. intros H. unfold fdiv. by rewrite decide_False. Qed.

Lemma cot_at_Some (v0 v1 v2 : vec3) :
  cot_at v0 v1 v2 = Some (cot_values v0 v1 v2).
Proof.
  pose proof (laplacian_area_floor v0 v1 v2) as H.
  unfold cot_at, cot_values. cbv zeta.
  rewrite !fdiv_Some by lra. done.
Qed.

Lemma mapM_map_Some {A B : Type} (g : A → option B) (f : A → B)
    (l : list A) :
  (∀ x, g x = Some (f x)) →
  mapM (fun c : option B => c) (map g l) = Some (map f l).
Proof.
  intros H. induction l as [|x l IH]; simpl; [done|].
  rewrite H. simpl. by rewrite IH.
Qed.

Lemma laplacian_Some (sp : DiscreteSurfaces) (q : list vec3) :
  faces_in_range (faces sp) (length q) →
  laplacian sp q =
    Some (mkLaplacianOp (length q)
            (concat (map (per_face cot_values q) (faces sp)))
            (id_vertices_120 (faces sp)) (id_vertices_201 (faces sp))).
Proof.
  intros Hq. unfold laplacian. rewrite vertices_Some by done. simpl.
  rewrite map3_map.
  rewrite (mapM_map_Some _ (per_face cot_values q)); [done|].
  intros f. apply cot_at_Some.
Qed.

Lemma norm_vzero : norm (vsub (0, 0, 0) (0, 0, 0)) = 0.
Proof.
  unfold norm. replace (dot _ _) with 0 by (simpl; ring). apply sqrt_0.
Qed.

Lemma laplacian_area_collapsed :
  laplacian_area (0, 0, 0) (0, 0, 0) (0, 0, 0) = / 1000.
Proof.
  unfold laplacian_area, clip_min, heron_radicand. cbv zeta.
  rewrite norm_vzero. rewrite Rmax_right; [apply sqrt_area_floor|].
  unfold area_floor. lra.
Qed.

(** C2, as stated, fails: on a face whose three corners coincide the area
    that [laplacian] divides by is [1e-3], not 0, and the three cotangent
    weights are 0: the operator is returned, with finite weights. *)
Lemma laplacian_collapsed_triangle_finite :
  laplacian_area (0, 0, 0) (0, 0, 0) (0, 0, 0) = / 1000
  ∧ cot_at (0, 0, 0) (0, 0, 0) (0, 0, 0) = Some [0; 0; 0]
  ∧ laplacian one_triangle collapsed_triangle =
      Some (mkLaplacianOp 3 [0; 0; 0] [1; 2; 0]%nat [2; 0; 1]%nat).
Proof.
  assert (Hc : cot_values (0, 0, 0) (0, 0, 0) (0, 0, 0) = [0; 0; 0]).
  { unfold cot_values. cbv zeta.
    rewrite laplacian_area_collapsed, norm_vzero.
    f_equal; [|f_equal; [|f_equal]]; field. }
  split; [apply laplacian_area_collapsed|].
  split; [by rewrite cot_at_Some, Hc|].
  rewrite laplacian_Some by (by apply one_triangle_in_range).
  change (concat (map (per_face cot_values collapsed_triangle)
                    (faces one_triangle)))
    with (cot_values (0, 0, 0) (0, 0, 0) (0, 0, 0) ++ []).
  by rewrite Hc.
Qed.

Lemma cot_values_over_triangle_areas (q : list vec3) (fs : list face) :
  concat (map (per_face cot_values q) fs)
  = concat (zip_with (fun f a => per_face (cot_over_area a) q f) fs
              (map (per_face triangle_area q) fs)).
Proof.
  induction fs as [|f fs IH]; [done|]. cbn [map zip_with concat].
  by rewrite IH.
Qed.

Lemma triangle_area_zero_face (v0 v1 v2 : vec3) :
  face_area_at v0 v1 v2 = 0 → triangle_area v0 v1 v2 = / 1000.
Proof.
  intros H. rewrite triangle_area_face_area, H.
  rewrite Rmax_right; lra.
Qed.

(** C2, amended: at every point of the manifold [laplacian] returns its
    operator, and the area that the cotangent weights of a face are divided
    by is the area that [_triangle_areas] returns for that face, the square
    root of the Heron radicand floored at [1e-6]: it is at least [1e-3] at
    every face, and it is [1e-3], not 0, at a face of zero area; the three
    weights of a face are the three combinations of squared edge lengths
    divided by that area and by 2. *)
Theorem laplacian_divides_by_floored_area (sp : DiscreteSurfaces)
    (q : list vec3) :
  belongs sp q = true →
  ∃ (op : laplacian_op) (ta : list R),
    laplacian sp q = Some op
    ∧ _triangle_areas sp q = Some ta
    ∧ ta = map (fun f => sqrt (Rmax (per_face heron_radicand q f)
                                 (/ 1000000))) (faces sp)
    ∧ Forall (fun a => / 1000 <= a) ta
    ∧ (∀ (i : nat) (f : face),
         faces sp !! i = Some f → per_face face_area_at q f = 0 →
         ta !! i = Some (/ 1000))
    ∧ lap_n_vertices op = length q
    ∧ lap_cot op
      = concat (zip_with (fun f a => per_face (cot_over_area a) q f)
                  (faces sp) ta)
    ∧ length (lap_cot op) = (3 * n_faces sp)%nat.
Proof.
  intros Hq%belongs_in_range.
  eexists. exists (map (per_face triangle_area q) (faces sp)).
  split; [by apply laplacian_Some|].
  split; [by apply triangle_areas_Some|].
  split; [done|].
  split.
  { apply Forall_map, Forall_forall. intros f _.
    apply laplacian_area_floor. }
  split.
  { intros i f Hf Hz. rewrite list_lookup_fmap, Hf. cbn. f_equal.
    by apply triangle_area_zero_face. }
  cbn [lap_n_vertices lap_cot]. split; [done|].
  split; [apply cot_values_over_triangle_areas|].
  unfold n_faces. clear Hq.
  induction (faces sp) as [|f fs IH]; [done|].
  cbn [map concat length]. rewrite length_app, IH.
  unfold per_face, cot_values. simpl. lia.
Qed.

Lemma laplacian_divides_by_floored_area_witness :
  ∃ (op : laplacian_op) (ta : list R),
    laplacian one_triangle collapsed_triangle = Some op
    ∧ _triangle_areas one_triangle collapsed_triangle = Some ta
    ∧ ta = map (fun f => sqrt (Rmax (per_face heron_radicand
                                       collapsed_triangle f)
                                 (/ 1000000))) (faces one_triangle)
    ∧ Forall (fun a => / 1000 <= a) ta
    ∧ (∀ (i : nat) (f : face),
         faces one_triangle !! i = Some f →
         per_face face_area_at collapsed_triangle f = 0 →
         ta !! i = Some (/ 1000))
    ∧ lap_n_vertices op = length collapsed_triangle
    ∧ lap_cot op
      = concat (zip_with
                  (fun f a => per_face (cot_over_area a) collapsed_triangle f)
                  (faces one_triangle) ta)
    ∧ length (lap_cot op) = (3 * n_faces one_triangle)%nat.
Proof.
  apply (laplacian_divides_by_floored_area one_triangle collapsed_triangle).
  reflexivity.
Defined.

(** ** The Laplacian of a constant field (C9) *)

Lemma take_rows_replicate (n : nat) (c : vec3) (idx : list nat) :
  Forall (fun i => (i < n)%nat) idx →
  take_rows (replicate n c) idx = Some (replicate (length idx) c).
Proof.
  unfold take_rows. induction 1 as [|i idx Hi _ IH]; [done|].
  simpl. rewrite lookup_replicate_2 by done. simpl. by rewrite IH.
Qed.

Lemma vsub_diag (c : vec3) : vsub c c = vzero.
Proof.
  destruct c as [[x y] z]. unfold vsub, vzero.
  f_equal; [f_equal|]; ring.
Qed.

Lemma vscale_vzero (w : R) : vscale w vzero = vzero.
Proof. unfold vscale, vzero. f_equal; [f_equal|]; ring. Qed.

Lemma constant_field_values (cot : list R) (m : nat) (c : vec3) (i_dim : nat) :
  Forall (fun v => v = 0)
    (map (coord i_dim)
       (zip_with vscale cot
          (zip_with vsub (replicate m c) (replicate m c)))).
Proof.
  revert cot. induction m as [|m IH]; intros [|w cot]; simpl;
    try apply Forall_nil_2.
  apply Forall_cons. split; [|apply IH].
  rewrite vsub_diag, vscale_vzero. by destruct i_dim as [|[|?]].
Qed.

Lemma scatter_add_zero_src (n : nat) (index : list nat) (src : list R) :
  Forall (fun i => (i < n)%nat) index →
  Forall (fun v => v = 0) src →
  scatter_add (replicate n 0) index src = Some (replicate n 0).
Proof.
  intros Hi. revert src. induction Hi as [|i index Hi _ IH]; intros src Hsrc.
  - by destruct src.
  - destruct Hsrc as [|v src -> Hsrc]; [done|]. simpl.
    rewrite lookup_replicate_2 by done. simpl.
    rewrite Rplus_0_r, list_insert_id by (by apply lookup_replicate_2).
    by apply IH.
Qed.

Lemma map3_replicate_zero (n : nat) :
  map3 (fun x y z : R => (x, y, z))
    (replicate n 0) (replicate n 0) (replicate n 0)
  = replicate n vzero.
Proof. induction n as [|n IH]; simpl; [done|]. by rewrite IH. Qed.

Lemma id_vertices_120_in_range (fs : list face) (n : nat) :
  faces_in_range fs n → Forall (fun i => (i < n)%nat) (id_vertices_120 fs).
Proof.
  induction 1 as [|f fs (H0 & H1 & H2) _ IH]; simpl; [constructor|].
  by repeat constructor.
Qed.

Lemma id_vertices_201_in_range (fs : list face) (n : nat) :
  faces_in_range fs n → Forall (fun i => (i < n)%nat) (id_vertices_201 fs).
Proof.
  induction 1 as [|f fs (H0 & H1 & H2) _ IH]; simpl; [constructor|].
  by repeat constructor.
Qed.

Lemma id_vertices_length (fs : list face) :
  length (id_vertices_120 fs) = length (id_vertices_201 fs).
Proof. induction fs as [|f fs IH]; simpl; [done|]. by rewrite IH. Qed.

(** The operator of any base point, on the field with the same vector [c] at
    every vertex. *)
Lemma laplacian_field_constant (n : nat) (cot : list R) (fs : list face)
    (c : vec3) :
  faces_in_range fs n →
  _laplacian_field
    (mkLaplacianOp n cot (id_vertices_120 fs) (id_vertices_201 fs))
    (replicate n c)
  = Some (replicate n vzero).
Proof.
  intros Hfs. unfold _laplacian_field. simpl.
  rewrite !take_rows_replicate
    by (by apply id_vertices_120_in_range || by apply id_vertices_201_in_range).
  simpl. rewrite id_vertices_length.
  rewrite !scatter_add_zero_src;
    try apply constant_field_values; try by apply id_vertices_201_in_range.
  simpl. by rewrite map3_replicate_zero.
Qed.

(** C9: for every base point of the manifold and every constant tangent
    field, the operator returned by [laplacian] maps the field to the field
    that is exactly zero at every vertex; the same holds for every field of a
    batch of constant fields. *)
Theorem laplacian_of_constant_field_is_zero (sp : DiscreteSurfaces)
    (q : list vec3) :
  belongs sp q = true →
  ∃ op : laplacian_op,
    laplacian sp q = Some op
    ∧ (∀ c : vec3,
         _laplacian op (Single (replicate (length q) c))
         = Some (Single (replicate (length q) vzero)))
    ∧ (∀ cs : list vec3,
         _laplacian op (Batch (map (replicate (length q)) cs))
         = Some (Batch (map (fun _ => replicate (length q) vzero) cs))).
Proof.
  intros Hq%belongs_in_range.
  eexists. split; [by apply laplacian_Some|]. split.
  - intros c. simpl. by rewrite laplacian_field_constant.
  - intros cs. simpl.
    assert (mapM (_laplacian_field
                    (mkLaplacianOp (length q)
                       (concat (map (per_face cot_values q) (faces sp)))
                       (id_vertices_120 (faces sp))
                       (id_vertices_201 (faces sp))))
              (map (replicate (length q)) cs)
            = Some (map (fun _ => replicate (length q) vzero) cs)) as ->; [|done].
    induction cs as [|c cs IH]; simpl; [done|].
    rewrite laplacian_field_constant by done. simpl. by rewrite IH.
Qed.

Lemma laplacian_of_constant_field_is_zero_witness :
  belongs one_triangle right_triangle = true
  ∧ ∃ op : laplacian_op,
      laplacian one_triangle right_triangle = Some op
      ∧ (∀ c : vec3,
           _laplacian op (Single (replicate (length right_triangle) c))
           = Some (Single (replicate (length right_triangle) vzero)))
      ∧ (∀ cs : list vec3,
           _laplacian op (Batch (map (replicate (length right_triangle)) cs))
           = Some (Batch (map (fun _ => replicate (length right_triangle) vzero)
                            cs))).
Proof.
  split; [reflexivity|].
  apply (laplacian_of_constant_field_is_zero one_triangle right_triangle).
  reflexivity.
Defined.

(** ** Results with an optional batch axis *)

Lemma mapM_Some_map {A B : Type} (f : A → B) (l : list A) :
  mapM (fun x => Some (f x)) l = Some (map f l).
Proof. induction l as [|x l IH]; simpl; [done|]. by rewrite IH. Qed.

Lemma map_ext_id (l : list R) : map (fun v => 0 + v) l = l.
Proof. induction l as [|x l IH]; simpl; [done|]. rewrite IH. f_equal. lra. Qed.

Lemma radd_zero_l (t : batched R) : radd (Single 0) t = Some t.
Proof.
  destruct t as [s|l]; unfold radd; simpl.
  - f_equal. f_equal. lra.
  - rewrite mapM_Some_map. simpl. by rewrite map_ext_id.
Qed.

Lemma accumulate_zero (w : R) (term : option (batched R)) :
  accumulate (Single 0) w term = rscale w <$> term.
Proof.
  unfold accumulate. destruct term as [t|]; simpl; [|done].
  apply radd_zero_l.
Qed.

Lemma padd_Some (q h : list vec3) :
  length h = length q → padd q h = Some (zip_with vadd q h).
Proof. intros H. unfold padd. by rewrite decide_True. Qed.

Lemma bmapM_padd_Some (q : list vec3) (h : batched (list vec3)) :
  same_shape q h → bmapM (padd q) h = Some (bmap (zip_with vadd q) h).
Proof.
  destruct h as [x|xs]; simpl; intros H.
  - by rewrite padd_Some.
  - assert (mapM (padd q) xs = Some (map (zip_with vadd q) xs)) as ->; [|done].
    induction H as [|x xs Hx _ IH]; simpl; [done|].
    rewrite padd_Some by done. simpl. by rewrite IH.
Qed.

Lemma first_order_block_closed (m : ElasticMetric) pa pb q ip :
  a1 m <= 0 → b1 m <= 0 → c1 m <= 0 →
  first_order_block m pa pb q ip = Some ip.
Proof.
  intros H1 H2 H3. unfold first_order_block.
  rewrite decide_False; [done|]. intros [|[|[|]]]; lra.
Qed.

Lemma mass_and_bending_block_closed (m : ElasticMetric) h k q ip :
  a0 m <= 0 → a2 m <= 0 →
  mass_and_bending_block m h k q ip = Some ip.
Proof.
  intros H1 H2. unfold mass_and_bending_block.
  rewrite decide_False; [done|]. intros [|]; lra.
Qed.

Lemma inner_product_d1_only sp (w0 w1 wb wc wd w2 : R) h k q :
  w0 <= 0 → w1 <= 0 → wb <= 0 → wc <= 0 → w2 <= 0 →
  same_shape q h → same_shape q k →
  inner_product (mkElasticMetric sp w0 w1 wb wc wd w2) h k q = Some (Single 0).
Proof.
  intros. unfold inner_product.
  rewrite !bmapM_padd_Some by done. simpl.
  rewrite mass_and_bending_block_closed by done. simpl.
  by rewrite first_order_block_closed.
Qed.

Lemma zip_same_Some {A B C : Type} (f : A → B → C)
    (l1 : list A) (l2 : list B) :
  length l1 = length l2 →
  zip_same (fun x y => Some (f x y)) l1 l2 = Some (zip_with f l1 l2).
Proof.
  intros H. unfold zip_same. rewrite decide_True by done.
  rewrite (mapM_Some_map (fun p => f p.1 p.2)). f_equal.
  clear H. revert l2.
  induction l1 as [|x l1 IH]; intros [|y l2]; simpl; try done.
  by rewrite IH.
Qed.

Lemma Rsum_unit_field (va : list R) (n : nat) :
  length va = n →
  Rsum (zip_with Rmult va
          (zip_with dot (replicate n (1, 0, 0)) (replicate n (1, 0, 0))))
  = Rsum va.
Proof.
  intros <-. induction va as [|x va IH]; simpl; [done|].
  rewrite IH. lra.
Qed.

Lemma inner_product_zeroth_order (m : ElasticMetric)
    (h k : batched (list vec3)) (q : list vec3) :
  a1 m <= 0 → b1 m <= 0 → c1 m <= 0 →
  same_shape q h → same_shape q k →
  inner_product m h k q = mass_and_bending_block m h k q (Single 0).
Proof.
  intros. unfold inner_product.
  rewrite !bmapM_padd_Some by done. cbn [mbind option_bind].
  destruct (mass_and_bending_block m h k q (Single 0)); [|done].
  by apply first_order_block_closed.
Qed.

Lemma map_zip_with {A B C D : Type} (f : C → D) (g : A → B → C)
    (l : list A) (k : list B) :
  map f (zip_with g l k) = zip_with (fun x y => f (g x y)) l k.
Proof.
  revert k. induction l as [|x l IH]; intros [|y k]; simpl; try done.
  by rewrite IH.
Qed.

(** The term of [a0] in terms of the array that [vertex_areas] returns: with
    [a0 > 0] and the five other weights 0, the inner product of two tangent
    fields at a point of the manifold is [a0] times the sum over the
    vertices of the entry of [vertex_areas] times the dot product of the two
    fields at the vertex (for two batches of fields: pair by pair); with
    [a0 = 1] and the constant field [(1, 0, 0)] it is the sum of the entries
    of [vertex_areas]. *)
Theorem inner_product_mass_term (sp : DiscreteSurfaces) (w0 : R)
    (q : list vec3) :
  0 < w0 → belongs sp q = true →
  ∃ va : list R,
    vertex_areas sp q = Some va
    ∧ length va = length q
    ∧ (∀ h k : list vec3,
         length h = length q → length k = length q →
         inner_product (mkElasticMetric sp w0 0 0 0 0 0)
           (Single h) (Single k) q
         = Some (Single (w0 * Rsum (zip_with Rmult va (zip_with dot h k)))))
    ∧ (∀ hs ks : list (list vec3),
         same_shape q (Batch hs) → same_shape q (Batch ks) →
         length hs = length ks →
         inner_product (mkElasticMetric sp w0 0 0 0 0 0)
           (Batch hs) (Batch ks) q
         = Some (Batch (zip_with
                   (fun h k =>
                      w0 * Rsum (zip_with Rmult va (zip_with dot h k)))
                   hs ks)))
    ∧ inner_product (mkElasticMetric sp 1 0 0 0 0 0)
        (Single (replicate (length q) (1, 0, 0)))
        (Single (replicate (length q) (1, 0, 0))) q
      = Some (Single (Rsum va)).
Proof.
  intros Hw Hq%belongs_in_range.
  destruct (vertex_areas_total sp q Hq) as (va & Hva & Hl & _).
  exists va. split; [done|]. split; [done|].
  assert (Hblock : ∀ (w : R) (x y : batched (list vec3)), 0 < w →
            same_shape q x → same_shape q y →
            inner_product (mkElasticMetric sp w 0 0 0 0 0) x y q
            = rscale w <$> term_a0 va x y).
  { intros w x y Hw' Hx Hy.
    rewrite inner_product_zeroth_order by (simpl; done || lra).
    unfold mass_and_bending_block. cbn [space a0 a2].
    rewrite decide_True by (left; lra). rewrite Hva. cbn [mbind option_bind].
    rewrite decide_True by lra. rewrite accumulate_zero.
    destruct (term_a0 va x y); cbn; [|done]. by rewrite decide_False by lra. }
  split; [|split].
  - intros h k Hh Hk. by rewrite Hblock.
  - intros hs ks Hhs Hks Hlen. rewrite Hblock by done.
    unfold term_a0. cbn [bzip].
    rewrite (zip_same_Some (zip_with dot)) by done. cbn.
    by rewrite !map_map, map_zip_with.
  - rewrite Hblock by (simpl; rewrite ?length_replicate; done || lra).
    cbn. rewrite Rsum_unit_field by done. do 2 f_equal. lra.
Qed.

Lemma inner_product_mass_term_witness :
  0 < 1 ∧ belongs one_triangle right_triangle = true
  ∧ ∃ va : list R,
      vertex_areas one_triangle right_triangle = Some va
      ∧ length va = length right_triangle
      ∧ (∀ h k : list vec3,
           length h = length right_triangle →
           length k = length right_triangle →
           inner_product (mkElasticMetric one_triangle 1 0 0 0 0 0)
             (Single h) (Single k) right_triangle
           = Some (Single (1 * Rsum (zip_with Rmult va (zip_with dot h k)))))
      ∧ (∀ hs ks : list (list vec3),
           same_shape right_triangle (Batch hs) →
           same_shape right_triangle (Batch ks) →
           length hs = length ks →
           inner_product (mkElasticMetric one_triangle 1 0 0 0 0 0)
             (Batch hs) (Batch ks) right_triangle
           = Some (Batch (zip_with
                     (fun h k =>
                        1 * Rsum (zip_with Rmult va (zip_with dot h k)))
                     hs ks)))
      ∧ inner_product (mkElasticMetric one_triangle 1 0 0 0 0 0)
          (Single (replicate (length right_triangle) (1, 0, 0)))
          (Single (replicate (length right_triangle) (1, 0, 0)))
          right_triangle
        = Some (Single (Rsum va)).
Proof.
  split; [lra|]. split; [reflexivity|].
  apply (inner_product_mass_term one_triangle 1 right_triangle);
    [lra|reflexivity].
Defined.

(** ** The vertex areas in the term of [a0] (C6) *)

Lemma heron_area_face_area (v0 v1 v2 : vec3) :
  sqrt (heron_radicand v0 v1 v2) = face_area_at v0 v1 v2 / 2.
Proof.
  unfold face_area_at. rewrite heron_gram.
  apply sqrt_quarter, det_gram_nonneg.
Qed.

Lemma face_area_small_triangle :
  face_area_at (0, 0, 0) (3, 0, 0) (0, 4, 0) = 12.
Proof.
  unfold face_area_at.
  replace (det22 _) with (12 * 12) by (simpl; ring).
  apply sqrt_square. lra.
Qed.

Lemma face_area_large_triangle :
  face_area_at (0, 4, 0) (6, 4, 0) (0, 12, 0) = 48.
Proof.
  unfold face_area_at.
  replace (det22 _) with (48 * 48) by (simpl; ring).
  apply sqrt_square. lra.
Qed.

Lemma triangle_areas_unequal_triangles :
  _triangle_areas two_triangles unequal_triangles = Some [6; 24].
Proof.
  rewrite triangle_areas_Some
    by (repeat constructor; simpl; lia).
  cbn [two_triangles faces map]. unfold per_face, row. cbn [nth corner0
    corner1 corner2 fst snd unequal_triangles].
  rewrite !triangle_area_face_area, face_area_small_triangle,
    face_area_large_triangle.
  do 2 f_equal; [|f_equal]; (rewrite Rmax_left; lra).
Qed.

Lemma vertex_areas_unequal_triangles :
  vertex_areas two_triangles unequal_triangles = Some [4; 16; 20; 4; 16].
Proof.
  unfold vertex_areas. rewrite triangle_areas_unequal_triangles. simpl.
  do 2 f_equal; repeat (f_equal; try lra).
Qed.

Lemma incident_vertex_areas_unequal_triangles :
  incident_vertex_areas two_triangles unequal_triangles
  = [4; 4; 20; 16; 16].
Proof.
  unfold incident_vertex_areas, incident_vertex_area.
  cbn [two_triangles faces map seq length unequal_triangles].
  unfold per_face, row. cbn [nth corner0 corner1 corner2 fst snd].
  unfold unequal_triangles. cbn [nth].
  rewrite !heron_area_face_area, face_area_small_triangle,
    face_area_large_triangle.
  unfold at_corner. simpl.
  repeat (f_equal; try lra).
Qed.

(** C6, the code at the failing input: on two right triangles of the areas
    6 and 24 that share the vertex 2, [vertex_areas] returns
    [[4; 16; 20; 4; 16]] where the vertex areas of the specification (2/3 of
    the areas of the incident faces) are [[4; 4; 20; 16; 16]]: the flattened
    face array is paired with the area array repeated three times, so the
    vertex 1 of the face of area 6 receives the area 24. With [a0 = 1] alone
    and the field that is [(1, 0, 0)] at the vertex 1 and zero elsewhere the
    inner product is 16, and the sum over the vertices of the vertex area
    times the dot product is 4. *)
Theorem mass_term_pairs_corners_with_wrong_faces :
  _triangle_areas two_triangles unequal_triangles = Some [6; 24]
  ∧ vertex_areas two_triangles unequal_triangles = Some [4; 16; 20; 4; 16]
  ∧ incident_vertex_areas two_triangles unequal_triangles
    = [4; 4; 20; 16; 16]
  ∧ inner_product (mkElasticMetric two_triangles 1 0 0 0 0 0)
      (Single vertex_1_field) (Single vertex_1_field) unequal_triangles
    = Some (Single 16)
  ∧ 1 * Rsum (zip_with Rmult
                (incident_vertex_areas two_triangles unequal_triangles)
                (zip_with dot vertex_1_field vertex_1_field))
    = 4.
Proof.
  split; [apply triangle_areas_unequal_triangles|].
  split; [apply vertex_areas_unequal_triangles|].
  split; [apply incident_vertex_areas_unequal_triangles|].
  split.
  - rewrite inner_product_zeroth_order by (simpl; done || lra).
    unfold mass_and_bending_block. cbn [space a0 a2].
    rewrite decide_True by (left; lra).
    rewrite vertex_areas_unequal_triangles. cbn [mbind option_bind].
    rewrite decide_True by lra. rewrite accumulate_zero.
    unfold term_a0.
    cbn [bzip fmap option_fmap option_map mbind option_bind].
    rewrite decide_False by lra. cbn. do 2 f_equal. lra.
  - rewrite incident_vertex_areas_unequal_triangles. simpl. lra.
Qed.

(** ** The inner product on the right triangle *)

Ltac data_eq :=
  repeat match goal with
  | |- Some _ = Some _ => f_equal
  | |- (_, _) = (_, _) => f_equal
  | |- _ :: _ = _ :: _ => f_equal
  | |- Single _ = Single _ => f_equal
  | |- Batch _ = Batch _ => f_equal
  end; try done; try lra.

Ltac run_model :=
  repeat (progress
    (unfold surface_one_forms, normals, _vertices, take_rows, column,
       one_form_at, normal_at, _surface_metric_matrices_from_one_forms,
       term_a0, term_c1, term_d1, term_a1, term_b1, xi_0, delta_metric,
       zip_same, sum_last, sum_all, identity22, mret, option_ret; simpl)).

Ltac step := cbn [mbind option_bind space a0 a1 b1 c1 d1 a2].

Lemma padd_shear :
  bmapM (padd right_triangle) (Batch [shear_field])
  = Some (Batch [sheared_triangle]).
Proof.
  rewrite bmapM_padd_Some by (by repeat constructor).
  cbn. unfold sheared_triangle. data_eq.
Qed.

Lemma padd_stretch :
  bmapM (padd right_triangle) (Batch [stretch_field])
  = Some (Batch [stretched_triangle]).
Proof.
  rewrite bmapM_padd_Some by (by repeat constructor).
  cbn. unfold stretched_triangle. data_eq.
Qed.

Lemma one_forms_right_triangle :
  surface_one_forms one_triangle right_triangle
  = Some [((1, 0, 0), (0, 1, 0))].
Proof. run_model. data_eq. Qed.

Lemma one_forms_sheared :
  bmapM (surface_one_forms one_triangle) (Batch [sheared_triangle])
  = Some (Batch [[((1, 1, 0), (0, 1, 0))]]).
Proof. run_model. data_eq. Qed.

Lemma one_forms_stretched :
  bmapM (surface_one_forms one_triangle) (Batch [stretched_triangle])
  = Some (Batch [[((2, 0, 0), (0, 1, 0))]]).
Proof. run_model. data_eq. Qed.

Lemma metric_right_triangle :
  _surface_metric_matrices_from_one_forms [((1, 0, 0), (0, 1, 0))]
  = [identity22].
Proof. run_model. data_eq. Qed.

Lemma area_identity22 : map (fun g => sqrt (det22 g)) [identity22] = [1].
Proof.
  run_model. replace (1 * 1 - 0 * 0) with 1 by lra. by rewrite sqrt_1.
Qed.

Lemma inv_identity22 : mapM inv22 [identity22] = Some [identity22].
Proof.
  run_model. rewrite decide_False by lra. run_model.
  data_eq; field.
Qed.

Lemma term_d1_sheared :
  term_d1 [1] [((1, 0, 0), (0, 1, 0))] [identity22]
    (Batch [[((1, 1, 0), (0, 1, 0))]]) (Batch [[((1, 1, 0), (0, 1, 0))]])
  = Some (Single 2).
Proof. run_model. data_eq. Qed.

Lemma term_c1_sheared :
  term_c1 one_triangle [1] [(0, 0, / 2)]
    (Batch [sheared_triangle]) (Batch [sheared_triangle])
  = Some (Batch [0]).
Proof. run_model. rewrite half_inv. data_eq. Qed.

Lemma metric_change_block_closed (m : ElasticMetric) areas g ginv oa ob ip :
  a1 m <= 0 → b1 m <= 0 →
  metric_change_block m areas g ginv oa ob ip = Some ip.
Proof.
  intros H1 H2. unfold metric_change_block.
  rewrite decide_False; [done|]. intros [|]; lra.
Qed.

Lemma normals_sheared :
  bmapM (normals one_triangle) (Batch [sheared_triangle])
  = Some (Batch [[(0, 0, / 2)]]).
Proof. run_model. rewrite half_inv. data_eq. Qed.

(** The first-order block on the sheared right triangle, for weights with
    [a1 <= 0] and [b1 <= 0] and a passing outer test. *)
Lemma first_order_block_sheared (m : ElasticMetric) (ip : batched R) :
  space m = one_triangle → a1 m <= 0 → b1 m <= 0 → 0 < c1 m → 0 <= d1 m →
  first_order_block m (Batch [sheared_triangle]) (Batch [sheared_triangle])
    right_triangle ip
  = (ip ← accumulate ip (c1 m) (Some (Batch [0]));
     if decide (0 < d1 m) then accumulate ip (d1 m) (Some (Single 2))
     else Some ip).
Proof.
  intros Hsp Ha Hb Hc Hd. unfold first_order_block. rewrite Hsp.
  rewrite decide_True by (right; right; left; done).
  rewrite one_forms_right_triangle. step.
  rewrite metric_right_triangle, area_identity22, normals_right_triangle.
  step. rewrite decide_True by done. rewrite term_c1_sheared.
  destruct (accumulate ip (c1 m) (Some (Batch [0]))) as [ip'|]; [|done].
  step. destruct (decide (0 < d1 m)) as [Hd'|Hd'].
  - rewrite decide_True by (by left).
    rewrite inv_identity22. step. rewrite one_forms_sheared. step.
    rewrite term_d1_sheared.
    destruct (accumulate ip' (d1 m) (Some (Single 2))) as [ip''|]; [|done].
    step. by apply metric_change_block_closed.
  - rewrite decide_False; [done|]. intros [|[|]]; lra.
Qed.

(** C1, the code at the failing input: on the right triangle and the shearing
    field, with [d1 = 1] alone the result is the initial [0], although the
    term of [d1] is 2 there: the same weights with [c1 = 1] in addition give
    2, of which the term of [c1] contributes 0 (third equation). The test of
    line 552 does not look at [d1]. *)
Theorem connection_term_skipped_when_alone :
  inner_product (mkElasticMetric one_triangle 0 0 0 0 1 0)
    (Batch [shear_field]) (Batch [shear_field]) right_triangle
  = Some (Single 0)
  ∧ inner_product (mkElasticMetric one_triangle 0 0 0 1 1 0)
      (Batch [shear_field]) (Batch [shear_field]) right_triangle
    = Some (Batch [2])
  ∧ inner_product (mkElasticMetric one_triangle 0 0 0 1 0 0)
      (Batch [shear_field]) (Batch [shear_field]) right_triangle
    = Some (Batch [0]).
Proof.
  split; [|split].
  - apply inner_product_d1_only; try lra; by repeat constructor.
  - unfold inner_product. rewrite padd_shear. step.
    rewrite mass_and_bending_block_closed by (simpl; lra). step.
    rewrite first_order_block_sheared by (simpl; done || lra).
    rewrite accumulate_zero.
    cbn [fmap option_fmap option_map rscale bmap map]. step.
    rewrite decide_True by lra. unfold accumulate, radd. run_model.
    data_eq.
  - unfold inner_product. rewrite padd_shear. step.
    rewrite mass_and_bending_block_closed by (simpl; lra). step.
    rewrite first_order_block_sheared by (simpl; done || lra).
    rewrite accumulate_zero.
    cbn [fmap option_fmap option_map rscale bmap map]. step.
    rewrite decide_False by lra. data_eq.
Qed.

Lemma delta_metric_stretched :
  delta_metric [identity22] (Batch [[((2, 0, 0), (0, 1, 0))]])
  = Some (Batch [[((3, 0), (0, 0))]]).
Proof. unfold delta_metric. run_model. data_eq. Qed.

Lemma ginv_delta_stretched :
  bmap (fun d => zip_with matmul_22_22 [identity22] d)
    (Batch [[((3, 0), (0, 0))]])
  = Batch [[((3, 0), (0, 0))]].
Proof. run_model. data_eq. Qed.

Lemma term_a1_stretched :
  term_a1 [1] (Batch [[((3, 0), (0, 0))]]) (Batch [[((3, 0), (0, 0))]])
  = Some (Batch [9]).
Proof. run_model. data_eq. Qed.

Lemma term_b1_stretched :
  term_b1 [1] (Batch [[((3, 0), (0, 0))]]) (Batch [[((3, 0), (0, 0))]])
  = Some (Batch [9]).
Proof. run_model. data_eq. Qed.

(** The inner product of the stretching field with itself on the right
    triangle, for the weights [a1] and [b1 > 0] alone. *)
Lemma inner_product_stretched (w1 wb : R) :
  0 < wb →
  inner_product (mkElasticMetric one_triangle 0 w1 wb 0 0 0)
    (Batch [stretch_field]) (Batch [stretch_field]) right_triangle
  = Some (Batch [0 + w1 * 9 + wb * 9]).
Proof.
  intros Hb. unfold inner_product. rewrite padd_stretch. step.
  rewrite mass_and_bending_block_closed by (simpl; lra). step.
  unfold first_order_block. step.
  rewrite decide_True by (right; left; done).
  rewrite one_forms_right_triangle. step.
  rewrite metric_right_triangle, area_identity22, normals_right_triangle.
  step. rewrite decide_False by lra. step.
  rewrite decide_True by (right; left; done).
  rewrite inv_identity22. step. rewrite one_forms_stretched. step.
  rewrite decide_False by lra. step.
  unfold metric_change_block. step. rewrite decide_True by (by left).
  rewrite delta_metric_stretched. step. rewrite ginv_delta_stretched.
  rewrite term_a1_stretched, term_b1_stretched.
  unfold accumulate, radd. run_model. done.
Qed.

(** C10, as stated, fails: on the right triangle and the stretching field,
    with [b1 = 1] the weight [a1 = -1] gives 0 and the weight [a1 = 0] gives
    9: the negative weight contributes [-9]. *)
Lemma negative_stretching_weight_contributes :
  inner_product (mkElasticMetric one_triangle 0 (-1) 1 0 0 0)
    (Batch [stretch_field]) (Batch [stretch_field]) right_triangle
  = Some (Batch [0])
  ∧ inner_product (mkElasticMetric one_triangle 0 0 1 0 0 0)
      (Batch [stretch_field]) (Batch [stretch_field]) right_triangle
    = Some (Batch [9])
  ∧ inner_product (mkElasticMetric one_triangle 0 (-1) 1 0 0 0)
      (Batch [stretch_field]) (Batch [stretch_field]) right_triangle
    ≠ inner_product (mkElasticMetric one_triangle 0 0 1 0 0 0)
        (Batch [stretch_field]) (Batch [stretch_field]) right_triangle.
Proof.
  rewrite !inner_product_stretched by lra.
  split; [data_eq|]. split; [data_eq|].
  intros H. injection H as H. lra.
Qed.


(** ** Weights that are not positive (C10) *)

(** Case analysis on the tests of [inner_product] that look at the weight
    [w]; the cases that contradict the hypotheses are closed. *)
Ltac destruct_guards w :=
  repeat match goal with
  | |- context [decide ?P] =>
      match P with context [w] => destruct (decide P) end
  end.

Ltac close_guards := try reflexivity; exfalso; intuition lra.

Ltac open_inner_product :=
  unfold inner_product, mass_and_bending_block, first_order_block,
    metric_change_block;
  cbn [space a0 a1 b1 c1 d1 a2].

Section Guards.
Variable sp : DiscreteSurfaces.
Variables w0 w1 wb wc wd w2 : R.
Variables h k : batched (list vec3).
Variable q : list vec3.

Lemma guard_a0 (w : R) :
  w0 <= 0 → w <= 0 →
  inner_product (mkElasticMetric sp w0 w1 wb wc wd w2) h k q
  = inner_product (mkElasticMetric sp w w1 wb wc wd w2) h k q.
Proof.
  intros. open_inner_product. destruct_guards w0.
  all: destruct_guards w. all: close_guards.
Qed.

Lemma guard_a2 (w : R) :
  w2 <= 0 → w <= 0 →
  inner_product (mkElasticMetric sp w0 w1 wb wc wd w2) h k q
  = inner_product (mkElasticMetric sp w0 w1 wb wc wd w) h k q.
Proof.
  intros. open_inner_product. destruct_guards w2.
  all: destruct_guards w. all: close_guards.
Qed.

Lemma guard_c1 (w : R) :
  wc <= 0 → w <= 0 →
  inner_product (mkElasticMetric sp w0 w1 wb wc wd w2) h k q
  = inner_product (mkElasticMetric sp w0 w1 wb w wd w2) h k q.
Proof.
  intros. open_inner_product. destruct_guards wc.
  all: destruct_guards w. all: close_guards.
Qed.

Lemma guard_d1 (w : R) :
  wd <= 0 → w <= 0 →
  inner_product (mkElasticMetric sp w0 w1 wb wc wd w2) h k q
  = inner_product (mkElasticMetric sp w0 w1 wb wc w w2) h k q.
Proof.
  intros. open_inner_product. destruct_guards wd.
  all: destruct_guards w. all: close_guards.
Qed.

Lemma guard_a1 (w : R) :
  w1 <= 0 → w <= 0 → wb <= 0 →
  inner_product (mkElasticMetric sp w0 w1 wb wc wd w2) h k q
  = inner_product (mkElasticMetric sp w0 w wb wc wd w2) h k q.
Proof.
  intros. open_inner_product. destruct_guards w1.
  all: destruct_guards w. all: close_guards.
Qed.

Lemma guard_b1 (w : R) :
  wb <= 0 → w <= 0 → w1 <= 0 →
  inner_product (mkElasticMetric sp w0 w1 wb wc wd w2) h k q
  = inner_product (mkElasticMetric sp w0 w1 w wc wd w2) h k q.
Proof.
  intros. open_inner_product. destruct_guards wb.
  all: destruct_guards w. all: close_guards.
Qed.
End Guards.

(** C10, amended: a negative value of [a0], [a2], [c1] or [d1] gives the same
    inner product as the value 0; a negative value of [a1] does so when [b1]
    is not positive, and a negative value of [b1] when [a1] is not positive
    (the two terms share one test, [b1 > 0 or a1 > 0], and both are added
    when it passes); with the six weights at most 0 and tangent vectors of the
    shape of the base point the result is the scalar 0. *)
Theorem nonpositive_weights_guarded (sp : DiscreteSurfaces)
    (w0 w1 wb wc wd w2 : R) (h k : batched (list vec3)) (q : list vec3) :
  (w0 < 0 →
   inner_product (mkElasticMetric sp w0 w1 wb wc wd w2) h k q
   = inner_product (mkElasticMetric sp 0 w1 wb wc wd w2) h k q)
  ∧ (w2 < 0 →
     inner_product (mkElasticMetric sp w0 w1 wb wc wd w2) h k q
     = inner_product (mkElasticMetric sp w0 w1 wb wc wd 0) h k q)
  ∧ (wc < 0 →
     inner_product (mkElasticMetric sp w0 w1 wb wc wd w2) h k q
     = inner_product (mkElasticMetric sp w0 w1 wb 0 wd w2) h k q)
  ∧ (wd < 0 →
     inner_product (mkElasticMetric sp w0 w1 wb wc wd w2) h k q
     = inner_product (mkElasticMetric sp w0 w1 wb wc 0 w2) h k q)
  ∧ (w1 < 0 → wb <= 0 →
     inner_product (mkElasticMetric sp w0 w1 wb wc wd w2) h k q
     = inner_product (mkElasticMetric sp w0 0 wb wc wd w2) h k q)
  ∧ (wb < 0 → w1 <= 0 →
     inner_product (mkElasticMetric sp w0 w1 wb wc wd w2) h k q
     = inner_product (mkElasticMetric sp w0 w1 0 wc wd w2) h k q)
  ∧ (w0 <= 0 → w1 <= 0 → wb <= 0 → wc <= 0 → wd <= 0 → w2 <= 0 →
     same_shape q h → same_shape q k →
     inner_product (mkElasticMetric sp w0 w1 wb wc wd w2) h k q
     = Some (Single 0)).
Proof.
  repeat split; intros.
  - apply guard_a0; lra.
  - apply guard_a2; lra.
  - apply guard_c1; lra.
  - apply guard_d1; lra.
  - apply guard_a1; lra.
  - apply guard_b1; lra.
  - by apply inner_product_d1_only.
Qed.

Lemma nonpositive_weights_guarded_witness :
  let h := Single right_triangle in
  let q := right_triangle in
  let sp := one_triangle in
  inner_product (mkElasticMetric sp (-1) (-1) (-1) (-1) (-1) (-1)) h h q
  = inner_product (mkElasticMetric sp 0 (-1) (-1) (-1) (-1) (-1)) h h q
  ∧ inner_product (mkElasticMetric sp (-1) (-1) (-1) (-1) (-1) (-1)) h h q
    = inner_product (mkElasticMetric sp (-1) (-1) (-1) (-1) (-1) 0) h h q
  ∧ inner_product (mkElasticMetric sp (-1) (-1) (-1) (-1) (-1) (-1)) h h q
    = inner_product (mkElasticMetric sp (-1) (-1) (-1) 0 (-1) (-1)) h h q
  ∧ inner_product (mkElasticMetric sp (-1) (-1) (-1) (-1) (-1) (-1)) h h q
    = inner_product (mkElasticMetric sp (-1) (-1) (-1) (-1) 0 (-1)) h h q
  ∧ inner_product (mkElasticMetric sp (-1) (-1) (-1) (-1) (-1) (-1)) h h q
    = inner_product (mkElasticMetric sp (-1) 0 (-1) (-1) (-1) (-1)) h h q
  ∧ inner_product (mkElasticMetric sp (-1) (-1) (-1) (-1) (-1) (-1)) h h q
    = inner_product (mkElasticMetric sp (-1) (-1) 0 (-1) (-1) (-1)) h h q
  ∧ inner_product (mkElasticMetric sp (-1) (-1) (-1) (-1) (-1) (-1)) h h q
    = Some (Single 0).
Proof.
  intros h q sp.
  destruct (nonpositive_weights_guarded sp (-1) (-1) (-1) (-1) (-1) (-1) h h q)
    as (H0 & H2 & Hc & Hd & H1 & Hb & Hall).
  split; [apply H0; lra|]. split; [apply H2; lra|].
  split; [apply Hc; lra|]. split; [apply Hd; lra|].
  split; [apply H1; lra|]. split; [apply Hb; lra|].
  apply Hall; try lra; reflexivity.
Defined.

(** ** Quadratic scaling of the terms of [a0] and [a2] (C8) *)

Lemma take_rows_scale (c : R) (h : list vec3) (idx : list nat) :
  take_rows (map (vscale c) h) idx = map (vscale c) <$> take_rows h idx.
Proof.
  unfold take_rows. induction idx as [|i idx IH]; [done|].
  cbn [mapM]. rewrite IH, list_lookup_fmap.
  destruct (h !! i); [|done]. cbn.
  by destruct (mapM (fun i => h !! i) idx).
Qed.

Lemma vsub_scale (c : R) (a b : list vec3) :
  zip_with vsub (map (vscale c) a) (map (vscale c) b)
  = map (vscale c) (zip_with vsub a b).
Proof.
  revert b. induction a as [|[[x y] z] a IH]; intros [|[[x' y'] z'] b];
    simpl; try done.
  rewrite IH. do 2 f_equal; [f_equal|]; ring.
Qed.

Lemma values_scale (c : R) (cot : list R) (d : list vec3) :
  zip_with vscale cot (map (vscale c) d)
  = map (vscale c) (zip_with vscale cot d).
Proof.
  revert d. induction cot as [|w cot IH]; intros [|[[x y] z] d];
    simpl; try done.
  rewrite IH. do 2 f_equal; [f_equal|]; ring.
Qed.

Lemma coord_scale (c : R) (i_dim : nat) (v : list vec3) :
  map (coord i_dim) (map (vscale c) v) = map (Rmult c) (map (coord i_dim) v).
Proof.
  rewrite !map_map. apply map_ext. intros [[x y] z].
  by destruct i_dim as [|[|?]].
Qed.

Lemma scatter_add_scale (c : R) (index : list nat) (src input : list R) :
  scatter_add (map (Rmult c) input) index (map (Rmult c) src)
  = map (Rmult c) <$> scatter_add input index src.
Proof.
  revert src input. induction index as [|i index IH]; intros [|v src] input;
    try done.
  cbn [scatter_add map]. rewrite list_lookup_fmap.
  destruct (input !! i) as [x|]; [|done].
  cbn [fmap option_fmap option_map mbind option_bind].
  rewrite <- IH. f_equal. rewrite list_fmap_insert. f_equal. ring.
Qed.

Lemma zeros_scale (c : R) (n : nat) :
  replicate n 0 = map (Rmult c) (replicate n 0).
Proof.
  induction n as [|n IH]; simpl; [done|]. rewrite <- IH. f_equal. ring.
Qed.

Lemma scatter_add_zeros_scale (c : R) (n : nat) (index : list nat)
    (src : list R) :
  scatter_add (replicate n 0) index (map (Rmult c) src)
  = map (Rmult c) <$> scatter_add (replicate n 0) index src.
Proof.
  rewrite <- scatter_add_scale. by rewrite <- zeros_scale.
Qed.

Lemma map3_scale (c : R) (o0 o1 o2 : list R) :
  map3 (fun x y z : R => (x, y, z))
    (map (Rmult c) o0) (map (Rmult c) o1) (map (Rmult c) o2)
  = map (vscale c) (map3 (fun x y z : R => (x, y, z)) o0 o1 o2).
Proof.
  revert o1 o2. induction o0 as [|x o0 IH]; intros [|y o1] [|z o2];
    simpl; try done.
  by rewrite IH.
Qed.

(** The operator of [laplacian] is homogeneous, failures included. *)
Lemma laplacian_field_scale (op : laplacian_op) (c : R) (h : list vec3) :
  _laplacian_field op (map (vscale c) h)
  = map (vscale c) <$> _laplacian_field op h.
Proof.
  unfold _laplacian_field. rewrite !take_rows_scale.
  destruct (take_rows h (lap_id_vertices_0 op)) as [from|]; [|done].
  destruct (take_rows h (lap_id_vertices_1 op)) as [to|];
    cbn [fmap option_fmap option_map mbind option_bind]; [|done].
  rewrite vsub_scale, values_scale.
  rewrite (coord_scale c 0), scatter_add_zeros_scale.
  destruct (scatter_add _ _ (map (coord 0) _)) as [o0|];
    cbn [fmap option_fmap option_map mbind option_bind]; [|done].
  rewrite (coord_scale c 1), scatter_add_zeros_scale.
  destruct (scatter_add _ _ (map (coord 1) _)) as [o1|];
    cbn [fmap option_fmap option_map mbind option_bind]; [|done].
  rewrite (coord_scale c 2), scatter_add_zeros_scale.
  destruct (scatter_add _ _ (map (coord 2) _)) as [o2|];
    cbn [fmap option_fmap option_map mbind option_bind]; [|done].
  by rewrite map3_scale.
Qed.

Lemma laplacian_scale (op : laplacian_op) (c : R) (h : batched (list vec3)) :
  _laplacian op (tscale c h) = tscale c <$> _laplacian op h.
Proof.
  destruct h as [x|xs]; unfold _laplacian; cbn [tscale bmap bmapM].
  - rewrite laplacian_field_scale. by destruct (_laplacian_field op x).
  - assert (mapM (_laplacian_field op) (map (map (vscale c)) xs)
            = map (map (vscale c)) <$> mapM (_laplacian_field op) xs) as ->.
    { induction xs as [|x xs IH]; [done|]. cbn [map mapM].
      rewrite laplacian_field_scale, IH.
      destruct (_laplacian_field op x); [|done].
      by destruct (mapM (_laplacian_field op) xs). }
    by destruct (mapM (_laplacian_field op) xs).
Qed.

Lemma bmap_bmap {A B C : Type} (f : A → B) (g : B → C) (x : batched A) :
  bmap g (bmap f x) = bmap (fun a => g (f a)) x.
Proof. destruct x as [a|l]; simpl; [done|]. by rewrite map_map. Qed.

Lemma bmap_ext {A B : Type} (f g : A → B) (x : batched A) :
  (∀ a, f a = g a) → bmap f x = bmap g x.
Proof.
  intros H. destruct x as [a|l]; simpl; [by rewrite H|].
  f_equal. by apply map_ext.
Qed.

Lemma mapM_homogeneous {A B : Type} (f : A → option B) (g : A → A)
    (g' : B → B) (l : list A) :
  (∀ a, f (g a) = g' <$> f a) →
  mapM f (map g l) = map g' <$> mapM f l.
Proof.
  intros H. induction l as [|a l IH]; [done|]. cbn [map mapM].
  rewrite H, IH. destruct (f a); [|done]. by destruct (mapM f l).
Qed.

Lemma bmapM_homogeneous {A B : Type} (f : A → option B) (g : A → A)
    (g' : B → B) (x : batched A) :
  (∀ a, f (g a) = g' <$> f a) →
  bmapM f (bmap g x) = bmap g' <$> bmapM f x.
Proof.
  intros H. destruct x as [a|l]; cbn [bmap bmapM].
  - rewrite H. by destruct (f a).
  - rewrite (mapM_homogeneous f g g') by done. by destruct (mapM f l).
Qed.

Lemma zip_with_diag {A B : Type} (g : A → A → B) (l : list A) :
  zip_with g l l = map (fun x => g x x) l.
Proof. induction l as [|x l IH]; simpl; [done|]. by rewrite IH. Qed.

Lemma bzip_diag {A B : Type} (g : A → A → B) (x : batched A) :
  bzip (fun a b => Some (g a b)) x x = Some (bmap (fun a => g a a) x).
Proof.
  destruct x as [a|l]; cbn [bzip bmap]; [done|].
  rewrite zip_same_Some by done. cbn. by rewrite zip_with_diag.
Qed.

Lemma dot_scale (c : R) (x y : list vec3) :
  zip_with dot (map (vscale c) x) (map (vscale c) y)
  = map (Rmult (c * c)) (zip_with dot x y).
Proof.
  revert y. induction x as [|[[x0 x1] x2] x IH]; intros [|[[y0 y1] y2] y];
    simpl; try done.
  rewrite IH. f_equal. ring.
Qed.

Lemma Rsum_map_scale (s : R) (l : list R) :
  Rsum (map (Rmult s) l) = s * Rsum l.
Proof. induction l as [|x l IH]; simpl; [ring|]. rewrite IH. ring. Qed.

Lemma weighted_scale (s : R) (va e : list R) :
  zip_with Rmult va (map (Rmult s) e) = map (Rmult s) (zip_with Rmult va e).
Proof.
  revert e. induction va as [|v va IH]; intros [|x e]; simpl; try done.
  rewrite IH. f_equal. ring.
Qed.

Lemma fdiv_scale_one (s x v : R) : fdiv (s * x) v = Rmult s <$> fdiv x v.
Proof.
  unfold fdiv. destruct (decide (v = 0)); [done|]. cbn.
  f_equal. unfold Rdiv. ring.
Qed.

Lemma fdiv_scale (s : R) (va e : list R) :
  mapM (fun p => fdiv p.1 p.2) (zip (map (Rmult s) e) va)
  = map (Rmult s) <$> mapM (fun p => fdiv p.1 p.2) (zip e va).
Proof.
  revert va. induction e as [|x e IH]; intros [|v va]; try done.
  cbn [map zip zip_with mapM fst snd]. rewrite IH, fdiv_scale_one.
  destruct (fdiv x v); [|done].
  by destruct (mapM _ (zip e va)).
Qed.

Lemma term_a0_scale (va : list R) (c : R) (h : batched (list vec3)) :
  term_a0 va (tscale c h) (tscale c h) = rscale (c * c) <$> term_a0 va h h.
Proof.
  unfold term_a0, tscale, sum_last, rscale. rewrite !bzip_diag.
  cbn [mbind option_bind fmap option_fmap option_map].
  rewrite !bmap_bmap. f_equal. apply bmap_ext. intros x.
  by rewrite dot_scale, weighted_scale, Rsum_map_scale.
Qed.

Lemma term_a2_scale (sp : DiscreteSurfaces) (va : list R) (c : R)
    (h : batched (list vec3)) (q : list vec3) :
  term_a2 sp va (tscale c h) (tscale c h) q
  = rscale (c * c) <$> term_a2 sp va h h q.
Proof.
  unfold term_a2. destruct (laplacian sp q) as [op|]; [|done].
  cbn [mbind option_bind]. rewrite laplacian_scale.
  destruct (_laplacian op h) as [lh|]; [|done].
  cbn [mbind option_bind fmap option_fmap option_map].
  unfold tscale. rewrite !bzip_diag. cbn [mbind option_bind].
  rewrite bmap_bmap.
  rewrite (bmap_ext _ (fun a => map (Rmult (c * c)) (zip_with dot a a)))
    by (intros a; apply dot_scale).
  rewrite <- (bmap_bmap (fun a => zip_with dot a a) (map (Rmult (c * c)))).
  rewrite (bmapM_homogeneous _ _ (map (Rmult (c * c))))
    by (intros e; apply fdiv_scale).
  destruct (bmapM _ (bmap _ lh)) as [r|]; [|done].
  cbn [mbind option_bind fmap option_fmap option_map]. f_equal.
  unfold sum_last, rscale. rewrite !bmap_bmap. apply bmap_ext. intros e.
  apply Rsum_map_scale.
Qed.

Lemma padd_None (q h : list vec3) :
  length h ≠ length q → padd q h = None.
Proof. intros H. unfold padd. rewrite decide_False; [done|]. congruence. Qed.

Lemma bmapM_padd_None (q : list vec3) (h : batched (list vec3)) :
  ¬ same_shape q h → bmapM (padd q) h = None.
Proof.
  destruct h as [x|xs]; cbn [same_shape bmapM]; intros H.
  - by rewrite padd_None.
  - assert (mapM (padd q) xs = None) as ->; [|done].
    induction xs as [|x xs IH]; [by destruct H|]. cbn [mapM].
    destruct (decide (length x = length q)) as [Hx|Hx].
    + rewrite padd_Some by done. cbn. rewrite IH; [done|].
      intros Hxs. apply H. by constructor.
    + by rewrite padd_None.
Qed.

Lemma same_shape_scale (q : list vec3) (c : R) (h : batched (list vec3)) :
  same_shape q (tscale c h) ↔ same_shape q h.
Proof.
  destruct h as [x|xs]; cbn [same_shape tscale bmap].
  - by rewrite length_map.
  - rewrite Forall_map. apply Forall_iff. intros x. cbn.
    by rewrite length_map.
Qed.

(** Without positive first-order weight the inner product is the block of
    [a0] and [a2], for tangent vectors of the shape of the base point. *)
Lemma inner_product_zeroth_order_cases (m : ElasticMetric)
    (h k : batched (list vec3)) (q : list vec3) :
  a1 m <= 0 → b1 m <= 0 → c1 m <= 0 →
  inner_product m h k q
  = if decide (same_shape q h ∧ same_shape q k)
    then mass_and_bending_block m h k q (Single 0)
    else None.
Proof.
  intros H1 Hb Hc. destruct (decide _) as [[Hh Hk]|Hn].
  - by apply inner_product_zeroth_order.
  - unfold inner_product.
    destruct (decide (same_shape q h)) as [Hh|Hh].
    + rewrite (bmapM_padd_Some q h) by done. cbn [mbind option_bind].
      rewrite bmapM_padd_None; [done|]. intros Hk. by apply Hn.
    + rewrite (bmapM_padd_None q h) by done. reflexivity.
Qed.

Lemma rscale_rscale (s w : R) (t : batched R) :
  rscale w (rscale s t) = rscale s (rscale w t).
Proof.
  unfold rscale. rewrite !bmap_bmap. apply bmap_ext. intros x. ring.
Qed.

Lemma accumulate_zero_scale (s w : R) (t : option (batched R)) :
  accumulate (Single 0) w (rscale s <$> t)
  = rscale s <$> accumulate (Single 0) w t.
Proof.
  rewrite !accumulate_zero. destruct t as [t|]; [|done]. cbn.
  by rewrite rscale_rscale.
Qed.

Lemma mass_block_scale (sp : DiscreteSurfaces) (w c : R)
    (h : batched (list vec3)) (q : list vec3) :
  mass_and_bending_block (mkElasticMetric sp w 0 0 0 0 0)
    (tscale c h) (tscale c h) q (Single 0)
  = rscale (c * c) <$>
    mass_and_bending_block (mkElasticMetric sp w 0 0 0 0 0) h h q (Single 0).
Proof.
  unfold mass_and_bending_block. cbn [space a0 a2].
  destruct (decide (0 < w ∨ 0 < 0)) as [[Hw|Hw]|Hw]; [|lra|].
  - destruct (vertex_areas sp q) as [va|]; [|done].
    cbn [mbind option_bind]. destruct (decide (0 < w)); [|lra].
    rewrite term_a0_scale, accumulate_zero_scale.
    destruct (accumulate (Single 0) w (term_a0 va h h)) as [ip|];
      cbn [mbind option_bind fmap option_fmap option_map]; [|done].
    destruct (decide (0 < 0)); [lra|done].
  - cbn. do 2 f_equal. ring.
Qed.

Lemma bending_block_scale (sp : DiscreteSurfaces) (w c : R)
    (h : batched (list vec3)) (q : list vec3) :
  mass_and_bending_block (mkElasticMetric sp 0 0 0 0 0 w)
    (tscale c h) (tscale c h) q (Single 0)
  = rscale (c * c) <$>
    mass_and_bending_block (mkElasticMetric sp 0 0 0 0 0 w) h h q (Single 0).
Proof.
  unfold mass_and_bending_block. cbn [space a0 a2].
  destruct (decide (0 < 0 ∨ 0 < w)) as [[Hw|Hw]|Hw]; [lra| |].
  - destruct (vertex_areas sp q) as [va|]; [|done].
    cbn [mbind option_bind]. destruct (decide (0 < 0)); [lra|].
    cbn [mbind option_bind]. destruct (decide (0 < w)); [|lra].
    by rewrite term_a2_scale, accumulate_zero_scale.
  - cbn. do 2 f_equal. ring.
Qed.

(** C8: with only [a0] nonzero, or only [a2] nonzero, the inner product of
    [c * h] with itself is [c * c] times the inner product of [h] with itself,
    for every scalar [c], every tangent vector [h] (with or without batch
    axis) and every base point [q]; the two sides also fail together. *)
Theorem inner_product_quadratic_scaling (sp : DiscreteSurfaces) (w c : R)
    (h : batched (list vec3)) (q : list vec3) :
  inner_product (mkElasticMetric sp w 0 0 0 0 0) (tscale c h) (tscale c h) q
  = rscale (c * c) <$> inner_product (mkElasticMetric sp w 0 0 0 0 0) h h q
  ∧ inner_product (mkElasticMetric sp 0 0 0 0 0 w) (tscale c h) (tscale c h) q
    = rscale (c * c) <$> inner_product (mkElasticMetric sp 0 0 0 0 0 w) h h q.
Proof.
  rewrite !inner_product_zeroth_order_cases by (simpl; lra).
  split.
  - destruct (decide (same_shape q h ∧ same_shape q h)) as [H|H].
    + rewrite decide_True by (by rewrite same_shape_scale).
      apply mass_block_scale.
    + rewrite decide_False; [done|]. by rewrite same_shape_scale.
  - destruct (decide (same_shape q h ∧ same_shape q h)) as [H|H].
    + rewrite decide_True by (by rewrite same_shape_scale).
      apply bending_block_scale.
    + rewrite decide_False; [done|]. by rewrite same_shape_scale.
Qed.

(** ** Symmetry of the inner product (C5) *)

Lemma mapM_ext_eq {A B : Type} (f g : A → option B) (l : list A) :
  (∀ a, f a = g a) → mapM f l = mapM g l.
Proof.
  intros H. induction l as [|a l IH]; [done|]. cbn [mapM].
  by rewrite H, IH.
Qed.

Lemma zip_same_sym {A B C : Type} (f : A → B → option C)
    (g : B → A → option C) (l1 : list A) (l2 : list B) :
  (∀ a b, f a b = g b a) → zip_same f l1 l2 = zip_same g l2 l1.
Proof.
  intros H. unfold zip_same.
  destruct (decide (length l1 = length l2)) as [Hl|Hl].
  - rewrite decide_True by done. clear Hl. revert l2.
    induction l1 as [|a l1 IH]; intros [|b l2]; try done.
    cbn [zip zip_with mapM fst snd]. by rewrite H, IH.
  - rewrite decide_False; [done|]. congruence.
Qed.

Lemma bzip_sym {A B C : Type} (f : A → B → option C) (g : B → A → option C)
    (x : batched A) (y : batched B) :
  (∀ a b, f a b = g b a) → bzip f x y = bzip g y x.
Proof.
  intros H. destruct x as [a|l1], y as [b|l2]; cbn [bzip].
  - by rewrite H.
  - by rewrite (mapM_ext_eq (f a) (fun b => g b a)).
  - by rewrite (mapM_ext_eq (fun a => f a b) (g b)).
  - by rewrite (zip_same_sym f g).
Qed.

Lemma mapM_fmap_Some {A B C : Type} (f : A → option B) (g : B → C)
    (l : list A) :
  map g <$> mapM f l = mapM (fun a => g <$> f a) l.
Proof.
  induction l as [|a l IH]; [done|]. cbn [mapM]. rewrite <- IH.
  destruct (f a); [|done]. cbn. by destruct (mapM f l).
Qed.

Lemma bzip_fmap {A B C D : Type} (f : A → B → option C) (g : C → D)
    (x : batched A) (y : batched B) :
  bmap g <$> bzip f x y = bzip (fun a b => g <$> f a b) x y.
Proof.
  destruct x as [a|l1], y as [b|l2]; cbn [bzip].
  - by destruct (f a b).
  - rewrite <- mapM_fmap_Some. by destruct (mapM (f a) l2).
  - rewrite <- (mapM_fmap_Some (fun a => f a b)). by destruct (mapM _ l1).
  - unfold zip_same. destruct (decide _); [|done].
    rewrite <- (mapM_fmap_Some (fun p => f p.1 p.2)).
    by destruct (mapM _ (zip l1 l2)).
Qed.

Lemma dot_comm (u v : vec3) : dot u v = dot v u.
Proof. destruct u as [[? ?] ?], v as [[? ?] ?]. simpl. ring. Qed.

Lemma zip_with_dot_comm (x y : list vec3) :
  zip_with dot x y = zip_with dot y x.
Proof.
  revert y. induction x as [|u x IH]; intros [|v y]; simpl; try done.
  by rewrite IH, dot_comm.
Qed.

Lemma term_a0_sym (va : list R) (h k : batched (list vec3)) :
  term_a0 va h k = term_a0 va k h.
Proof.
  unfold term_a0. rewrite (bzip_sym _ (fun x y => Some (zip_with dot x y)) h k);
    [done|].
  intros a b. by rewrite zip_with_dot_comm.
Qed.

Lemma term_a2_sym (sp : DiscreteSurfaces) (va : list R)
    (h k : batched (list vec3)) (q : list vec3) :
  term_a2 sp va h k q = term_a2 sp va k h q.
Proof.
  unfold term_a2. destruct (laplacian sp q) as [op|]; [|done].
  cbn [mbind option_bind].
  destruct (_laplacian op h) as [lh|], (_laplacian op k) as [lk|];
    cbn [mbind option_bind]; try done.
  rewrite (bzip_sym _ (fun x y => Some (zip_with dot x y)) lh lk); [done|].
  intros a b. by rewrite zip_with_dot_comm.
Qed.

Lemma term_c1_sym (sp : DiscreteSurfaces) (areas : list R)
    (nq : list vec3) (pa pb : batched (list vec3)) :
  term_c1 sp areas nq pa pb = term_c1 sp areas nq pb pa.
Proof.
  unfold term_c1.
  destruct (bmapM (normals sp) pa) as [na|], (bmapM (normals sp) pb) as [nb|];
    cbn [mbind option_bind]; try done.
  rewrite (bzip_sym _ (fun x y => Some (zip_with dot x y))); [done|].
  intros a b. by rewrite zip_with_dot_comm.
Qed.

Lemma trace_matmul_comm (a b : list mat22) :
  map trace22 (zip_with matmul_22_22 a b)
  = map trace22 (zip_with matmul_22_22 b a).
Proof.
  revert b. induction a as [|[[a00 a01] [a10 a11]] a IH];
    intros [|[[b00 b01] [b10 b11]] b]; simpl; try done.
  rewrite IH. f_equal. ring.
Qed.

Lemma term_a1_sym (areas : list R) (g1 g2 : batched (list mat22)) :
  term_a1 areas g1 g2 = term_a1 areas g2 g1.
Proof.
  assert (Hform : ∀ x y, term_a1 areas x y =
            bzip (fun a b =>
                    Some (Rsum (zip_with Rmult
                                  (map trace22 (zip_with matmul_22_22 a b))
                                  areas))) x y).
  { intros x y. unfold term_a1.
    rewrite <- (bzip_fmap (fun a b => Some (zip_with matmul_22_22 a b))
                  (fun p => Rsum (zip_with Rmult (map trace22 p) areas))).
    destruct (bzip _ x y) as [p|]; [|done]. cbn. f_equal.
    unfold sum_last. by rewrite !bmap_bmap. }
  rewrite !Hform. apply bzip_sym. intros a b.
  by rewrite trace_matmul_comm.
Qed.

Lemma zip_with_Rmult_comm (x y : list R) :
  zip_with Rmult x y = zip_with Rmult y x.
Proof.
  revert y. induction x as [|u x IH]; intros [|v y]; simpl; try done.
  rewrite IH. f_equal. ring.
Qed.

Lemma term_b1_sym (areas : list R) (g1 g2 : batched (list mat22)) :
  term_b1 areas g1 g2 = term_b1 areas g2 g1.
Proof.
  unfold term_b1.
  rewrite (bzip_sym _ (fun x y => Some (zip_with Rmult x y))); [done|].
  intros a b. by rewrite zip_with_Rmult_comm.
Qed.

Lemma trace_contraction_sym (ginv : list mat22) (x1 x2 : list mat32) :
  Forall symmetric22 ginv →
  map trace33
    (zip_with matmul_32_23 x1
       (zip_with matmul_22_23 ginv (map transpose32 x2)))
  = map trace33
      (zip_with matmul_32_23 x2
         (zip_with matmul_22_23 ginv (map transpose32 x1))).
Proof.
  intros Hg. revert x1 x2.
  induction Hg as [|[[g00 g01] [g10 g11]] ginv Hsym _ IH]; intros x1 x2.
  - by destruct x1, x2.
  - destruct x1 as [|[[[a00 a01] [a10 a11]] [a20 a21]] x1],
      x2 as [|[[[b00 b01] [b10 b11]] [b20 b21]] x2]; try done.
    cbn [map zip_with]. rewrite IH. f_equal.
    unfold symmetric22 in Hsym. cbn in Hsym. subst g10. cbn. ring.
Qed.

Lemma batch_contraction_sym {A B C : Type} (K : A → B → C) (G : A → B)
    (l1 l2 : list A) :
  (∀ a b, K a (G b) = K b (G a)) →
  map (fun p => K p.1 p.2) (zip l1 (map G l2))
  = map (fun p => K p.1 p.2) (zip l2 (map G l1)).
Proof.
  intros H. revert l2. induction l1 as [|a l1 IH]; intros [|b l2];
    simpl; try done.
  by rewrite H, IH.
Qed.

Lemma xi_0_Batch (B : list mat23) (ginv : list mat22)
    (o : batched (list mat23)) (X : batched (list mat32)) :
  xi_0 B ginv o = Some X → ∃ l, X = Batch l.
Proof.
  unfold xi_0. destruct o as [x|l]; [done|].
  cbn [transpose_0132 mbind option_bind bmap bzip].
  destruct (zip_same _ _ _) as [r|]; [|done]. cbn.
  intros [= <-]. by eexists.
Qed.

Lemma term_d1_sym (areas : list R) (B : list mat23) (ginv : list mat22)
    (oa ob : batched (list mat23)) :
  Forall symmetric22 ginv →
  term_d1 areas B ginv oa ob = term_d1 areas B ginv ob oa.
Proof.
  intros Hg. unfold term_d1.
  destruct (xi_0 B ginv oa) as [X1|] eqn:E1,
    (xi_0 B ginv ob) as [X2|] eqn:E2; cbn [mbind option_bind]; try done.
  apply xi_0_Batch in E1 as [l1 ->]. apply xi_0_Batch in E2 as [l2 ->].
  cbn [transpose_0132 mbind option_bind bmap bzip].
  unfold zip_same. rewrite !length_map.
  destruct (decide (length l1 = length l2)) as [Hl|Hl].
  - rewrite decide_True by done.
    rewrite !(mapM_Some_map (fun p => zip_with matmul_32_23 p.1 p.2)).
    cbn [fmap option_fmap option_map mbind option_bind bmap sum_all].
    do 3 f_equal. rewrite !map_map. f_equal.
    apply (batch_contraction_sym
      (fun a b =>
         zip_with Rmult (map trace33 (zip_with matmul_32_23 a b)) areas)
      (fun x => zip_with matmul_22_23 ginv (map transpose32 x))).
    intros a b. by rewrite trace_contraction_sym.
  - rewrite decide_False; [done|]. congruence.
Qed.

Lemma gram_symmetric (w : mat23) : symmetric22 (gram w).
Proof.
  destruct w as [r0 r1]. unfold symmetric22, gram. cbn. apply dot_comm.
Qed.

Lemma inv22_symmetric (g g' : mat22) :
  symmetric22 g → inv22 g = Some g' → symmetric22 g'.
Proof.
  destruct g as [[a b] [c d]]. unfold symmetric22, inv22. cbn.
  intros ->. destruct (decide _); [done|]. by intros [= <-].
Qed.

Lemma ginv_symmetric (one_forms : list mat23) (ginv : list mat22) :
  mapM inv22 (_surface_metric_matrices_from_one_forms one_forms) = Some ginv →
  Forall symmetric22 ginv.
Proof.
  unfold _surface_metric_matrices_from_one_forms. revert ginv.
  induction one_forms as [|w l IH]; intros ginv; cbn [map mapM].
  - intros [= <-]. constructor.
  - destruct (inv22 (gram w)) as [g'|] eqn:Hg; [|done].
    cbn [mbind option_bind].
    destruct (mapM inv22 (map gram l)) as [r|]; [|done].
    intros [= <-]. constructor; [|by apply IH].
    eapply inv22_symmetric; [apply gram_symmetric|done].
Qed.

Lemma mass_and_bending_block_sym (m : ElasticMetric)
    (h k : batched (list vec3)) (q : list vec3) (ip : batched R) :
  mass_and_bending_block m h k q ip = mass_and_bending_block m k h q ip.
Proof.
  unfold mass_and_bending_block. destruct (decide _); [|done].
  destruct (vertex_areas (space m) q) as [va|]; [|done].
  cbn [mbind option_bind].
  by rewrite (term_a0_sym va h k), (term_a2_sym (space m) va h k).
Qed.

Lemma metric_change_block_sym (m : ElasticMetric) (areas : list R)
    (g ginv : list mat22) (oa ob : batched (list mat23)) (ip : batched R) :
  metric_change_block m areas g ginv oa ob ip
  = metric_change_block m areas g ginv ob oa ip.
Proof.
  unfold metric_change_block. destruct (decide _); [|done].
  destruct (delta_metric g oa) as [dg1|], (delta_metric g ob) as [dg2|];
    cbn [mbind option_bind]; try done.
  by rewrite (term_a1_sym areas (bmap _ dg1)), (term_b1_sym areas (bmap _ dg1)).
Qed.

Lemma first_order_block_sym (m : ElasticMetric)
    (pa pb : batched (list vec3)) (q : list vec3) (ip : batched R) :
  first_order_block m pa pb q ip = first_order_block m pb pa q ip.
Proof.
  unfold first_order_block. destruct (decide _); [|done].
  destruct (surface_one_forms (space m) q) as [B|]; [|done].
  cbn [mbind option_bind].
  destruct (normals (space m) q) as [nq|]; [|done].
  cbn [mbind option_bind].
  rewrite (term_c1_sym (space m) _ nq pa pb).
  destruct (if decide (0 < c1 m) then _ else _) as [ip1|]; [|done].
  cbn [mbind option_bind]. destruct (decide _); [|done].
  destruct (mapM inv22 _) as [ginv|] eqn:Hginv; [|done].
  cbn [mbind option_bind].
  destruct (bmapM (surface_one_forms (space m)) pa) as [oa|],
    (bmapM (surface_one_forms (space m)) pb) as [ob|];
    cbn [mbind option_bind]; try done.
  rewrite (term_d1_sym _ B ginv oa ob) by (by eapply ginv_symmetric).
  destruct (if decide (0 < d1 m) then _ else _) as [ip2|]; [|done].
  cbn [mbind option_bind]. apply metric_change_block_sym.
Qed.

(** C5: for every pair of tangent vectors, every base point and every
    configuration of the six weights, the inner product of [h] and [k] equals
    the inner product of [k] and [h]; when one of the two fails, so does the
    other. *)
Theorem inner_product_symmetric (m : ElasticMetric)
    (h k : batched (list vec3)) (q : list vec3) :
  inner_product m h k q = inner_product m k h q.
Proof.
  unfold inner_product.
  destruct (bmapM (padd q) h) as [pa|], (bmapM (padd q) k) as [pb|];
    cbn [mbind option_bind]; try done.
  rewrite (mass_and_bending_block_sym m h k).
  destruct (mass_and_bending_block m k h q (Single 0)) as [ip|]; [|done].
  cbn [mbind option_bind]. apply first_order_block_sym.
Qed.

(** ** A value of the term of [a2] *)

Lemma cot_values_right_triangle :
  cot_values (0, 0, 0) (1, 0, 0) (0, 1, 0) = [0; 2; 2].
Proof.
  unfold cot_values. cbv zeta. rewrite !norm_sq.
  change (laplacian_area (0, 0, 0) (1, 0, 0) (0, 1, 0))
    with (triangle_area (0, 0, 0) (1, 0, 0) (0, 1, 0)).
  rewrite triangle_area_right_triangle. simpl.
  f_equal; [|f_equal; [|f_equal]]; field.
Qed.

Lemma laplacian_right_triangle :
  laplacian one_triangle right_triangle
  = Some (mkLaplacianOp 3 [0; 2; 2] [1; 2; 0]%nat [2; 0; 1]%nat).
Proof.
  rewrite laplacian_Some by (by apply one_triangle_in_range).
  change (concat (map (per_face cot_values right_triangle)
                    (faces one_triangle)))
    with (cot_values (0, 0, 0) (1, 0, 0) (0, 1, 0) ++ []).
  by rewrite cot_values_right_triangle.
Qed.

Lemma laplacian_shear_field :
  _laplacian (mkLaplacianOp 3 [0; 2; 2] [1; 2; 0]%nat [2; 0; 1]%nat)
    (Single shear_field)
  = Some (Single [(0, 0, 0); (0, -2, 0); (0, 0, 0)]).
Proof.
  unfold _laplacian, _laplacian_field. run_model. data_eq.
Qed.

(** The term of [a2] on the right triangle, for the shearing field. *)
Lemma inner_product_bending_example :
  inner_product (mkElasticMetric one_triangle 0 0 0 0 0 1)
    (Single shear_field) (Single shear_field) right_triangle
  = Some (Single 12).
Proof.
  rewrite inner_product_zeroth_order by (simpl; lra || by repeat constructor).
  unfold mass_and_bending_block. step.
  rewrite decide_True by (right; lra).
  rewrite vertex_areas_right_triangle. step.
  rewrite decide_False by lra. step. rewrite decide_True by lra.
  rewrite accumulate_zero. unfold term_a2.
  rewrite laplacian_right_triangle. step.
  rewrite laplacian_shear_field. step.
  run_model. unfold fdiv. rewrite !decide_False by lra. run_model.
  data_eq.
Qed.

(* ================================================================= *)
(** * Further properties of the code *)

(** ** Points on which the geometry is defined *)

Lemma amax_lt (fs : list face) (n : nat) :
  faces_in_range fs n → (0 < n)%nat → (amax fs < n)%nat.
Proof.
  unfold amax. induction 1 as [|f fs (H0 & H1 & H2) _ IH]; intros Hn;
    simpl; [done|].
  specialize (IH Hn). lia.
Qed.

Lemma in_range_n_vertices (sp : DiscreteSurfaces) (n : nat) :
  faces sp ≠ [] →
  faces_in_range (faces sp) n ↔ (n_vertices sp <= n)%nat.
Proof.
  intros Hne. unfold n_vertices. split.
  - intros H. apply amax_lt; [done|].
    destruct (faces sp) as [|f fs]; [done|].
    apply Forall_cons in H as [(H0 & _) _]. lia.
  - intros H. apply Forall_forall. intros f Hf.
    pose proof (amax_ge _ _ Hf). lia.
Qed.

(** X1: The gather of the corners, and with it every geometric quantity, is
    defined exactly on the points that have at least [n_vertices] rows: a
    shorter point makes the index [n_vertices - 1] fall outside the array. *)
Theorem geometry_defined_iff_enough_rows (sp : DiscreteSurfaces)
    (q : list vec3) :
  faces sp ≠ [] →
  ((n_vertices sp <= length q)%nat →
   is_Some (_vertices sp q) ∧ is_Some (_triangle_areas sp q)
   ∧ is_Some (vertex_areas sp q) ∧ is_Some (normals sp q)
   ∧ is_Some (surface_one_forms sp q) ∧ is_Some (face_areas sp q)
   ∧ is_Some (laplacian sp q))
  ∧ ((length q < n_vertices sp)%nat →
     _vertices sp q = None ∧ _triangle_areas sp q = None
     ∧ vertex_areas sp q = None ∧ normals sp q = None
     ∧ surface_one_forms sp q = None ∧ face_areas sp q = None
     ∧ laplacian sp q = None).
Proof.
  intros Hne. split.
  - intros Hn. apply (in_range_n_vertices sp _ Hne) in Hn.
    rewrite vertices_Some, triangle_areas_Some, normals_Some,
      surface_one_forms_Some, face_areas_Some, laplacian_Some by done.
    destruct (vertex_areas_total sp q Hn) as (va & -> & _).
    repeat split; by eexists.
  - intros Hn.
    assert (Hv : _vertices sp q = None).
    { destruct (_vertices sp q) as [r|] eqn:Hr; [|done].
      apply vertices_inv, (in_range_n_vertices sp _ Hne) in Hr. lia. }
    unfold _triangle_areas, vertex_areas, normals, face_areas,
      surface_metric_matrices, surface_one_forms, laplacian, _triangle_areas.
    by rewrite Hv.
Qed.

Lemma geometry_defined_iff_enough_rows_witness :
  (is_Some (_vertices one_triangle right_triangle)
   ∧ is_Some (_triangle_areas one_triangle right_triangle)
   ∧ is_Some (vertex_areas one_triangle right_triangle)
   ∧ is_Some (normals one_triangle right_triangle)
   ∧ is_Some (surface_one_forms one_triangle right_triangle)
   ∧ is_Some (face_areas one_triangle right_triangle)
   ∧ is_Some (laplacian one_triangle right_triangle))
  ∧ (_vertices one_triangle [(0, 0, 0)] = None
     ∧ _triangle_areas one_triangle [(0, 0, 0)] = None
     ∧ vertex_areas one_triangle [(0, 0, 0)] = None
     ∧ normals one_triangle [(0, 0, 0)] = None
     ∧ surface_one_forms one_triangle [(0, 0, 0)] = None
     ∧ face_areas one_triangle [(0, 0, 0)] = None
     ∧ laplacian one_triangle [(0, 0, 0)] = None).
Proof.
  split.
  - apply (geometry_defined_iff_enough_rows one_triangle right_triangle);
      [discriminate|vm_compute; lia].
  - apply (geometry_defined_iff_enough_rows one_triangle [(0, 0, 0)]);
      [discriminate|vm_compute; lia].
Defined.

Lemma dot_normal_edges (v0 v1 v2 : vec3) :
  dot (normal_at v0 v1 v2) (vsub v1 v0) = 0
  ∧ dot (normal_at v0 v1 v2) (vsub v2 v0) = 0.
Proof.
  unfold normal_at. rewrite half_inv.
  destruct v0 as [[x0 y0] z0], v1 as [[x1 y1] z1], v2 as [[x2 y2] z2].
  simpl. split; field.
Qed.

(** X2: Every vector that [normals] returns is orthogonal to the two rows of
    the one-form of its face, the edge vectors [vertex_1 - vertex_0] and
    [vertex_2 - vertex_0]. *)
Theorem normals_orthogonal_to_one_forms (sp : DiscreteSurfaces)
    (q : list vec3) :
  belongs sp q = true →
  ∃ (ns : list vec3) (ws : list mat23),
    normals sp q = Some ns
    ∧ surface_one_forms sp q = Some ws
    ∧ Forall2 (fun n w => dot n w.1 = 0 ∧ dot n w.2 = 0) ns ws.
Proof.
  intros Hq%belongs_in_range.
  eexists _, _. split; [by apply normals_Some|].
  split; [by apply surface_one_forms_Some|].
  apply Forall2_fmap, Forall_Forall2_diag, Forall_forall.
  intros f _. apply dot_normal_edges.
Qed.

Lemma normals_orthogonal_to_one_forms_witness :
  belongs one_triangle right_triangle = true
  ∧ ∃ (ns : list vec3) (ws : list mat23),
      normals one_triangle right_triangle = Some ns
      ∧ surface_one_forms one_triangle right_triangle = Some ws
      ∧ Forall2 (fun n w => dot n w.1 = 0 ∧ dot n w.2 = 0) ns ws.
Proof.
  split; [reflexivity|].
  apply (normals_orthogonal_to_one_forms one_triangle right_triangle).
  reflexivity.
Defined.

Lemma gram_psd (w : mat23) :
  symmetric22 (gram w)
  ∧ 0 <= (gram w).1.1 ∧ 0 <= (gram w).2.2 ∧ 0 <= det22 (gram w).
Proof.
  split; [apply gram_symmetric|]. destruct w as [r0 r1]. cbn.
  split; [apply dot_self_nonneg|]. split; [apply dot_self_nonneg|].
  destruct r0 as [[a b] c], r1 as [[d e] f].
  pose proof (dot_self_nonneg (cross (a, b, c) (d, e, f))) as H.
  simpl in *. eapply Rle_trans; [exact H|]. apply Req_le. ring.
Qed.

(** X3: Every metric matrix is symmetric, with a diagonal and a determinant
    that are not negative (a positive semi-definite matrix); its determinant
    is four times the radicand of Heron's formula of the face, so that
    [face_areas] never takes the root of a negative number. *)
Theorem surface_metric_matrices_psd (sp : DiscreteSurfaces) (q : list vec3) :
  belongs sp q = true →
  ∃ gs : list mat22,
    surface_metric_matrices sp q = Some gs
    ∧ length gs = n_faces sp
    ∧ Forall (fun g => symmetric22 g ∧ 0 <= g.1.1 ∧ 0 <= g.2.2
                       ∧ 0 <= det22 g) gs
    ∧ map det22 gs
      = map (fun f => 4 * per_face heron_radicand q f) (faces sp).
Proof.
  intros Hq%belongs_in_range. unfold surface_metric_matrices.
  rewrite surface_one_forms_Some by done. cbn.
  unfold _surface_metric_matrices_from_one_forms.
  eexists. split; [done|]. rewrite !length_map. split; [done|]. split.
  - apply Forall_map, Forall_map, Forall_forall. intros f _.
    apply gram_psd.
  - rewrite !map_map. apply map_ext. intros f. unfold per_face.
    rewrite heron_gram. field.
Qed.

Lemma surface_metric_matrices_psd_witness :
  belongs one_triangle right_triangle = true
  ∧ ∃ gs : list mat22,
      surface_metric_matrices one_triangle right_triangle = Some gs
      ∧ length gs = n_faces one_triangle
      ∧ Forall (fun g => symmetric22 g ∧ 0 <= g.1.1 ∧ 0 <= g.2.2
                         ∧ 0 <= det22 g) gs
      ∧ map det22 gs
        = map (fun f => 4 * per_face heron_radicand right_triangle f)
            (faces one_triangle).
Proof.
  split; [reflexivity|].
  apply (surface_metric_matrices_psd one_triangle right_triangle).
  reflexivity.
Defined.

(** ** Invariance under translations *)

Lemma vsub_translate (t a b : vec3) : vsub (vadd a t) (vadd b t) = vsub a b.
Proof.
  destruct t as [[t0 t1] t2], a as [[a0 a1] a2], b as [[b0 b1] b2].
  unfold vsub, vadd. f_equal; [f_equal|]; ring.
Qed.

Lemma take_rows_translate (t : vec3) (q : list vec3) (idx : list nat) :
  take_rows (translate t q) idx = translate t <$> take_rows q idx.
Proof.
  unfold take_rows, translate. induction idx as [|i idx IH]; [done|].
  cbn [mapM]. rewrite IH, list_lookup_fmap.
  destruct (q !! i); [|done]. cbn.
  by destruct (mapM (fun i => q !! i) idx).
Qed.

Lemma vertices_translate (sp : DiscreteSurfaces) (t : vec3) (q : list vec3) :
  _vertices sp (translate t q)
  = (fun r : list vec3 * list vec3 * list vec3 =>
       (translate t r.1.1, translate t r.1.2, translate t r.2))
    <$> _vertices sp q.
Proof.
  unfold _vertices. rewrite !take_rows_translate.
  destruct (take_rows q (column 0 (faces sp))) as [r0|]; [|done].
  destruct (take_rows q (column 1 (faces sp))) as [r1|]; [|done].
  by destruct (take_rows q (column 2 (faces sp))) as [r2|].
Qed.

Lemma map3_translate {A : Type} (g : vec3 → vec3 → vec3 → A) (t : vec3)
    (l0 l1 l2 : list vec3) :
  (∀ v0 v1 v2, g (vadd v0 t) (vadd v1 t) (vadd v2 t) = g v0 v1 v2) →
  map3 g (translate t l0) (translate t l1) (translate t l2) = map3 g l0 l1 l2.
Proof.
  intros H. revert l1 l2. induction l0 as [|x l0 IH]; intros [|y l1] [|z l2];
    simpl; try done.
  by rewrite H, IH.
Qed.

Lemma heron_radicand_translate (t v0 v1 v2 : vec3) :
  heron_radicand (vadd v0 t) (vadd v1 t) (vadd v2 t) = heron_radicand v0 v1 v2.
Proof. unfold heron_radicand. by rewrite !vsub_translate. Qed.

Lemma triangle_area_translate (t v0 v1 v2 : vec3) :
  triangle_area (vadd v0 t) (vadd v1 t) (vadd v2 t) = triangle_area v0 v1 v2.
Proof. unfold triangle_area. by rewrite heron_radicand_translate. Qed.

Lemma normal_at_translate (t v0 v1 v2 : vec3) :
  normal_at (vadd v0 t) (vadd v1 t) (vadd v2 t) = normal_at v0 v1 v2.
Proof. unfold normal_at. by rewrite !vsub_translate. Qed.

Lemma one_form_at_translate (t v0 v1 v2 : vec3) :
  one_form_at (vadd v0 t) (vadd v1 t) (vadd v2 t) = one_form_at v0 v1 v2.
Proof. unfold one_form_at. by rewrite !vsub_translate. Qed.

Lemma cot_at_translate (t v0 v1 v2 : vec3) :
  cot_at (vadd v0 t) (vadd v1 t) (vadd v2 t) = cot_at v0 v1 v2.
Proof.
  unfold cot_at, laplacian_area.
  by rewrite heron_radicand_translate, !vsub_translate.
Qed.

Lemma triangle_areas_translate (sp : DiscreteSurfaces) (t : vec3)
    (q : list vec3) :
  _triangle_areas sp (translate t q) = _triangle_areas sp q.
Proof.
  unfold _triangle_areas. rewrite vertices_translate.
  destruct (_vertices sp q) as [[[r0 r1] r2]|]; [|done].
  cbn [fmap option_fmap option_map mbind option_bind fst snd].
  by rewrite (map3_translate _ t _ _ _ (triangle_area_translate t)).
Qed.

Lemma normals_translate (sp : DiscreteSurfaces) (t : vec3) (q : list vec3) :
  normals sp (translate t q) = normals sp q.
Proof.
  unfold normals. rewrite vertices_translate.
  destruct (_vertices sp q) as [[[r0 r1] r2]|]; [|done].
  cbn [fmap option_fmap option_map mbind option_bind fst snd].
  by rewrite (map3_translate _ t _ _ _ (normal_at_translate t)).
Qed.

Lemma surface_one_forms_translate (sp : DiscreteSurfaces) (t : vec3)
    (q : list vec3) :
  surface_one_forms sp (translate t q) = surface_one_forms sp q.
Proof.
  unfold surface_one_forms. rewrite vertices_translate.
  destruct (_vertices sp q) as [[[r0 r1] r2]|]; [|done].
  cbn [fmap option_fmap option_map mbind option_bind fst snd].
  by rewrite (map3_translate _ t _ _ _ (one_form_at_translate t)).
Qed.

Lemma vertex_areas_translate (sp : DiscreteSurfaces) (t : vec3)
    (q : list vec3) :
  vertex_areas sp (translate t q) = vertex_areas sp q.
Proof.
  unfold vertex_areas. rewrite triangle_areas_translate.
  unfold translate. by rewrite length_map.
Qed.

Lemma laplacian_translate (sp : DiscreteSurfaces) (t : vec3) (q : list vec3) :
  laplacian sp (translate t q) = laplacian sp q.
Proof.
  unfold laplacian. rewrite vertices_translate.
  destruct (_vertices sp q) as [[[r0 r1] r2]|]; [|done].
  cbn [fmap option_fmap option_map mbind option_bind fst snd].
  rewrite (map3_translate _ t _ _ _ (cot_at_translate t)).
  unfold translate. by rewrite length_map.
Qed.

(** X4: The geometric quantities of a surface do not change when the surface
    is translated: they are computed from differences of vertices only. A call
    that fails on the surface fails on the translated surface. *)
Theorem geometry_translation_invariant (sp : DiscreteSurfaces) (t : vec3)
    (q : list vec3) :
  _triangle_areas sp (translate t q) = _triangle_areas sp q
  ∧ vertex_areas sp (translate t q) = vertex_areas sp q
  ∧ normals sp (translate t q) = normals sp q
  ∧ surface_one_forms sp (translate t q) = surface_one_forms sp q
  ∧ surface_metric_matrices sp (translate t q) = surface_metric_matrices sp q
  ∧ face_areas sp (translate t q) = face_areas sp q
  ∧ laplacian sp (translate t q) = laplacian sp q.
Proof.
  unfold face_areas, surface_metric_matrices.
  rewrite triangle_areas_translate, vertex_areas_translate, normals_translate,
    surface_one_forms_translate, laplacian_translate.
  done.
Qed.

Lemma padd_translate (t : vec3) (q h : list vec3) :
  padd (translate t q) h = translate t <$> padd q h.
Proof.
  unfold padd, translate. rewrite length_map.
  destruct (decide (length q = length h)); [|done]. cbn. f_equal.
  clear. revert h. induction q as [|[[a0 a1] a2] q IH];
    intros [|[[b0 b1] b2] h]; simpl; try done.
  rewrite IH. f_equal. destruct t as [[t0 t1] t2]. simpl.
  f_equal; [f_equal|]; ring.
Qed.

Lemma bmapM_padd_translate (t : vec3) (q : list vec3)
    (h : batched (list vec3)) :
  bmapM (padd (translate t q)) h
  = bmap (translate t) <$> bmapM (padd q) h.
Proof.
  destruct h as [x|xs]; cbn [bmapM].
  - rewrite padd_translate. by destruct (padd q x).
  - rewrite (mapM_ext_eq _ (fun x => translate t <$> padd q x))
      by (intros x; apply padd_translate).
    rewrite <- mapM_fmap_Some. by destruct (mapM (padd q) xs).
Qed.

Lemma bmapM_translate {A : Type} (f : list vec3 → option A) (t : vec3)
    (p : batched (list vec3)) :
  (∀ x, f (translate t x) = f x) →
  bmapM f (bmap (translate t) p) = bmapM f p.
Proof.
  intros H. destruct p as [x|xs]; cbn [bmap bmapM].
  - by rewrite H.
  - f_equal. induction xs as [|x xs IH]; [done|]. cbn [map mapM].
    by rewrite H, IH.
Qed.

Lemma term_a2_translate (sp : DiscreteSurfaces) (va : list R)
    (h k : batched (list vec3)) (t : vec3) (q : list vec3) :
  term_a2 sp va h k (translate t q) = term_a2 sp va h k q.
Proof. unfold term_a2. by rewrite laplacian_translate. Qed.

Lemma term_c1_translate (sp : DiscreteSurfaces) (areas : list R)
    (nq : list vec3) (t : vec3) (pa pb : batched (list vec3)) :
  term_c1 sp areas nq (bmap (translate t) pa) (bmap (translate t) pb)
  = term_c1 sp areas nq pa pb.
Proof.
  unfold term_c1.
  by rewrite !(bmapM_translate (normals sp) t)
    by (intros x; apply normals_translate).
Qed.

Lemma mass_and_bending_block_translate (m : ElasticMetric)
    (h k : batched (list vec3)) (t : vec3) (q : list vec3) (ip : batched R) :
  mass_and_bending_block m h k (translate t q) ip
  = mass_and_bending_block m h k q ip.
Proof.
  unfold mass_and_bending_block. rewrite vertex_areas_translate.
  destruct (decide _); [|done].
  destruct (vertex_areas (space m) q) as [va|]; [|done].
  cbn [mbind option_bind]. by rewrite term_a2_translate.
Qed.

Lemma first_order_block_translate (m : ElasticMetric)
    (pa pb : batched (list vec3)) (t : vec3) (q : list vec3)
    (ip : batched R) :
  first_order_block m (bmap (translate t) pa) (bmap (translate t) pb)
    (translate t q) ip
  = first_order_block m pa pb q ip.
Proof.
  unfold first_order_block.
  rewrite surface_one_forms_translate, normals_translate.
  destruct (decide _); [|done].
  destruct (surface_one_forms (space m) q) as [B|]; [|done].
  cbn [mbind option_bind].
  destruct (normals (space m) q) as [nq|]; [|done].
  cbn [mbind option_bind]. rewrite term_c1_translate.
  destruct (if decide (0 < c1 m) then _ else _) as [ip1|]; [|done].
  cbn [mbind option_bind]. destruct (decide _); [|done].
  destruct (mapM inv22 _) as [ginv|]; [|done].
  cbn [mbind option_bind].
  by rewrite !(bmapM_translate (surface_one_forms (space m)) t)
    by (intros x; apply surface_one_forms_translate).
Qed.

(** X5: The inner product does not change when the base point is translated,
    for all weights and tangent vectors; the two calls fail together. *)
Theorem inner_product_translation_invariant (m : ElasticMetric)
    (h k : batched (list vec3)) (t : vec3) (q : list vec3) :
  inner_product m h k (translate t q) = inner_product m h k q.
Proof.
  unfold inner_product. rewrite !bmapM_padd_translate.
  destruct (bmapM (padd q) h) as [pa|]; [|done].
  destruct (bmapM (padd q) k) as [pb|]; [|done].
  cbn [fmap option_fmap option_map mbind option_bind].
  rewrite mass_and_bending_block_translate.
  destruct (mass_and_bending_block m h k q (Single 0)) as [ip|]; [|done].
  cbn [mbind option_bind]. apply first_order_block_translate.
Qed.

(** ** The entries of the vertex areas *)

Lemma contributions_cons (i : nat) (index : list nat) (s : R) (src : list R)
    (v : nat) :
  contributions (i :: index) (s :: src) v
  = (if decide (i = v) then s else 0) + contributions index src v.
Proof.
  unfold contributions. cbn [zip zip_with].
  destruct (decide (i = v)) as [->|Hne].
  - rewrite filter_cons_True by done. done.
  - rewrite filter_cons_False by done. lra.
Qed.

Lemma scatter_add_lookup (index : list nat) (src input out : list R) :
  scatter_add input index src = Some out →
  ∀ (v : nat) (x : R),
    input !! v = Some x → out !! v = Some (x + contributions index src v).
Proof.
  revert src input. induction index as [|i index IH]; intros src input H v x Hx.
  - cbn in H. injection H as <-. rewrite Hx. f_equal.
    unfold contributions. cbn. lra.
  - destruct src as [|s src].
    + cbn in H. injection H as <-. rewrite Hx. f_equal.
      unfold contributions. rewrite zip_with_nil_r. cbn. lra.
    + cbn [scatter_add] in H.
      destruct (input !! i) as [y|] eqn:Hy; [|done].
      cbn [mbind option_bind] in H. rewrite contributions_cons.
      destruct (decide (i = v)) as [->|Hne].
      * rewrite Hx in Hy. injection Hy as <-.
        rewrite (IH _ _ H v (x + s)).
        -- f_equal. lra.
        -- apply list_lookup_insert_eq. by eapply lookup_lt_Some.
      * rewrite (IH _ _ H v x).
        -- f_equal. lra.
        -- by rewrite list_lookup_insert_ne.
Qed.

Lemma contributions_nonneg (index : list nat) (src : list R) (v : nat) :
  Forall (fun s => 0 <= s) src → 0 <= contributions index src v.
Proof.
  intros H. revert index. induction H as [|s src Hs _ IH]; intros [|i index].
  - unfold contributions. cbn. lra.
  - unfold contributions. rewrite zip_with_nil_r. cbn. lra.
  - unfold contributions. cbn. lra.
  - rewrite contributions_cons. specialize (IH index).
    destruct (decide (i = v)); lra.
Qed.

Lemma contributions_absent (index : list nat) (src : list R) (v : nat) :
  v ∉ index → contributions index src v = 0.
Proof.
  revert src. induction index as [|i index IH]; intros src Hv.
  - unfold contributions. cbn. done.
  - destruct src as [|s src].
    + unfold contributions. cbn. done.
    + rewrite contributions_cons. apply not_elem_of_cons in Hv as [Hne Hv].
      rewrite decide_False by done. rewrite IH by done. lra.
Qed.

Lemma contributions_present (index : list nat) (src : list R) (v : nat)
    (c : R) :
  0 <= c → Forall (fun s => c <= s) src → length index = length src →
  v ∈ index → c <= contributions index src v.
Proof.
  intros Hc Hsrc. revert index.
  induction Hsrc as [|s src Hs Hsrc IH]; intros [|i index] Hlen Hv;
    try done.
  - by apply elem_of_nil in Hv.
  - rewrite contributions_cons.
    assert (0 <= contributions index src v).
    { apply contributions_nonneg. eapply Forall_impl; [exact Hsrc|].
      intros; simpl in *; lra. }
    destruct (decide (i = v)) as [->|Hne]; [lra|].
    apply elem_of_cons in Hv as [->|Hv]; [done|].
    cbn in Hlen. specialize (IH index ltac:(lia) Hv). lra.
Qed.

Lemma triangle_area_floor (v0 v1 v2 : vec3) :
  / 1000 <= triangle_area v0 v1 v2.
Proof. apply laplacian_area_floor. Qed.

Lemma lookup_three_copies (ta : list R) (j : nat) :
  (j < 3 * length ta)%nat →
  (ta ++ ta ++ ta) !! j = ta !! (j mod length ta)%nat.
Proof.
  intros Hj. set (F := length ta) in *.
  destruct (decide (j < F)%nat) as [H1|H1].
  - rewrite lookup_app_l by done. by rewrite Nat.mod_small.
  - rewrite lookup_app_r by (fold F; lia). fold F.
    destruct (decide (j - F < F)%nat) as [H2|H2].
    + rewrite lookup_app_l by done. f_equal.
      apply (Nat.mod_unique j F 1); lia.
    + rewrite lookup_app_r by (fold F; lia). fold F. f_equal.
      apply (Nat.mod_unique j F 2); lia.
Qed.

Lemma vertex_areas_lookup (sp : DiscreteSurfaces) (q : list vec3) :
  faces_in_range (faces sp) (length q) →
  ∃ va : list R,
    vertex_areas sp q = Some va
    ∧ length va = length q
    ∧ ∀ v : nat, (v < length q)%nat →
        va !! v
        = Some (2 * contributions (flatten_faces (faces sp))
                      (map (per_face triangle_area q) (faces sp)
                       ++ map (per_face triangle_area q) (faces sp)
                       ++ map (per_face triangle_area q) (faces sp)) v / 3).
Proof.
  intros Hq. unfold vertex_areas. rewrite triangle_areas_Some by done.
  cbn [mbind option_bind].
  set (ta := map (per_face triangle_area q) (faces sp)).
  destruct (scatter_add_total (flatten_faces (faces sp))
              (ta ++ ta ++ ta) (replicate (length q) 0))
    as (out & Hout & Hl & _).
  - rewrite length_replicate. by apply flatten_faces_in_range.
  - rewrite flatten_faces_length, !length_app. unfold ta.
    rewrite length_map. lia.
  - rewrite Hout. cbn [mbind option_bind]. eexists. split; [done|].
    rewrite length_map, Hl, length_replicate. split; [done|].
    intros v Hv. rewrite list_lookup_fmap.
    rewrite (scatter_add_lookup _ _ _ _ Hout v 0)
      by (by apply lookup_replicate_2).
    cbn. do 2 f_equal. lra.
Qed.

(** X6: The entry of [vertex_areas] at a vertex [v] is two thirds of the total
    of the entries of [val] at the positions where the flattened face array
    holds [v]; [val] is three copies of the area array, so that position [j]
    of the flattened face array (corner [j mod 3] of face [j / 3]) is paired
    with the area of face [j mod n_faces]. *)
Theorem vertex_areas_entries (sp : DiscreteSurfaces) (q : list vec3) :
  belongs sp q = true →
  ∃ va ta : list R,
    vertex_areas sp q = Some va
    ∧ _triangle_areas sp q = Some ta
    ∧ length va = n_vertices sp
    ∧ length ta = n_faces sp
    ∧ (∀ v : nat, (v < n_vertices sp)%nat →
         va !! v
         = Some (2 * contributions (flatten_faces (faces sp))
                       (ta ++ ta ++ ta) v / 3))
    ∧ (∀ j : nat, (j < 3 * n_faces sp)%nat →
         (ta ++ ta ++ ta) !! j = ta !! (j mod n_faces sp)%nat).
Proof.
  intros Hb. pose proof (belongs_in_range _ _ Hb) as Hq.
  apply bool_decide_eq_true in Hb.
  destruct (vertex_areas_lookup sp q Hq) as (va & Hva & Hl & Hlook).
  exists va. eexists. split; [done|].
  split; [by apply triangle_areas_Some|].
  split; [congruence|]. rewrite length_map. split; [done|]. split.
  - intros v Hv. apply Hlook. lia.
  - intros j Hj. unfold n_faces in *.
    rewrite <- (length_map (per_face triangle_area q) (faces sp)) in *.
    by apply lookup_three_copies.
Qed.

Lemma vertex_areas_entries_witness :
  belongs one_triangle right_triangle = true
  ∧ ∃ va ta : list R,
      vertex_areas one_triangle right_triangle = Some va
      ∧ _triangle_areas one_triangle right_triangle = Some ta
      ∧ length va = n_vertices one_triangle
      ∧ length ta = n_faces one_triangle
      ∧ (∀ v : nat, (v < n_vertices one_triangle)%nat →
           va !! v
           = Some (2 * contributions (flatten_faces (faces one_triangle))
                         (ta ++ ta ++ ta) v / 3))
      ∧ (∀ j : nat, (j < 3 * n_faces one_triangle)%nat →
           (ta ++ ta ++ ta) !! j = ta !! (j mod n_faces one_triangle)%nat).
Proof.
  split; [reflexivity|].
  apply (vertex_areas_entries one_triangle right_triangle). reflexivity.
Defined.

(** The sign of the entries of [vertex_areas], from the floor of the areas
    that it accumulates. *)
Lemma vertex_areas_bounds (sp : DiscreteSurfaces) (q : list vec3) :
  faces_in_range (faces sp) (length q) →
  ∃ va : list R,
    vertex_areas sp q = Some va
    ∧ length va = length q
    ∧ (∀ (v : nat) (a : R), va !! v = Some a →
         0 <= a
         ∧ (v ∈ flatten_faces (faces sp) → 2 / 3000 <= a)
         ∧ (v ∉ flatten_faces (faces sp) → a = 0)).
Proof.
  intros Hq.
  destruct (vertex_areas_lookup sp q Hq) as (va & Hva & Hl & Hlook).
  exists va. split; [done|]. split; [done|].
  set (ta := map (per_face triangle_area q) (faces sp)) in *.
  assert (Hval : Forall (fun a => / 1000 <= a) (ta ++ ta ++ ta)).
  { rewrite !Forall_app.
    assert (Forall (fun a => / 1000 <= a) ta); [|done].
    apply Forall_map, Forall_forall. intros f _. apply triangle_area_floor. }
  intros v a Hv.
  rewrite Hlook in Hv by (rewrite <- Hl; by eapply lookup_lt_Some).
  injection Hv as <-. split; [|split].
  - assert (0 <= contributions (flatten_faces (faces sp)) (ta ++ ta ++ ta) v).
    { apply contributions_nonneg. eapply Forall_impl; [exact Hval|].
      intros; simpl in *; lra. }
    lra.
  - intros Hin.
    assert (/ 1000 <= contributions (flatten_faces (faces sp))
                        (ta ++ ta ++ ta) v).
    { apply contributions_present; [lra|done| |done].
      rewrite flatten_faces_length, !length_app. unfold ta.
      rewrite length_map. lia. }
    lra.
  - intros Hout. rewrite contributions_absent by done. lra.
Qed.

(** X7: Every area of [_triangle_areas] is at least [1e-3]; every vertex area
    is nonnegative, at least [2e-3 / 3] at a vertex that occurs in a face, and
    0 at a vertex that occurs in no face. *)
Theorem vertex_areas_sign (sp : DiscreteSurfaces) (q : list vec3) :
  belongs sp q = true →
  ∃ va ta : list R,
    vertex_areas sp q = Some va
    ∧ _triangle_areas sp q = Some ta
    ∧ Forall (fun a => / 1000 <= a) ta
    ∧ (∀ (v : nat) (a : R), va !! v = Some a →
         0 <= a
         ∧ (v ∈ flatten_faces (faces sp) → 2 / 3000 <= a)
         ∧ (v ∉ flatten_faces (faces sp) → a = 0)).
Proof.
  intros Hq%belongs_in_range.
  destruct (vertex_areas_bounds sp q Hq) as (va & Hva & _ & Hsign).
  exists va. eexists. split; [done|].
  split; [by apply triangle_areas_Some|]. split; [|done].
  apply Forall_map, Forall_forall. intros f _. apply triangle_area_floor.
Qed.

Lemma vertex_areas_sign_witness :
  belongs one_triangle right_triangle = true
  ∧ ∃ va ta : list R,
      vertex_areas one_triangle right_triangle = Some va
      ∧ _triangle_areas one_triangle right_triangle = Some ta
      ∧ Forall (fun a => / 1000 <= a) ta
      ∧ (∀ (v : nat) (a : R), va !! v = Some a →
           0 <= a
           ∧ (v ∈ flatten_faces (faces one_triangle) → 2 / 3000 <= a)
           ∧ (v ∉ flatten_faces (faces one_triangle) → a = 0)).
Proof.
  split; [reflexivity|].
  apply (vertex_areas_sign one_triangle right_triangle). reflexivity.
Defined.

(** ** The term of [a2] at a vertex without face *)

Lemma scatter_add_Some (index : list nat) (src input : list R) :
  Forall (fun i => (i < length input)%nat) index →
  ∃ out : list R,
    scatter_add input index src = Some out ∧ length out = length input.
Proof.
  revert src input. induction index as [|i index IH]; intros src input Hi.
  - by exists input.
  - destruct src as [|s src]; [by exists input|].
    apply Forall_cons in Hi as [Hi Hrest]. cbn [scatter_add].
    destruct (lookup_lt_is_Some_2 input i Hi) as [x Hx]. rewrite Hx.
    cbn [mbind option_bind].
    destruct (IH src (<[i := x + s]> input)) as (out & Hout & Hl).
    + by rewrite length_insert.
    + exists out. split; [done|]. by rewrite Hl, length_insert.
Qed.

Lemma map3_length {A B C D : Type} (f : A → B → C → D)
    (l0 : list A) (l1 : list B) (l2 : list C) (n : nat) :
  length l0 = n → length l1 = n → length l2 = n →
  length (map3 f l0 l1 l2) = n.
Proof.
  revert l0 l1 l2. induction n as [|n IH]; intros [|x l0] [|y l1] [|z l2];
    simpl; try done.
  intros. f_equal. apply IH; lia.
Qed.

(** The operator of a base point is defined on every field that has a row
    for every vertex index of the mesh, and returns one row per vertex of the
    base point. *)
Lemma laplacian_field_Some (n : nat) (cot : list R) (fs : list face)
    (h : list vec3) :
  faces_in_range fs n → faces_in_range fs (length h) →
  ∃ out : list vec3,
    _laplacian_field
      (mkLaplacianOp n cot (id_vertices_120 fs) (id_vertices_201 fs)) h
    = Some out
    ∧ length out = n.
Proof.
  intros Hn Hh. unfold _laplacian_field. cbn [lap_id_vertices_0
    lap_id_vertices_1 lap_cot lap_n_vertices].
  rewrite !take_rows_Some
    by (by apply id_vertices_120_in_range || by apply id_vertices_201_in_range).
  cbn [mbind option_bind].
  set (values := zip_with vscale cot _).
  assert (Hidx : Forall (fun i => (i < length (replicate n 0%R))%nat)
                   (id_vertices_201 fs)).
  { rewrite length_replicate. by apply id_vertices_201_in_range. }
  destruct (scatter_add_Some _ (map (coord 0) values) _ Hidx)
    as (o0 & -> & H0).
  destruct (scatter_add_Some _ (map (coord 1) values) _ Hidx)
    as (o1 & -> & H1).
  destruct (scatter_add_Some _ (map (coord 2) values) _ Hidx)
    as (o2 & -> & H2).
  cbn [mbind option_bind]. eexists. split; [done|].
  rewrite length_replicate in *. by apply map3_length.
Qed.

Lemma mapM_None_at {A B : Type} (f : A → option B) (l : list A) (i : nat)
    (x : A) :
  l !! i = Some x → f x = None → mapM f l = None.
Proof.
  intros Hx Hf. destruct (mapM f l) as [r|] eqn:Hr; [|done].
  assert (is_Some (mapM f l)) as Hs by (by rewrite Hr).
  apply mapM_is_Some_1 in Hs. rewrite Forall_forall in Hs.
  specialize (Hs x ltac:(by eapply list_elem_of_lookup_2)).
  cbn in Hs. rewrite Hf in Hs. by destruct Hs.
Qed.

(** X8: With [a2 > 0], the inner product is not a finite number at a point of
    the manifold that has a vertex in no face: the area of that vertex is 0
    and the term of [a2] divides by it. *)
Theorem bending_term_fails_at_unused_vertex (m : ElasticMetric)
    (h k q : list vec3) (v : nat) :
  belongs (space m) q = true →
  (v < n_vertices (space m))%nat →
  v ∉ flatten_faces (faces (space m)) →
  0 < a2 m →
  length h = length q → length k = length q →
  inner_product m (Single h) (Single k) q = None.
Proof.
  intros Hb Hv Hout Ha2 Hh Hk.
  pose proof (belongs_in_range _ _ Hb) as Hq.
  apply bool_decide_eq_true in Hb.
  destruct (vertex_areas_lookup _ q Hq) as (va & Hva & Hl & Hlook).
  assert (Hzero : va !! v = Some 0).
  { rewrite Hlook by lia. rewrite contributions_absent by done.
    f_equal. lra. }
  assert (Hterm : term_a2 (space m) va (Single h) (Single k) q = None).
  { unfold term_a2. rewrite laplacian_Some by done.
    cbn [mbind option_bind _laplacian bmapM].
    destruct (laplacian_field_Some (length q)
                (concat (map (per_face cot_values q) (faces (space m))))
                (faces (space m)) h) as (lh & -> & Hlh);
      [done|by rewrite Hh|].
    destruct (laplacian_field_Some (length q)
                (concat (map (per_face cot_values q) (faces (space m))))
                (faces (space m)) k) as (lk & -> & Hlk);
      [done|by rewrite Hk|].
    cbn [fmap option_fmap option_map mbind option_bind bzip bmapM].
    destruct (lookup_lt_is_Some_2 (zip_with dot lh lk) v) as [e He].
    { rewrite length_zip_with. lia. }
    rewrite (mapM_None_at _ _ v (e, 0)); [done| |].
    - by apply lookup_zip_Some.
    - unfold fdiv. cbn. by rewrite decide_True. }
  unfold inner_product.
  rewrite !bmapM_padd_Some by done. cbn [mbind option_bind].
  unfold mass_and_bending_block.
  rewrite decide_True by (by right). rewrite Hva. cbn [mbind option_bind].
  destruct (if decide (0 < a0 m) then _ else _) as [ip|]; [|done].
  cbn [mbind option_bind]. rewrite decide_True by done.
  by rewrite Hterm.
Qed.

Lemma bending_term_fails_at_unused_vertex_witness :
  inner_product (mkElasticMetric triangle_with_unused_vertex 1 0 0 0 0 1)
    (Single four_points) (Single four_points) four_points
  = None.
Proof.
  apply (bending_term_fails_at_unused_vertex
           (mkElasticMetric triangle_with_unused_vertex 1 0 0 0 0 1)
           four_points four_points four_points 2%nat).
  - reflexivity.
  - vm_compute. lia.
  - simpl. intros Hin. repeat (apply elem_of_cons in Hin as [Hin|Hin];
      [discriminate Hin|]). by apply elem_of_nil in Hin.
  - simpl. lra.
  - reflexivity.
  - reflexivity.
Defined.

(** ** First-order terms on tangent vectors without batch axis *)

Lemma bmapM_unbatched {A B : Type} (f : A → option B) (x : batched A)
    (y : batched B) :
  unbatched x → bmapM f x = Some y → unbatched y.
Proof.
  destruct x as [a|l]; [|done]. intros _. cbn.
  destruct (f a); [|done]. by intros [= <-].
Qed.

Lemma xi_0_unbatched (B : list mat23) (ginv : list mat22)
    (o : batched (list mat23)) :
  unbatched o → xi_0 B ginv o = None.
Proof. by destruct o. Qed.

Lemma delta_metric_unbatched (g : list mat22) (o : batched (list mat23)) :
  unbatched o → delta_metric g o = None.
Proof. by destruct o. Qed.

Lemma term_d1_unbatched (areas : list R) (B : list mat23)
    (ginv : list mat22) (oa ob : batched (list mat23)) :
  unbatched oa ∨ unbatched ob → term_d1 areas B ginv oa ob = None.
Proof.
  intros [H|H]; unfold term_d1.
  - by rewrite (xi_0_unbatched _ _ oa).
  - rewrite (xi_0_unbatched _ _ ob) by done. by destruct (xi_0 B ginv oa).
Qed.

Lemma metric_change_block_unbatched (m : ElasticMetric) (areas : list R)
    (g ginv : list mat22) (oa ob : batched (list mat23)) (ip : batched R) :
  0 < b1 m ∨ 0 < a1 m → unbatched oa ∨ unbatched ob →
  metric_change_block m areas g ginv oa ob ip = None.
Proof.
  intros Hw [H|H]; unfold metric_change_block; rewrite decide_True by done.
  - by rewrite (delta_metric_unbatched _ oa).
  - rewrite (delta_metric_unbatched _ ob) by done.
    by destruct (delta_metric g oa).
Qed.

Lemma first_order_block_unbatched (m : ElasticMetric)
    (pa pb : batched (list vec3)) (q : list vec3) (ip : batched R) :
  0 < a1 m ∨ 0 < b1 m ∨ (0 < d1 m ∧ 0 < c1 m) →
  unbatched pa ∨ unbatched pb →
  first_order_block m pa pb q ip = None.
Proof.
  intros Hw Hu. unfold first_order_block.
  rewrite decide_True by (destruct Hw as [|[|[]]]; auto).
  destruct (surface_one_forms (space m) q) as [B|]; [|done].
  cbn [mbind option_bind].
  destruct (normals (space m) q) as [nq|]; [|done].
  cbn [mbind option_bind].
  destruct (if decide (0 < c1 m) then _ else _) as [ip1|]; [|done].
  cbn [mbind option_bind].
  rewrite decide_True by (destruct Hw as [|[|[]]]; auto).
  destruct (mapM inv22 _) as [ginv|]; [|done].
  cbn [mbind option_bind].
  destruct (bmapM (surface_one_forms (space m)) pa) as [oa|] eqn:Ha;
    [|done].
  cbn [mbind option_bind].
  destruct (bmapM (surface_one_forms (space m)) pb) as [ob|] eqn:Hb;
    [|done].
  cbn [mbind option_bind].
  assert (Huo : unbatched oa ∨ unbatched ob).
  { destruct Hu as [Hu|Hu]; [left|right]; by eapply bmapM_unbatched. }
  destruct (decide (0 < d1 m)) as [Hd|Hd].
  - by rewrite term_d1_unbatched.
  - cbn [mbind option_bind]. apply metric_change_block_unbatched; [|done].
    destruct Hw as [|[|[]]]; auto. done.
Qed.

(** X9: The terms of [a1], [b1] and [d1] need the batch axis: when [a1 > 0] or
    [b1 > 0], or when [d1 > 0] and [c1 > 0], the inner product raises as soon
    as one of the two tangent vectors has the shape [[n_vertices, 3]] of the
    docstring (its one-forms have three axes and the transposition of four
    axes fails). *)
Theorem inner_product_needs_batch_axis (m : ElasticMetric)
    (h k : batched (list vec3)) (q : list vec3) :
  0 < a1 m ∨ 0 < b1 m ∨ (0 < d1 m ∧ 0 < c1 m) →
  unbatched h ∨ unbatched k →
  inner_product m h k q = None.
Proof.
  intros Hw Hu. unfold inner_product.
  destruct (bmapM (padd q) h) as [pa|] eqn:Ha; [|done].
  cbn [mbind option_bind].
  destruct (bmapM (padd q) k) as [pb|] eqn:Hb; [|done].
  cbn [mbind option_bind].
  destruct (mass_and_bending_block m h k q (Single 0)) as [ip|]; [|done].
  cbn [mbind option_bind]. apply first_order_block_unbatched; [done|].
  destruct Hu as [Hu|Hu]; [left|right]; by eapply bmapM_unbatched.
Qed.

Lemma inner_product_needs_batch_axis_witness :
  inner_product (mkElasticMetric one_triangle 0 1 0 0 0 0)
    (Single stretch_field) (Batch [stretch_field]) right_triangle
  = None.
Proof.
  apply (inner_product_needs_batch_axis
           (mkElasticMetric one_triangle 0 1 0 0 0 0)
           (Single stretch_field) (Batch [stretch_field]) right_triangle).
  - left. simpl. lra.
  - left. exact I.
Defined.

(** ** The term of [d1] on a batch *)

Lemma zip_with_map_same {A B C D : Type} (f : B → C → D) (g : A → B)
    (h : A → C) (l : list A) :
  zip_with f (map g l) (map h l) = map (fun x => f (g x) (h x)) l.
Proof. induction l as [|x l IH]; simpl; [done|]. by rewrite IH. Qed.

Lemma xi_0_batch (B : list mat23) (ginv : list mat22)
    (l : list (list mat23)) :
  xi_0 B ginv (Batch l) = Some (Batch (map (xi_0_one B ginv) l)).
Proof.
  unfold xi_0. cbn [transpose_0132 mbind option_bind bmap bzip].
  rewrite zip_same_Some by (by rewrite !length_map).
  cbn [fmap option_fmap option_map mbind option_bind bmap].
  do 2 f_equal. rewrite !map_map.
  rewrite zip_with_map_same, map_map. done.
Qed.

Lemma Rsum_concat (ls : list (list R)) :
  Rsum (concat ls) = Rsum (map Rsum ls).
Proof.
  induction ls as [|l ls IH]; [done|]. cbn [concat map].
  rewrite Rsum_app, IH. done.
Qed.

Lemma map_zip_maps {A B C D E : Type} (F : C → D → E) (X : A → C)
    (G : B → D) (l1 : list A) (l2 : list B) :
  map (fun p => F p.1 p.2) (zip (map X l1) (map G l2))
  = zip_with (fun a b => F (X a) (G b)) l1 l2.
Proof.
  revert l2. induction l1 as [|a l1 IH]; intros [|b l2]; simpl; try done.
  by rewrite IH.
Qed.

Lemma term_d1_batch (areas : list R) (B : list mat23) (ginv : list mat22)
    (l1 l2 : list (list mat23)) :
  term_d1 areas B ginv (Batch l1) (Batch l2)
  = if decide (length l1 = length l2)
    then Some (Single (Rsum (zip_with (d1_one areas B ginv) l1 l2)))
    else None.
Proof.
  unfold term_d1. rewrite !xi_0_batch.
  cbn [transpose_0132 mbind option_bind bmap bzip].
  unfold zip_same. rewrite !length_map.
  destruct (decide (length l1 = length l2)) as [Hl|Hl]; [|done].
  rewrite !(mapM_Some_map (fun p => zip_with matmul_32_23 p.1 p.2)).
  cbn [fmap option_fmap option_map mbind option_bind bmap sum_all].
  do 2 f_equal. rewrite Rsum_concat, !map_map.
  f_equal.
  rewrite (map_zip_maps
    (fun x y => Rsum (zip_with Rmult
                        (map trace33 (zip_with matmul_32_23 x y)) areas))
    (xi_0_one B ginv)
    (fun b => zip_with matmul_22_23 ginv
                (map transpose32 (xi_0_one B ginv b)))).
  done.
Qed.

(** X10: The term of [d1] has no batch axis: for two batches of one-forms of
    the same length it is one scalar, the sum over the batch of the values
    that the elements of the batch give when they are taken alone (the
    [gs.sum] of line 595 has no [axis]). *)
Theorem connection_term_sums_over_batch (areas : list R) (B : list mat23)
    (ginv : list mat22) (l1 l2 : list (list mat23)) :
  length l1 = length l2 →
  ∃ vals : list R,
    Forall2 (fun p v =>
               term_d1 areas B ginv (Batch [p.1]) (Batch [p.2])
               = Some (Single v))
      (zip l1 l2) vals
    ∧ term_d1 areas B ginv (Batch l1) (Batch l2)
      = Some (Single (Rsum vals)).
Proof.
  intros Hl. exists (zip_with (d1_one areas B ginv) l1 l2). split.
  - clear Hl. revert l2.
    induction l1 as [|a l1 IH]; intros [|b l2]; cbn [zip zip_with];
      try constructor; [|apply IH].
    rewrite term_d1_batch. cbn. do 2 f_equal. lra.
  - rewrite term_d1_batch. by rewrite decide_True.
Qed.

Lemma connection_term_sums_over_batch_witness :
  ∃ vals : list R,
    Forall2 (fun p v =>
               term_d1 [1] [((1, 0, 0), (0, 1, 0))] [identity22]
                 (Batch [p.1]) (Batch [p.2])
               = Some (Single v))
      (zip [[((1, 1, 0), (0, 1, 0))]; [((1, 1, 0), (0, 1, 0))]]
           [[((1, 1, 0), (0, 1, 0))]; [((1, 1, 0), (0, 1, 0))]]) vals
    ∧ term_d1 [1] [((1, 0, 0), (0, 1, 0))] [identity22]
        (Batch [[((1, 1, 0), (0, 1, 0))]; [((1, 1, 0), (0, 1, 0))]])
        (Batch [[((1, 1, 0), (0, 1, 0))]; [((1, 1, 0), (0, 1, 0))]])
      = Some (Single (Rsum vals)).
Proof.
  apply (connection_term_sums_over_batch [1] [((1, 0, 0), (0, 1, 0))]
           [identity22]
           [[((1, 1, 0), (0, 1, 0))]; [((1, 1, 0), (0, 1, 0))]]
           [[((1, 1, 0), (0, 1, 0))]; [((1, 1, 0), (0, 1, 0))]]).
  reflexivity.
Defined.

(** ** Linearity of the operator of [laplacian] *)

Lemma take_rows_None (h : list vec3) (idx : list nat) :
  ¬ Forall (fun i => (i < length h)%nat) idx → take_rows h idx = None.
Proof.
  intros Hn. destruct (take_rows h idx) as [l|] eqn:Hl; [|done].
  by apply take_rows_inv in Hl as [HF _].
Qed.

Lemma row_add (h k : list vec3) (i : nat) :
  length h = length k → (i < length h)%nat →
  row (zip_with vadd h k) i = vadd (row h i) (row k i).
Proof.
  intros Hl Hi. unfold row.
  destruct (lookup_lt_is_Some_2 h i Hi) as [x Hx].
  destruct (lookup_lt_is_Some_2 k i ltac:(lia)) as [y Hy].
  rewrite (nth_lookup_Some _ _ _ _ Hx), (nth_lookup_Some _ _ _ _ Hy).
  apply nth_lookup_Some. rewrite lookup_zip_with, Hx. cbn. by rewrite Hy.
Qed.

Lemma take_rows_add (h k : list vec3) (idx : list nat) :
  length h = length k →
  take_rows (zip_with vadd h k) idx
  = from_h ← take_rows h idx; from_k ← take_rows k idx;
    Some (zip_with vadd from_h from_k).
Proof.
  intros Hl.
  destruct (decide (Forall (fun i => (i < length h)%nat) idx)) as [Hi|Hi].
  - rewrite (take_rows_Some h) by done.
    rewrite (take_rows_Some k) by (by rewrite <- Hl).
    rewrite take_rows_Some
      by (rewrite length_zip_with, <- Hl, Nat.min_id; done).
    cbn [mbind option_bind]. f_equal.
    induction Hi as [|i idx Hi _ IH]; [done|]. cbn [map zip_with].
    by rewrite IH, row_add.
  - rewrite (take_rows_None h) by done.
    rewrite take_rows_None; [done|].
    by rewrite length_zip_with, <- Hl, Nat.min_id.
Qed.

Lemma vsub_add (a b c d : list vec3) :
  zip_with vsub (zip_with vadd a b) (zip_with vadd c d)
  = zip_with vadd (zip_with vsub a c) (zip_with vsub b d).
Proof.
  revert b c d.
  induction a as [|[[a0 a1] a2] a IH];
    intros [|[[b0 b1] b2] b] [|[[c0 c1] c2] c] [|[[d0 d1] d2] d];
    cbn [zip_with]; try done.
  rewrite IH. do 2 f_equal. cbn. do 2 f_equal; ring.
Qed.

Lemma values_add (cot : list R) (x y : list vec3) :
  zip_with vscale cot (zip_with vadd x y)
  = zip_with vadd (zip_with vscale cot x) (zip_with vscale cot y).
Proof.
  revert x y.
  induction cot as [|w cot IH];
    intros [|[[x0 x1] x2] x] [|[[y0 y1] y2] y]; cbn [zip_with]; try done.
  rewrite IH. f_equal. cbn. do 2 f_equal; ring.
Qed.

Lemma coord_add (i_dim : nat) (x y : list vec3) :
  map (coord i_dim) (zip_with vadd x y)
  = zip_with Rplus (map (coord i_dim) x) (map (coord i_dim) y).
Proof.
  revert y.
  induction x as [|[[x0 x1] x2] x IH]; intros [|[[y0 y1] y2] y];
    cbn [zip_with map]; try done.
  rewrite IH. f_equal. by destruct i_dim as [|[|?]].
Qed.

(** [scatter_add] is additive in the pair of its input and its source. *)
Lemma scatter_add_add (index : list nat) (s1 s2 i1 i2 : list R) :
  length i1 = length i2 → length s1 = length s2 →
  scatter_add (zip_with Rplus i1 i2) index (zip_with Rplus s1 s2)
  = o1 ← scatter_add i1 index s1; o2 ← scatter_add i2 index s2;
    Some (zip_with Rplus o1 o2).
Proof.
  revert s1 s2 i1 i2.
  induction index as [|i index IH]; intros [|a s1] [|b s2] i1 i2 Hi Hs;
    try done.
  cbn [zip_with scatter_add]. rewrite lookup_zip_with.
  destruct (i1 !! i) as [x|] eqn:Hx; cbn [mbind option_bind].
  - destruct (lookup_lt_is_Some_2 i2 i) as [y Hy].
    { rewrite <- Hi. by eapply lookup_lt_Some. }
    rewrite Hy. cbn [mbind option_bind fmap option_fmap option_map].
    rewrite <- IH by (rewrite ?length_insert; auto).
    f_equal. rewrite <- insert_zip_with. f_equal. ring.
  - done.
Qed.

Lemma scatter_add_zeros_add (n : nat) (index : list nat) (s1 s2 : list R) :
  length s1 = length s2 →
  scatter_add (replicate n 0) index (zip_with Rplus s1 s2)
  = o1 ← scatter_add (replicate n 0) index s1;
    o2 ← scatter_add (replicate n 0) index s2;
    Some (zip_with Rplus o1 o2).
Proof.
  intros Hs. rewrite <- scatter_add_add by done.
  rewrite zip_with_replicate. do 3 f_equal. ring.
Qed.

Lemma map3_add (a0 a1 a2 b0 b1 b2 : list R) :
  map3 (fun x y z : R => (x, y, z))
    (zip_with Rplus a0 b0) (zip_with Rplus a1 b1) (zip_with Rplus a2 b2)
  = zip_with vadd (map3 (fun x y z : R => (x, y, z)) a0 a1 a2)
      (map3 (fun x y z : R => (x, y, z)) b0 b1 b2).
Proof.
  revert a1 a2 b0 b1 b2.
  induction a0 as [|x a0 IH]; intros [|y a1] [|z a2] [|x' b0] [|y' b1]
    [|z' b2]; cbn [zip_with map3]; try done.
  by rewrite IH.
Qed.

Lemma laplacian_field_add (op : laplacian_op) (h k : list vec3) :
  length h = length k →
  _laplacian_field op (zip_with vadd h k)
  = lap_h ← _laplacian_field op h; lap_k ← _laplacian_field op k;
    Some (zip_with vadd lap_h lap_k).
Proof.
  intros Hl. unfold _laplacian_field. rewrite !take_rows_add by done.
  destruct (decide (Forall (fun i => (i < length h)%nat)
                      (lap_id_vertices_0 op))) as [H0|H0];
    [|by rewrite (take_rows_None h _ H0)].
  destruct (decide (Forall (fun i => (i < length h)%nat)
                      (lap_id_vertices_1 op))) as [H1|H1].
  2:{ rewrite (take_rows_None h _ H1).
      destruct (take_rows h (lap_id_vertices_0 op)); [|done].
      by destruct (take_rows k (lap_id_vertices_0 op)). }
  rewrite !(take_rows_Some h) by done.
  rewrite !(take_rows_Some k) by (by rewrite <- Hl).
  cbn [mbind option_bind].
  rewrite vsub_add, values_add, !coord_add.
  rewrite !scatter_add_zeros_add
    by (by rewrite !length_map, !length_zip_with, !length_map).
  repeat match goal with
         | |- context [scatter_add ?z ?i ?s] =>
             destruct (scatter_add z i s)
         end; cbn [mbind option_bind]; try done.
  f_equal. apply map3_add.
Qed.

(** X11: The operator returned by [laplacian] is linear: on a combination [h +
    c * k] of two fields with the same number of rows it gives the same
    combination of its values on [h] and on [k], and it fails on the
    combination exactly when it fails on [h] or on [k]. *)
Theorem laplacian_operator_linear (op : laplacian_op) (c : R)
    (h k : list vec3) :
  length h = length k →
  _laplacian_field op (zip_with vadd h (map (vscale c) k))
  = lap_h ← _laplacian_field op h; lap_k ← _laplacian_field op k;
    Some (zip_with vadd lap_h (map (vscale c) lap_k)).
Proof.
  intros Hl. rewrite laplacian_field_add by (by rewrite length_map).
  rewrite laplacian_field_scale.
  destruct (_laplacian_field op h) as [lap_h|]; [|done].
  by destruct (_laplacian_field op k).
Qed.

Lemma laplacian_operator_linear_witness :
  _laplacian_field
    (mkLaplacianOp 3 [0; 2; 2] (id_vertices_120 (faces one_triangle))
       (id_vertices_201 (faces one_triangle)))
    (zip_with vadd shear_field (map (vscale 3) stretch_field))
  = lap_h ← _laplacian_field
              (mkLaplacianOp 3 [0; 2; 2] (id_vertices_120 (faces one_triangle))
                 (id_vertices_201 (faces one_triangle))) shear_field;
    lap_k ← _laplacian_field
              (mkLaplacianOp 3 [0; 2; 2] (id_vertices_120 (faces one_triangle))
                 (id_vertices_201 (faces one_triangle))) stretch_field;
    Some (zip_with vadd lap_h (map (vscale 3) lap_k)).
Proof.
  apply (laplacian_operator_linear
           (mkLaplacianOp 3 [0; 2; 2] (id_vertices_120 (faces one_triangle))
              (id_vertices_201 (faces one_triangle)))
           3 shear_field stretch_field).
  reflexivity.
Defined.

(** ** Scaling of the surface *)

Lemma vertices_scale (sp : DiscreteSurfaces) (c : R) (q : list vec3) :
  _vertices sp (map (vscale c) q)
  = (fun r : list vec3 * list vec3 * list vec3 =>
       (map (vscale c) r.1.1, map (vscale c) r.1.2, map (vscale c) r.2))
    <$> _vertices sp q.
Proof.
  unfold _vertices. rewrite !take_rows_scale.
  destruct (take_rows q (column 0 (faces sp))) as [r0|]; [|done].
  destruct (take_rows q (column 1 (faces sp))) as [r1|]; [|done].
  by destruct (take_rows q (column 2 (faces sp))) as [r2|].
Qed.

Lemma map3_homogeneous {A : Type} (g : vec3 → vec3 → vec3 → A) (F : A → A)
    (c : R) (l0 l1 l2 : list vec3) :
  (∀ v0 v1 v2,
     g (vscale c v0) (vscale c v1) (vscale c v2) = F (g v0 v1 v2)) →
  map3 g (map (vscale c) l0) (map (vscale c) l1) (map (vscale c) l2)
  = map F (map3 g l0 l1 l2).
Proof.
  intros H. revert l1 l2. induction l0 as [|x l0 IH]; intros [|y l1] [|z l2];
    simpl; try done.
  by rewrite H, IH.
Qed.

Lemma one_form_at_scale (c : R) (v0 v1 v2 : vec3) :
  one_form_at (vscale c v0) (vscale c v1) (vscale c v2)
  = scale23 c (one_form_at v0 v1 v2).
Proof.
  destruct v0 as [[x0 y0] z0], v1 as [[x1 y1] z1], v2 as [[x2 y2] z2].
  unfold one_form_at, scale23. cbn.
  f_equal; (f_equal; [f_equal|]); ring.
Qed.

Lemma normal_at_scale (c : R) (v0 v1 v2 : vec3) :
  normal_at (vscale c v0) (vscale c v1) (vscale c v2)
  = vscale (c * c) (normal_at v0 v1 v2).
Proof.
  destruct v0 as [[x0 y0] z0], v1 as [[x1 y1] z1], v2 as [[x2 y2] z2].
  unfold normal_at. cbn. f_equal; [f_equal|]; ring.
Qed.

Lemma gram_scale (c : R) (w : mat23) :
  gram (scale23 c w) = scale22 (c * c) (gram w).
Proof.
  destruct w as [[[a0 a1] a2] [[b0 b1] b2]]. unfold gram, scale23, scale22.
  cbn. f_equal; f_equal; ring.
Qed.

Lemma sqrt_det_scale (c : R) (g : mat22) :
  sqrt (det22 (scale22 (c * c) g)) = c * c * sqrt (det22 g).
Proof.
  destruct g as [[a b] [d e]]. unfold scale22, det22. cbn.
  replace (c * c * a * (c * c * e) - c * c * b * (c * c * d))
    with ((c * c) * (c * c) * (a * e - b * d)) by ring.
  rewrite sqrt_mult_alt by nra.
  rewrite sqrt_square by nra. done.
Qed.

Lemma surface_one_forms_scale (sp : DiscreteSurfaces) (c : R)
    (q : list vec3) :
  surface_one_forms sp (map (vscale c) q)
  = map (scale23 c) <$> surface_one_forms sp q.
Proof.
  unfold surface_one_forms. rewrite vertices_scale.
  destruct (_vertices sp q) as [[[r0 r1] r2]|]; [|done].
  cbn [fmap option_fmap option_map mbind option_bind fst snd].
  by rewrite (map3_homogeneous _ (scale23 c) c _ _ _ (one_form_at_scale c)).
Qed.

Lemma normals_scale (sp : DiscreteSurfaces) (c : R) (q : list vec3) :
  normals sp (map (vscale c) q) = map (vscale (c * c)) <$> normals sp q.
Proof.
  unfold normals. rewrite vertices_scale.
  destruct (_vertices sp q) as [[[r0 r1] r2]|]; [|done].
  cbn [fmap option_fmap option_map mbind option_bind fst snd].
  by rewrite (map3_homogeneous _ (vscale (c * c)) c _ _ _
                (normal_at_scale c)).
Qed.

Lemma surface_metric_matrices_scale (sp : DiscreteSurfaces) (c : R)
    (q : list vec3) :
  surface_metric_matrices sp (map (vscale c) q)
  = map (scale22 (c * c)) <$> surface_metric_matrices sp q.
Proof.
  unfold surface_metric_matrices. rewrite surface_one_forms_scale.
  destruct (surface_one_forms sp q) as [w|]; [|done].
  cbn [fmap option_fmap option_map mbind option_bind]. f_equal.
  unfold _surface_metric_matrices_from_one_forms. rewrite !map_map.
  apply map_ext. intros x. apply gram_scale.
Qed.

(** X12: Scaling a surface by [c] scales its one-forms by [c], and its
    normals, its metric matrices and the areas of [face_areas] by [c * c]; a
    call that fails on the surface fails on the scaled surface. *)
Theorem geometry_scaling (sp : DiscreteSurfaces) (c : R) (q : list vec3) :
  surface_one_forms sp (map (vscale c) q)
  = map (scale23 c) <$> surface_one_forms sp q
  ∧ normals sp (map (vscale c) q) = map (vscale (c * c)) <$> normals sp q
  ∧ surface_metric_matrices sp (map (vscale c) q)
    = map (scale22 (c * c)) <$> surface_metric_matrices sp q
  ∧ face_areas sp (map (vscale c) q)
    = map (Rmult (c * c)) <$> face_areas sp q.
Proof.
  split; [apply surface_one_forms_scale|].
  split; [apply normals_scale|].
  split; [apply surface_metric_matrices_scale|].
  unfold face_areas. rewrite surface_metric_matrices_scale.
  destruct (surface_metric_matrices sp q) as [g|]; [|done].
  cbn [fmap option_fmap option_map mbind option_bind]. f_equal.
  rewrite !map_map. apply map_ext. intros x. apply sqrt_det_scale.
Qed.

(** ** Positivity of the metric of [a0] and [a2] *)

Lemma Rsum_nonneg (l : list R) : Forall (fun x => 0 <= x) l → 0 <= Rsum l.
Proof. induction 1 as [|x l Hx _ IH]; simpl; lra. Qed.

Lemma Rsum_zero_inv (l : list R) :
  Forall (fun x => 0 <= x) l → Rsum l = 0 → Forall (fun x => x = 0) l.
Proof.
  induction 1 as [|x l Hx Hl IH]; simpl; intros Hs; [done|].
  pose proof (Rsum_nonneg l Hl). constructor; [lra|]. apply IH. lra.
Qed.

Lemma dot_self_zero (u : vec3) : dot u u = 0 → u = vzero.
Proof.
  destruct u as [[x y] z]. unfold dot, vzero. intros H.
  assert (x = 0) by nra. assert (y = 0) by nra. assert (z = 0) by nra.
  by subst.
Qed.

Lemma weighted_squares_nonneg (va : list R) (h : list vec3) :
  Forall (fun a => 0 <= a) va →
  Forall (fun x => 0 <= x) (zip_with Rmult va (zip_with dot h h)).
Proof.
  intros Hva. revert h. induction Hva as [|a va Ha _ IH]; intros [|u h];
    cbn [zip_with]; try done.
  constructor; [|apply IH].
  apply Rmult_le_pos; [done|apply dot_self_nonneg].
Qed.

Lemma divided_squares_nonneg (va : list R) (l : list vec3) :
  Forall (fun a => 0 < a) va →
  Forall (fun x => 0 <= x) (zip_with Rdiv (zip_with dot l l) va).
Proof.
  intros Hva. revert l. induction Hva as [|a va Ha _ IH]; intros [|u l];
    cbn [zip_with]; try done.
  constructor; [|apply IH].
  apply Rmult_le_pos; [apply dot_self_nonneg|].
  left. by apply Rinv_0_lt_compat.
Qed.

Lemma weighted_squares_zero_inv (va : list R) (h : list vec3) :
  Forall (fun a => 0 < a) va → length h = length va →
  Forall (fun x => x = 0) (zip_with Rmult va (zip_with dot h h)) →
  h = replicate (length va) vzero.
Proof.
  intros Hva. revert h. induction Hva as [|a va Ha _ IH]; intros [|u h];
    cbn [zip_with length replicate]; try done.
  intros Hl Hz. apply Forall_cons in Hz as [Hu Hz].
  f_equal; [|apply IH; [lia|done]].
  apply dot_self_zero. pose proof (dot_self_nonneg u). nra.
Qed.

Lemma Rsum_cons (x : R) (l : list R) : Rsum (x :: l) = x + Rsum l.
Proof. done. Qed.

Lemma weighted_squares_zero (va : list R) (n : nat) :
  Rsum (zip_with Rmult va
          (zip_with dot (replicate n vzero) (replicate n vzero))) = 0.
Proof.
  revert va. induction n as [|n IH]; intros [|a va]; try done.
  cbn [replicate zip_with]. rewrite Rsum_cons, IH. unfold dot, vzero. lra.
Qed.

Lemma divided_squares_zero (va : list R) (n : nat) :
  Rsum (zip_with Rdiv
          (zip_with dot (replicate n vzero) (replicate n vzero)) va) = 0.
Proof.
  revert va. induction n as [|n IH]; intros [|a va]; try done.
  cbn [replicate zip_with]. rewrite Rsum_cons, IH. unfold dot, vzero.
  unfold Rdiv. lra.
Qed.

Lemma mapM_fdiv_Some (e va : list R) :
  Forall (fun a => 0 < a) va →
  mapM (fun p : R * R => fdiv p.1 p.2) (zip e va)
  = Some (zip_with Rdiv e va).
Proof.
  intros Hva. revert e. induction Hva as [|a va Ha _ IH]; intros [|x e];
    try done.
  cbn [zip zip_with mapM fst snd]. unfold zip in IH. rewrite IH.
  unfold fdiv. rewrite decide_False by lra. done.
Qed.

(** The two terms on one field, at a point whose faces are in range. *)
Lemma term_a0_single (va : list R) (h k : list vec3) :
  term_a0 va (Single h) (Single k)
  = Some (Single (Rsum (zip_with Rmult va (zip_with dot h k)))).
Proof. done. Qed.

Lemma term_a2_single (sp : DiscreteSurfaces) (va : list R)
    (h q : list vec3) :
  faces_in_range (faces sp) (length q) → length h = length q →
  Forall (fun a => 0 < a) va →
  ∃ lap_h : list vec3,
    _laplacian_field
      (mkLaplacianOp (length q)
         (concat (map (per_face cot_values q) (faces sp)))
         (id_vertices_120 (faces sp)) (id_vertices_201 (faces sp))) h
    = Some lap_h
    ∧ term_a2 sp va (Single h) (Single h) q
      = Some (Single (Rsum (zip_with Rdiv (zip_with dot lap_h lap_h) va))).
Proof.
  intros Hq Hh Hva.
  destruct (laplacian_field_Some (length q)
              (concat (map (per_face cot_values q) (faces sp)))
              (faces sp) h) as (lap_h & Hlap & _); [done|by rewrite Hh|].
  exists lap_h. split; [done|].
  unfold term_a2. rewrite laplacian_Some by done.
  cbn [mbind option_bind _laplacian bmapM]. rewrite Hlap.
  cbn [fmap option_fmap option_map mbind option_bind bzip bmapM].
  rewrite mapM_fdiv_Some by done. done.
Qed.

(** X13: With no positive first-order weight, at a point of the manifold whose
    vertices all occur in a face, the inner product of a field with itself is
    a nonnegative number, and with [a0 > 0] it is 0 for the zero field only.
    *)
Theorem zeroth_order_metric_positive_definite (m : ElasticMetric)
    (h q : list vec3) :
  a1 m <= 0 → b1 m <= 0 → c1 m <= 0 →
  belongs (space m) q = true →
  (∀ v : nat, (v < n_vertices (space m))%nat →
     v ∈ flatten_faces (faces (space m))) →
  length h = length q →
  ∃ r : R,
    inner_product m (Single h) (Single h) q = Some (Single r)
    ∧ 0 <= r
    ∧ (0 < a0 m → (r = 0 ↔ h = replicate (length q) vzero)).
Proof.
  intros H1 Hb1 Hc1 Hb Hused Hh.
  pose proof (belongs_in_range _ _ Hb) as Hq.
  apply bool_decide_eq_true in Hb.
  destruct (vertex_areas_bounds _ q Hq) as (va & Hva & Hl & Hsign).
  assert (Hpos : Forall (fun a => 0 < a) va).
  { apply Forall_lookup. intros v a Hv.
    destruct (Hsign v a Hv) as (_ & Hin & _).
    assert (2 / 3000 <= a); [|lra].
    apply Hin, Hused. rewrite <- Hb, <- Hl. by eapply lookup_lt_Some. }
  assert (Hnn : Forall (fun a => 0 <= a) va).
  { eapply Forall_impl; [exact Hpos|]. intros; simpl in *; lra. }
  destruct (term_a2_single (space m) va h q Hq Hh Hpos)
    as (lap_h & Hlap & Ht2).
  set (T0 := Rsum (zip_with Rmult va (zip_with dot h h))).
  set (T2 := Rsum (zip_with Rdiv (zip_with dot lap_h lap_h) va)) in *.
  assert (HT0 : 0 <= T0)
    by (by apply Rsum_nonneg, weighted_squares_nonneg).
  assert (HT2 : 0 <= T2)
    by (by apply Rsum_nonneg, divided_squares_nonneg).
  assert (Hdef : T0 = 0 → h = replicate (length q) vzero).
  { intros Hz. rewrite <- Hl. apply weighted_squares_zero_inv;
      [done|congruence|].
    apply Rsum_zero_inv; [by apply weighted_squares_nonneg|done]. }
  assert (Hzero : h = replicate (length q) vzero → T0 = 0 ∧ T2 = 0).
  { intros ->. split; [apply weighted_squares_zero|].
    rewrite laplacian_field_constant in Hlap by done.
    injection Hlap as <-. apply divided_squares_zero. }
  rewrite inner_product_zeroth_order by done.
  unfold mass_and_bending_block.
  destruct (decide (0 < a0 m)) as [Ha0|Ha0];
    destruct (decide (0 < a2 m)) as [Ha2|Ha2].
  - rewrite decide_True by (by left). rewrite Hva.
    cbn [mbind option_bind]. rewrite Ht2, term_a0_single. cbn. eexists. split; [done|]. fold T0.
    assert (0 <= a0 m * T0) by (apply Rmult_le_pos; lra).
    assert (0 <= a2 m * T2) by (apply Rmult_le_pos; lra).
    split; [lra|]. intros _. split.
    + intros Hr. apply Hdef. nra.
    + intros [-> ->]%Hzero. lra.
  - rewrite decide_True by (by left). rewrite Hva.
    cbn [mbind option_bind]. rewrite term_a0_single. cbn. eexists. split; [done|]. fold T0.
    assert (0 <= a0 m * T0) by (apply Rmult_le_pos; lra).
    split; [lra|]. intros _. split.
    + intros Hr. apply Hdef. nra.
    + intros [-> _]%Hzero. lra.
  - rewrite decide_True by (by right). rewrite Hva.
    cbn [mbind option_bind]. rewrite Ht2. cbn. eexists. split; [done|].
    assert (0 <= a2 m * T2) by (apply Rmult_le_pos; lra).
    split; [lra|]. intros; lra.
  - rewrite decide_False by tauto. exists 0. split; [done|].
    split; [lra|]. intros; lra.
Qed.

Lemma zeroth_order_metric_positive_definite_witness :
  ∃ r : R,
    inner_product (mkElasticMetric one_triangle 1 0 0 0 0 1)
      (Single shear_field) (Single shear_field) right_triangle
    = Some (Single r)
    ∧ 0 <= r
    ∧ (0 < a0 (mkElasticMetric one_triangle 1 0 0 0 0 1) →
       (r = 0 ↔ shear_field = replicate (length right_triangle) vzero)).
Proof.
  apply (zeroth_order_metric_positive_definite
           (mkElasticMetric one_triangle 1 0 0 0 0 1)
           shear_field right_triangle).
  - simpl. lra.
  - simpl. lra.
  - simpl. lra.
  - reflexivity.
  - intros v Hv. vm_compute in Hv. simpl.
    destruct v as [|[|[|v]]]; [| | |lia];
      rewrite !elem_of_cons; auto.
  - reflexivity.
Defined.

(** ** The operator of [laplacian] on the fields of the manifold *)

Lemma id_vertices_120_in_range_inv (fs : list face) (n : nat) :
  Forall (fun i => (i < n)%nat) (id_vertices_120 fs) → faces_in_range fs n.
Proof.
  unfold faces_in_range. induction fs as [|f fs IH]; [by constructor|].
  cbn [id_vertices_120 flat_map app]. intros H.
  apply Forall_cons in H as [H1 H]. apply Forall_cons in H as [H2 H].
  apply Forall_cons in H as [H0 H]. constructor; [done|by apply IH].
Qed.

Lemma mapM_Forall_Some {A B : Type} (f : A → option B) (P : B → Prop)
    (l : list A) :
  Forall (fun x => ∃ y, f x = Some y ∧ P y) l →
  ∃ ys : list B, mapM f l = Some ys ∧ Forall P ys.
Proof.
  induction 1 as [|x l (y & Hy & HP) _ (ys & Hys & HF)].
  - by exists [].
  - exists (y :: ys). cbn [mapM]. rewrite Hy, Hys. split; [done|].
    by constructor.
Qed.

(** X14: At every point of the manifold [laplacian] returns an operator; the
    operator sends a field, or a batch of fields, of the shape of the point to
    a field, or a batch of fields, of that shape, whatever the areas of the
    faces are, and it fails on a field with fewer rows than the mesh has
    vertices. *)
Theorem laplacian_maps_fields_to_fields (sp : DiscreteSurfaces)
    (q : list vec3) :
  belongs sp q = true →
  ∃ op : laplacian_op,
    laplacian sp q = Some op
    ∧ (∀ h : batched (list vec3), same_shape q h →
         ∃ out : batched (list vec3),
           _laplacian op h = Some out ∧ same_shape q out)
    ∧ (∀ x : list vec3, faces sp ≠ [] → (length x < n_vertices sp)%nat →
         _laplacian op (Single x) = None).
Proof.
  intros Hq%belongs_in_range. eexists. split; [by apply laplacian_Some|].
  split.
  - assert (Hone : ∀ x : list vec3, length x = length q →
              ∃ y, _laplacian_field
                     (mkLaplacianOp (length q)
                        (concat (map (per_face cot_values q) (faces sp)))
                        (id_vertices_120 (faces sp))
                        (id_vertices_201 (faces sp))) x = Some y
                   ∧ length y = length q).
    { intros x Hx. apply laplacian_field_Some; [done|by rewrite Hx]. }
    intros [x|xs] Hh; unfold _laplacian; cbn [bmapM same_shape] in *.
    + destruct (Hone x Hh) as (y & -> & Hy). by exists (Single y).
    + destruct (mapM_Forall_Some
                  (_laplacian_field
                     (mkLaplacianOp (length q)
                        (concat (map (per_face cot_values q) (faces sp)))
                        (id_vertices_120 (faces sp))
                        (id_vertices_201 (faces sp))))
                  (fun y => length y = length q) xs) as (ys & -> & Hys).
      { eapply Forall_impl; [exact Hh|]. intros x Hx. by apply Hone. }
      by exists (Batch ys).
  - intros x Hne Hx. unfold _laplacian, _laplacian_field.
    cbn [bmapM lap_id_vertices_0 lap_id_vertices_1].
    rewrite (take_rows_None x (id_vertices_120 (faces sp))); [done|].
    intros H%id_vertices_120_in_range_inv.
    apply (in_range_n_vertices sp _ Hne) in H. lia.
Qed.

Lemma laplacian_maps_fields_to_fields_witness :
  ∃ op : laplacian_op,
    laplacian one_triangle collapsed_triangle = Some op
    ∧ (∀ h : batched (list vec3), same_shape collapsed_triangle h →
         ∃ out : batched (list vec3),
           _laplacian op h = Some out ∧ same_shape collapsed_triangle out)
    ∧ (∀ x : list vec3, faces one_triangle ≠ [] →
         (length x < n_vertices one_triangle)%nat →
         _laplacian op (Single x) = None).
Proof.
  apply (laplacian_maps_fields_to_fields one_triangle collapsed_triangle).
  reflexivity.
Defined.

(** ** The inner product of two batches of fields *)

Lemma mapM_Forall_map {A B : Type} (f : A → option B) (g : A → B)
    (l : list A) :
  Forall (fun x => f x = Some (g x)) l → mapM f l = Some (map g l).
Proof.
  induction 1 as [|x l Hx _ IH]; [done|]. cbn [mapM map].
  by rewrite Hx, IH.
Qed.

Lemma bzip_batches {A B C : Type} (f : A → B → C) (l1 : list A)
    (l2 : list B) :
  length l1 = length l2 →
  bzip (fun x y => Some (f x y)) (Batch l1) (Batch l2)
  = Some (Batch (zip_with f l1 l2)).
Proof. intros Hl. cbn [bzip]. by rewrite zip_same_Some. Qed.

Lemma radd_shape (n : nat) (x y : batched R) :
  scalar_or_batch n x → scalar_or_batch n y →
  ∃ z : batched R, radd x y = Some z ∧ scalar_or_batch n z.
Proof.
  unfold radd. destruct x as [u|l1], y as [v|l2]; cbn [scalar_or_batch];
    intros Hx Hy.
  - by eexists.
  - cbn [bzip]. rewrite (mapM_Some_map (fun v => u + v)).
    eexists. split; [done|]. cbn. by rewrite length_map.
  - cbn [bzip]. rewrite (mapM_Some_map (fun a => a + v)).
    eexists. split; [done|]. cbn. by rewrite length_map.
  - rewrite bzip_batches by congruence. eexists. split; [done|].
    cbn. rewrite length_zip_with. lia.
Qed.

Lemma accumulate_shape (n : nat) (ip t : batched R) (w : R) :
  scalar_or_batch n ip → scalar_or_batch n t →
  ∃ r : batched R,
    accumulate ip w (Some t) = Some r ∧ scalar_or_batch n r.
Proof.
  intros Hip Ht. unfold accumulate. cbn [mbind option_bind].
  apply radd_shape; [done|]. destruct t; cbn in *; [done|].
  by rewrite length_map.
Qed.

Lemma term_a0_batches (va : list R) (hs ks : list (list vec3)) :
  length hs = length ks →
  ∃ t : batched R,
    term_a0 va (Batch hs) (Batch ks) = Some t
    ∧ scalar_or_batch (length hs) t.
Proof.
  intros Hl. unfold term_a0. rewrite bzip_batches by done.
  cbn [mbind option_bind]. eexists. split; [done|].
  cbn. rewrite !length_map, length_zip_with. lia.
Qed.

Lemma laplacian_batch_Some (sp : DiscreteSurfaces) (q : list vec3)
    (hs : list (list vec3)) :
  faces_in_range (faces sp) (length q) → same_shape q (Batch hs) →
  ∃ ls : list (list vec3),
    _laplacian
      (mkLaplacianOp (length q)
         (concat (map (per_face cot_values q) (faces sp)))
         (id_vertices_120 (faces sp)) (id_vertices_201 (faces sp)))
      (Batch hs) = Some (Batch ls)
    ∧ length ls = length hs.
Proof.
  intros Hq Hh. unfold _laplacian. cbn [bmapM].
  destruct (mapM _ hs) as [ls|] eqn:Hls.
  - exists ls. split; [done|]. by apply length_mapM in Hls.
  - exfalso. apply mapM_None in Hls.
    rewrite Exists_exists in Hls. destruct Hls as (x & Hx & Hn).
    cbn in Hh. rewrite Forall_forall in Hh.
    destruct (laplacian_field_Some (length q)
                (concat (map (per_face cot_values q) (faces sp)))
                (faces sp) x) as (y & Hy & _);
      [done|by rewrite (Hh x Hx)|]. congruence.
Qed.

Lemma term_a2_batches (sp : DiscreteSurfaces) (va : list R)
    (hs ks : list (list vec3)) (q : list vec3) :
  faces_in_range (faces sp) (length q) →
  same_shape q (Batch hs) → same_shape q (Batch ks) →
  length hs = length ks →
  Forall (fun a => 0 < a) va →
  ∃ t : batched R,
    term_a2 sp va (Batch hs) (Batch ks) q = Some t
    ∧ scalar_or_batch (length hs) t.
Proof.
  intros Hq Hh Hk Hl Hva. unfold term_a2.
  rewrite laplacian_Some by done. cbn [mbind option_bind].
  destruct (laplacian_batch_Some sp q hs Hq Hh) as (lh & -> & Hlh).
  destruct (laplacian_batch_Some sp q ks Hq Hk) as (lk & -> & Hlk).
  cbn [mbind option_bind]. rewrite bzip_batches by congruence.
  cbn [mbind option_bind bmapM].
  rewrite (mapM_Forall_map _ (fun e => zip_with Rdiv e va))
    by (apply Forall_forall; intros e _; by apply mapM_fdiv_Some).
  cbn. eexists. split; [done|].
  cbn. rewrite !length_map, length_zip_with. lia.
Qed.

Lemma bmapM_points_Some {A : Type} (f : list vec3 → option A)
    (g : list vec3 → A) (q : list vec3) (ps : list (list vec3)) :
  (∀ p, length p = length q → f p = Some (g p)) →
  Forall (fun p => length p = length q) ps →
  bmapM f (Batch ps) = Some (Batch (map g ps)).
Proof.
  intros Hf Hps. cbn [bmapM]. rewrite (mapM_Forall_map f g); [done|].
  eapply Forall_impl; [exact Hps|]. intros p Hp. by apply Hf.
Qed.

Lemma term_c1_batches (sp : DiscreteSurfaces) (areas : list R)
    (nq q : list vec3) (pas pbs : list (list vec3)) :
  faces_in_range (faces sp) (length q) →
  Forall (fun p => length p = length q) pas →
  Forall (fun p => length p = length q) pbs →
  length pas = length pbs →
  ∃ t : batched R,
    term_c1 sp areas nq (Batch pas) (Batch pbs) = Some t
    ∧ scalar_or_batch (length pas) t.
Proof.
  intros Hq Ha Hb Hl. unfold term_c1.
  rewrite !(bmapM_points_Some (normals sp)
              (fun p => map (per_face normal_at p) (faces sp)) q)
    by (done || intros p Hp; apply normals_Some; by rewrite Hp).
  cbn [mbind option_bind bmap].
  rewrite bzip_batches by (by rewrite !length_map).
  cbn [mbind option_bind]. eexists. split; [done|].
  cbn. rewrite !length_map, length_zip_with, !length_map. lia.
Qed.

Lemma delta_metric_batch (g : list mat22) (l : list (list mat23)) :
  ∃ ds : list (list mat22),
    delta_metric g (Batch l) = Some (Batch ds) ∧ length ds = length l.
Proof.
  unfold delta_metric. cbn [transpose_0132 mbind option_bind].
  rewrite bzip_batches by (by rewrite length_map).
  cbn [mbind option_bind bmap]. eexists. split; [done|].
  rewrite length_map, length_zip_with, length_map. lia.
Qed.

Lemma term_a1_batches (areas : list R) (d1s d2s : list (list mat22)) :
  length d1s = length d2s →
  ∃ t : batched R,
    term_a1 areas (Batch d1s) (Batch d2s) = Some t
    ∧ scalar_or_batch (length d1s) t.
Proof.
  intros Hl. unfold term_a1. rewrite bzip_batches by done.
  cbn [mbind option_bind]. eexists. split; [done|].
  cbn. rewrite !length_map, length_zip_with. lia.
Qed.

Lemma term_b1_batches (areas : list R) (d1s d2s : list (list mat22)) :
  length d1s = length d2s →
  ∃ t : batched R,
    term_b1 areas (Batch d1s) (Batch d2s) = Some t
    ∧ scalar_or_batch (length d1s) t.
Proof.
  intros Hl. unfold term_b1. cbn [bmap].
  rewrite bzip_batches by (by rewrite !length_map).
  cbn [mbind option_bind]. eexists. split; [done|].
  cbn. rewrite !length_map, length_zip_with, !length_map. lia.
Qed.

Lemma metric_change_block_batches (m : ElasticMetric) (areas : list R)
    (gs ginv : list mat22) (l1 l2 : list (list mat23)) (ip : batched R) :
  length l1 = length l2 → scalar_or_batch (length l1) ip →
  ∃ r : batched R,
    metric_change_block m areas gs ginv (Batch l1) (Batch l2) ip = Some r
    ∧ scalar_or_batch (length l1) r.
Proof.
  intros Hl Hip. unfold metric_change_block.
  destruct (decide (0 < b1 m ∨ 0 < a1 m)); [|by exists ip].
  destruct (delta_metric_batch gs l1) as (d1s & -> & H1).
  destruct (delta_metric_batch gs l2) as (d2s & -> & H2).
  cbn [mbind option_bind bmap].
  destruct (term_a1_batches areas
              (map (fun d => zip_with matmul_22_22 ginv d) d1s)
              (map (fun d => zip_with matmul_22_22 ginv d) d2s))
    as (t1 & -> & Ht1); [rewrite !length_map; congruence|].
  destruct (term_b1_batches areas
              (map (fun d => zip_with matmul_22_22 ginv d) d1s)
              (map (fun d => zip_with matmul_22_22 ginv d) d2s))
    as (tb & -> & Htb); [rewrite !length_map; congruence|].
  rewrite length_map, H1 in Ht1, Htb.
  destruct (accumulate_shape _ ip t1 (a1 m) Hip Ht1) as (ip1 & -> & Hip1).
  cbn [mbind option_bind].
  by apply accumulate_shape.
Qed.

Lemma inv22_Some (g : mat22) : det22 g ≠ 0 → is_Some (inv22 g).
Proof.
  intros Hg. destruct g as [[a b] [c d]]. unfold inv22.
  by rewrite decide_False.
Qed.

Lemma first_order_block_batches (m : ElasticMetric)
    (pas pbs : list (list vec3)) (q : list vec3) (ip : batched R) :
  faces_in_range (faces (space m)) (length q) →
  Forall (fun p => length p = length q) pas →
  Forall (fun p => length p = length q) pbs →
  length pas = length pbs →
  (0 < a1 m ∨ 0 < b1 m ∨ (0 < c1 m ∧ 0 < d1 m) →
   Forall (fun f => per_face face_area_at q f ≠ 0) (faces (space m))) →
  scalar_or_batch (length pas) ip →
  ∃ r : batched R,
    first_order_block m (Batch pas) (Batch pbs) q ip = Some r
    ∧ scalar_or_batch (length pas) r.
Proof.
  intros Hq Ha Hb Hl Hnd Hip. unfold first_order_block.
  destruct (decide (0 < a1 m ∨ 0 < b1 m ∨ 0 < c1 m ∨ 0 < b1 m)) as [Hg|Hg];
    [|by exists ip].
  rewrite surface_one_forms_Some, normals_Some by done.
  cbn [mbind option_bind].
  set (areas := map _ (_surface_metric_matrices_from_one_forms _)).
  set (nq := map (per_face normal_at q) _).
  assert (Hc : ∃ ipc : batched R,
             (if decide (0 < c1 m)
              then accumulate ip (c1 m)
                     (term_c1 (space m) areas nq (Batch pas) (Batch pbs))
              else Some ip) = Some ipc
             ∧ scalar_or_batch (length pas) ipc).
  { destruct (decide (0 < c1 m)); [|by exists ip].
    destruct (term_c1_batches (space m) areas nq q pas pbs)
      as (t & -> & Ht); try done.
    by apply accumulate_shape. }
  destruct Hc as (ipc & -> & Hipc). cbn [mbind option_bind].
  destruct (decide (0 < d1 m ∨ 0 < b1 m ∨ 0 < a1 m)) as [Hg2|Hg2];
    [|by exists ipc].
  assert (Hinv : is_Some
            (mapM inv22
               (_surface_metric_matrices_from_one_forms
                  (map (per_face one_form_at q) (faces (space m)))))).
  { apply mapM_is_Some. unfold _surface_metric_matrices_from_one_forms.
    rewrite !Forall_map. eapply Forall_impl; [apply Hnd; tauto|].
    intros f Hf. apply inv22_Some. intros Hz. apply Hf.
    unfold per_face, face_area_at. unfold per_face in Hz.
    rewrite Hz. apply sqrt_0. }
  destruct Hinv as [ginv ->]. cbn [mbind option_bind].
  rewrite !(bmapM_points_Some (surface_one_forms (space m))
              (fun p => map (per_face one_form_at p) (faces (space m))) q)
    by (done || intros p Hp; apply surface_one_forms_Some; by rewrite Hp).
  cbn [mbind option_bind].
  assert (Hd : ∃ ipd : batched R,
             (if decide (0 < d1 m)
              then accumulate ipc (d1 m)
                     (term_d1 areas
                        (map (per_face one_form_at q) (faces (space m))) ginv
                        (Batch (map (fun p => map (per_face one_form_at p)
                                                (faces (space m))) pas))
                        (Batch (map (fun p => map (per_face one_form_at p)
                                                (faces (space m))) pbs)))
              else Some ipc) = Some ipd
             ∧ scalar_or_batch (length pas) ipd).
  { destruct (decide (0 < d1 m)); [|by exists ipc].
    rewrite term_d1_batch, decide_True by (by rewrite !length_map).
    by apply accumulate_shape. }
  destruct Hd as (ipd & -> & Hipd). cbn [mbind option_bind].
  destruct (metric_change_block_batches m areas
              (_surface_metric_matrices_from_one_forms
                 (map (per_face one_form_at q) (faces (space m)))) ginv
              (map (fun p => map (per_face one_form_at p)
                                (faces (space m))) pas)
              (map (fun p => map (per_face one_form_at p)
                                (faces (space m))) pbs) ipd)
    as (r & Hr & Hshape); [by rewrite !length_map|by rewrite length_map|].
  exists r. split; [done|]. by rewrite length_map in Hshape.
Qed.

Lemma mass_and_bending_block_batches (m : ElasticMetric)
    (hs ks : list (list vec3)) (q : list vec3) (ip : batched R) :
  faces_in_range (faces (space m)) (length q) →
  same_shape q (Batch hs) → same_shape q (Batch ks) →
  length hs = length ks →
  (0 < a2 m →
   ∀ v : nat, (v < length q)%nat → v ∈ flatten_faces (faces (space m))) →
  scalar_or_batch (length hs) ip →
  ∃ r : batched R,
    mass_and_bending_block m (Batch hs) (Batch ks) q ip = Some r
    ∧ scalar_or_batch (length hs) r.
Proof.
  intros Hq Hh Hk Hl Hused Hip. unfold mass_and_bending_block.
  destruct (decide (0 < a0 m ∨ 0 < a2 m)); [|by exists ip].
  destruct (vertex_areas_bounds _ q Hq) as (va & -> & Hlva & Hsign).
  cbn [mbind option_bind].
  assert (H0 : ∃ ip0 : batched R,
             (if decide (0 < a0 m)
              then accumulate ip (a0 m) (term_a0 va (Batch hs) (Batch ks))
              else Some ip) = Some ip0
             ∧ scalar_or_batch (length hs) ip0).
  { destruct (decide (0 < a0 m)); [|by exists ip].
    destruct (term_a0_batches va hs ks Hl) as (t & -> & Ht).
    by apply accumulate_shape. }
  destruct H0 as (ip0 & -> & Hip0). cbn [mbind option_bind].
  destruct (decide (0 < a2 m)) as [Ha2|]; [|by exists ip0].
  destruct (term_a2_batches (space m) va hs ks q) as (t & -> & Ht);
    try done.
  - apply Forall_lookup. intros v a Hv.
    destruct (Hsign v a Hv) as (_ & Hin & _).
    assert (2 / 3000 <= a); [|lra].
    apply Hin, Hused; [done|]. rewrite <- Hlva. by eapply lookup_lt_Some.
  - by apply accumulate_shape.
Qed.

(** X15: On two batches of the same length of fields of the shape of the base
    point, at a point of the manifold, the inner product returns a finite
    result, a scalar or a batch of the length of the two batches, provided
    that every vertex occurs in a face when [a2 > 0], and that no face of the
    base point has the area 0 when the inverse of the metric matrices is taken
    ([a1 > 0], or [b1 > 0], or [c1 > 0] with [d1 > 0]). *)
Theorem inner_product_defined_on_batches (m : ElasticMetric)
    (hs ks : list (list vec3)) (q : list vec3) :
  belongs (space m) q = true →
  same_shape q (Batch hs) → same_shape q (Batch ks) →
  length hs = length ks →
  (0 < a2 m →
   ∀ v : nat, (v < n_vertices (space m))%nat →
     v ∈ flatten_faces (faces (space m))) →
  (0 < a1 m ∨ 0 < b1 m ∨ (0 < c1 m ∧ 0 < d1 m) →
   ∃ fa : list R,
     face_areas (space m) q = Some fa ∧ Forall (fun a => a ≠ 0) fa) →
  ∃ r : batched R,
    inner_product m (Batch hs) (Batch ks) q = Some r
    ∧ scalar_or_batch (length hs) r.
Proof.
  intros Hb Hh Hk Hl Hused Hnd.
  pose proof (belongs_in_range _ _ Hb) as Hq.
  apply bool_decide_eq_true in Hb.
  unfold inner_product. rewrite !bmapM_padd_Some by done.
  cbn [mbind option_bind bmap].
  destruct (mass_and_bending_block_batches m hs ks q (Single 0))
    as (ip & -> & Hip); try done.
  { intros Ha2 v Hv. apply Hused; [done|]. by rewrite <- Hb. }
  cbn [mbind option_bind].
  destruct (first_order_block_batches m (map (zip_with vadd q) hs)
              (map (zip_with vadd q) ks) q ip) as (r & Hr & Hshape);
    try done.
  - apply Forall_map. eapply Forall_impl; [exact Hh|]. intros h Hlen.
    cbn in *. rewrite length_zip_with. lia.
  - apply Forall_map. eapply Forall_impl; [exact Hk|]. intros k Hlen.
    cbn in *. rewrite length_zip_with. lia.
  - by rewrite !length_map.
  - intros Hg. destruct (Hnd Hg) as (fa & Hfa & Hnz).
    rewrite face_areas_Some in Hfa by done. injection Hfa as <-.
    by rewrite Forall_map in Hnz.
  - by rewrite length_map.
  - exists r. split; [done|]. by rewrite length_map in Hshape.
Qed.

Lemma inner_product_defined_on_batches_witness :
  ∃ r : batched R,
    inner_product (mkElasticMetric one_triangle 1 1 1 1 1 1)
      (Batch [shear_field; stretch_field])
      (Batch [stretch_field; stretch_field]) right_triangle
    = Some r
    ∧ scalar_or_batch (length [shear_field; stretch_field]) r.
Proof.
  apply (inner_product_defined_on_batches
           (mkElasticMetric one_triangle 1 1 1 1 1 1)
           [shear_field; stretch_field] [stretch_field; stretch_field]
           right_triangle).
  - reflexivity.
  - simpl. repeat constructor.
  - simpl. repeat constructor.
  - reflexivity.
  - intros _ v Hv. vm_compute in Hv. simpl.
    destruct v as [|[|[|v]]]; [| | |lia];
      rewrite !elem_of_cons; auto.
  - intros _. exists [1]. split; [apply face_areas_right_triangle|].
    repeat constructor. simpl. lra.
Defined.
